(** * benlink: the declarative bit-level codec ([bitfield.py])

    A shallow embedding of the codec engine of [src/bitfield.py] and of the
    schemas of [src/src/benlink/protocol], with the properties of its
    specification stated and proved against it.

    Python objects are modelled with an explicit store: a [Bitfield]
    instance is a location of the heap, its [__dict__] an insertion-ordered
    dictionary, [setattr] an update of the store, and [getattr] a lookup
    in the instance, then in its class.  Recursion that Python
    bounds only by its stack (dynamic descriptors may produce descriptors
    for ever, object graphs may be cyclic) is bounded by fuel. *)

From stdpp Require Import base tactics option list strings numbers.
From Stdlib Require Import ZArith Lia.
From Stdlib.Strings Require Import Byte.

Set Default Proof Using "Type".
Set Warnings "-register-all".

#[export] Instance byte_eq_dec : EqDecision byte := Byte.byte_eq_dec.
Open Scope Z_scope.
Open Scope nat_scope.

(* ================================================================= *)
(** * Part I: the program *)
(* ================================================================= *)

(** ** Python values *)

Abbreviation loc := nat.

(** The values that fields of a record hold: [None], [bool], [int], the
    bit buffer [Bits], [bytes], [str] (its code points), [list], and a
    reference to a [Bitfield] instance. *)
Inductive value :=
| VNone
| VBool (b : bool)
| VInt (z : Z)
| VBits (bs : list bool)
| VBytes (bs : list byte)
| VStr (cps : list N)
| VList (vs : list value)
| VRef (l : loc).

Abbreviation val := value (only parsing).

(** ** Exceptions *)

Inductive exn_type :=
| ValueError
| TypeError
| AttributeError
| UnicodeError
| ShortBufferError
| ValueOutOfRangeError
| ByteAlignmentError
| UserError (name : string).

(** The messages of the exceptions the engine raises, with the values
    their f-strings interpolate. *)
Inductive exn_msg :=
| MsgExpectedBits (n got : nat)
| MsgExpectedItems (n got : nat)
| MsgExpected (default got : value)
| MsgExpectedNone (got : value)
| MsgExpectedBitfield (got : value)
| MsgDynValue (got : value)
| MsgCannotInferLength
| MsgExpectedFieldType
| MsgMissingValue (name : string)
| MsgBitsLeftOver (cls : string) (remaining : nat)
| MsgInnerDefaults
| MsgMissingFieldDef
| MsgLiteralArgs
| MsgDefaultLength (n got : nat)
| MsgNoAttribute (name : string)
| MsgNotSized (got : value)
| MsgNotIterable (got : value)
| MsgBadByte (got : value)
| MsgCodec
| MsgExceptionArgs
| MsgShortBuffer (want have : nat)
| MsgOutOfRange (v : Z) (n : nat)
| MsgNotAnInteger (got : value)
| MsgNotAligned (len : nat)
| MsgUser (text : string)
| MsgInField (name cls : string) (inner : exn_msg).

Record exn := Exn { exn_class : exn_type; exn_message : exn_msg }.

(** What the model has no answer for: the fuel ran out, a reference points
    outside the store, a class is not in the class table, or an attribute
    is read that the instance does not store and that its class holds as
    an object that is no value of the model (a descriptor, a field
    specifier, a class, a type). *)
Inductive stuck :=
| OutOfFuel
| NoObject (l : loc)
| NoClass (name : string)
| ClassObject (cls name : string).

Inductive outcome (A : Type) :=
| Ret (a : A)
| Raise (e : exn)
| Stuck (why : stuck).
Arguments Ret {A} a.
Arguments Raise {A} e.
Arguments Stuck {A} why.

#[export] Instance outcome_ret : MRet outcome := @Ret.
#[export] Instance outcome_bind : MBind outcome := λ A B f m,
  match m with Ret a => f a | Raise e => Raise e | Stuck w => Stuck w end.

(** [raise type(e)(f"error in field {name!r} of {cls!r}: {e}")].  The
    codec errors of [str] cannot be rebuilt from one argument: for them the
    re-raise itself fails with a [TypeError]. *)
Definition wrap_exn (name cls : string) (e : exn) : exn :=
  match exn_class e with
  | UnicodeError => Exn TypeError MsgExceptionArgs
  | c => Exn c (MsgInField name cls (exn_message e))
  end.

(** ** Dictionaries

    A Python [dict]: keys are unique and keep their insertion order. *)

Abbreviation dict V := (list (string * V)).

Fixpoint dict_get {V} (k : string) (d : dict V) : option V :=
  match d with
  | [] => None
  | (k', v) :: d' => if String.eqb k k' then Some v else dict_get k d'
  end.

Fixpoint dict_set {V} (k : string) (v : V) (d : dict V) : dict V :=
  match d with
  | [] => [(k, v)]
  | (k', v') :: d' =>
      if String.eqb k k' then (k, v) :: d' else (k', v') :: dict_set k v d'
  end.

(** ** The bit buffer and its stream ([bits] module) *)

Module Bits.

Abbreviation t := (list bool).

(** Modelled from the spec: [Bits.to_int] of the absent [bits] module,
    "unsigned big-endian integer": the first bit is the most significant. *)
Definition to_int (b : t) : Z :=
  foldl (λ acc x, (2 * acc + Z.b2z x)%Z) 0%Z b.

(** Modelled from the spec: [Bits.from_int(v, n)] of the absent [bits]
    module, "unsigned big-endian integer of exactly n bits; from_int fails
    if v >= 2^n or v < 0". *)
Definition from_int (v : Z) (n : nat) : outcome t :=
  if ((2 ^ Z.of_nat n <=? v) || (v <? 0))%Z
  then Raise (Exn ValueOutOfRangeError (MsgOutOfRange v n))
  else Ret ((λ i, Z.testbit v (Z.of_nat (n - 1 - i))) <$> seq 0 n).

Definition byte_of_bits (b : t) : byte :=
  match b with
  | [b7; b6; b5; b4; b3; b2; b1; b0] =>
      Byte.of_bits (b0, (b1, (b2, (b3, (b4, (b5, (b6, b7)))))))
  | _ => x00
  end.

Definition bits_of_byte (x : byte) : t :=
  let '(b0, (b1, (b2, (b3, (b4, (b5, (b6, b7))))))) := Byte.to_bits x in
  [b7; b6; b5; b4; b3; b2; b1; b0].

Fixpoint chunk_bytes (k : nat) (b : t) : list byte :=
  match k with
  | 0 => []
  | S k' => byte_of_bits (take 8 b) :: chunk_bytes k' (drop 8 b)
  end.

(** Modelled from the spec: [Bits.to_bytes] of the absent [bits] module,
    "valid only when len(B) % 8 == 0; bit 0 is the MSB of byte 0". *)
Definition to_bytes (b : t) : outcome (list byte) :=
  if length b mod 8 =? 0
  then Ret (chunk_bytes (length b / 8) b)
  else Raise (Exn ByteAlignmentError (MsgNotAligned (length b))).

(** Modelled from the spec: [Bits.from_bytes] of the absent [bits] module,
    "inverse of the above". *)
Definition from_bytes (bs : list byte) : t :=
  concat (bits_of_byte <$> bs).

Definition bit_at (b : t) (i : nat) : bool := default false (b !! i).

(** Modelled from the spec: [Bits.reorder(P)] of the absent [bits] module,
    "output bit i equals input bit P[i] for i < len(P), and for
    i >= len(P), output bit i equals input bit i", with "len preserved by
    reorder/unreorder": the output has the bits of the input, each index
    below [len(P)] filled from the index that [P] names. *)
Definition reorder (P : list nat) (b : t) : t :=
  imap (λ i x,
    match P !! i with
    | Some p => bit_at b p
    | None => x
    end) b.

(** Modelled from the spec: [Bits.unreorder(P)] of the absent [bits]
    module, "unreorder(P) is the inverse": output bit [P[i]] is input bit
    [i] for [i < len(P)], and the tail is left in place. *)
Definition unreorder (P : list nat) (b : t) : t :=
  imap (λ j x,
    if decide (j < length P)
    then match list_find (λ p, p = j) P with
         | Some (i, _) => bit_at b i
         | None => x
         end
    else x) b.

(** The spec's requirement on a reorder sequence for a buffer of [n] bits:
    it is a permutation of [0..len(P)-1] and no longer than the buffer. *)
Definition valid_order (P : list nat) (n : nat) : Prop :=
  P ≡ₚ seq 0 (length P) ∧ length P ≤ n.

End Bits.

Module BitStream.

(** Modelled from the spec: the [BitStream] of the absent [bits] module,
    "a read cursor (buffer, offset)". *)
Record t := Make { buffer : Bits.t; offset : nat }.

Definition of_bits (b : Bits.t) : t := Make b 0.

(** "remaining() returns len(buffer) - offset". *)
Definition remaining (s : t) : nat := length (buffer s) - offset s.

(** "take(n) returns (buffer[offset..offset+n], (buffer, offset+n)) and
    fails if offset+n > len(buffer)". *)
Definition take (n : nat) (s : t) : outcome (Bits.t * t) :=
  if decide (offset s + n ≤ length (buffer s))
  then Ret (take n (drop (offset s) (buffer s)), Make (buffer s) (offset s + n))
  else Raise (Exn ShortBufferError (MsgShortBuffer n (remaining s))).

(** "A reorder(P) on the stream is equivalent to taking reorder(P) of the
    underlying buffer and resetting offset to 0". *)
Definition reorder (P : list nat) (s : t) : t :=
  Make (Bits.reorder P (buffer s)) 0.

End BitStream.

(** ** Built-in operations of Python the engine relies on *)

(** [len(x)]. *)
Definition py_len (v : value) : outcome nat :=
  match v with
  | VBits bs => Ret (length bs)
  | VBytes bs => Ret (length bs)
  | VStr cps => Ret (length cps)
  | VList vs => Ret (length vs)
  | _ => Raise (Exn TypeError (MsgNotSized v))
  end.

Definition Z_of_byte (x : byte) : Z := Z.of_N (Byte.to_N x).

Definition byte_of_N (n : N) : byte := default x00 (Byte.of_N n).

(** [for item in x] and [list(x)]: the items of an iterable. *)
Definition py_iter (v : value) : outcome (list value) :=
  match v with
  | VBits bs => Ret (VBool <$> bs)
  | VBytes bs => Ret ((λ x, VInt (Z_of_byte x)) <$> bs)
  | VStr cps => Ret ((λ c, VStr [c]) <$> cps)
  | VList vs => Ret vs
  | _ => Raise (Exn TypeError (MsgNotIterable v))
  end.

(** The truth value of [x] in [1 if x else 0]; an instance of a plain
    class is true. *)
Definition py_truthy (v : value) : bool :=
  match v with
  | VNone => false
  | VBool b => b
  | VInt z => negb (z =? 0)%Z
  | VBits bs => negb (length bs =? 0)
  | VBytes bs => negb (length bs =? 0)
  | VStr cps => negb (length cps =? 0)
  | VList vs => negb (length vs =? 0)
  | VRef _ => true
  end.

(** An [int] operand; [bool] is a subclass of [int]. *)
Definition py_int (v : value) : option Z :=
  match v with
  | VInt z => Some z
  | VBool b => Some (Z.b2z b)
  | _ => None
  end.

(** [bytes(x)] of an iterable of integers in [range(256)]; of an [int] it
    is that many zero bytes. *)
Definition py_bytes_item (v : value) : outcome byte :=
  match py_int v with
  | Some z =>
      if ((0 <=? z) && (z <? 256))%Z then Ret (byte_of_N (Z.to_N z))
      else Raise (Exn ValueError (MsgBadByte v))
  | None => Raise (Exn TypeError (MsgBadByte v))
  end.

Definition py_bytes (v : value) : outcome (list byte) :=
  match v with
  | VBytes bs => Ret bs
  | VList vs => mapM py_bytes_item vs
  | VBits bs => Ret ((λ b : bool, if b then x01 else x00) <$> bs)
  | VInt z =>
      if (0 <=? z)%Z then Ret (replicate (Z.to_nat z) x00)
      else Raise (Exn ValueError (MsgBadByte v))
  | VBool b => Ret (replicate (Z.to_nat (Z.b2z b)) x00)
  | _ => Raise (Exn TypeError (MsgBadByte v))
  end.

(** [str.encode("utf-8")], on the code points of the string. *)
Definition utf8_encode_cp (c : N) : option (list byte) :=
  (if c <? 0x80 then Some [byte_of_N c]
   else if c <? 0x800 then
     Some [byte_of_N (0xC0 + c / 64); byte_of_N (0x80 + c mod 64)]
   else if c <? 0x10000 then
     if (0xD800 <=? c) && (c <? 0xE000) then None
     else Some [byte_of_N (0xE0 + c / 4096);
                byte_of_N (0x80 + (c / 64) mod 64);
                byte_of_N (0x80 + c mod 64)]
   else if c <? 0x110000 then
     Some [byte_of_N (0xF0 + c / 262144);
           byte_of_N (0x80 + (c / 4096) mod 64);
           byte_of_N (0x80 + (c / 64) mod 64);
           byte_of_N (0x80 + c mod 64)]
   else None)%N.

Fixpoint utf8_encode (cps : list N) : option (list byte) :=
  match cps with
  | [] => Some []
  | c :: r =>
      match utf8_encode_cp c, utf8_encode r with
      | Some b, Some br => Some (b ++ br)
      | _, _ => None
      end
  end.

Definition str_encode (cps : list N) : outcome (list byte) :=
  match utf8_encode cps with
  | Some bs => Ret bs
  | None => Raise (Exn UnicodeError MsgCodec)
  end.

(** [bytes.decode("utf-8")]: strict, shortest forms only, no surrogates. *)
Definition utf8_cont (b : N) : bool := ((0x80 <=? b) && (b <=? 0xBF))%N.

Fixpoint utf8_decode (bs : list N) : option (list N) :=
  match bs with
  | [] => Some []
  | b0 :: r =>
      (if b0 <? 0x80 then cons b0 <$> utf8_decode r
       else if (0xC2 <=? b0) && (b0 <=? 0xDF) then
         match r with
         | b1 :: r1 =>
             if utf8_cont b1
             then cons ((b0 - 0xC0) * 64 + (b1 - 0x80)) <$> utf8_decode r1
             else None
         | _ => None
         end
       else if (0xE0 <=? b0) && (b0 <=? 0xEF) then
         match r with
         | b1 :: b2 :: r2 =>
             let lo := if b0 =? 0xE0 then 0xA0 else 0x80 in
             let hi := if b0 =? 0xED then 0x9F else 0xBF in
             if (lo <=? b1) && (b1 <=? hi) && utf8_cont b2
             then cons ((b0 - 0xE0) * 4096 + (b1 - 0x80) * 64 + (b2 - 0x80))
                    <$> utf8_decode r2
             else None
         | _ => None
         end
       else if (0xF0 <=? b0) && (b0 <=? 0xF4) then
         match r with
         | b1 :: b2 :: b3 :: r3 =>
             let lo := if b0 =? 0xF0 then 0x90 else 0x80 in
             let hi := if b0 =? 0xF4 then 0x8F else 0xBF in
             if (lo <=? b1) && (b1 <=? hi) && utf8_cont b2 && utf8_cont b3
             then cons ((b0 - 0xF0) * 262144 + (b1 - 0x80) * 4096
                        + (b2 - 0x80) * 64 + (b3 - 0x80))
                    <$> utf8_decode r3
             else None
         | _ => None
         end
       else None)%N
  end.

Definition bytes_decode (bs : list byte) : outcome (list N) :=
  match utf8_decode (Byte.to_N <$> bs) with
  | Some cps => Ret cps
  | None => Raise (Exn UnicodeError MsgCodec)
  end.

(** ** Field descriptors *)

(** [ValueMapper]: the protocol of the mappers of [bf_map]. *)
Record ValueMapper := {
  forward : value → outcome value;
  back : value → outcome value
}.

(** The descriptors [BFType], and what a field definition or a dynamic
    function may give in place of one ([BFTypeDisguised]): a descriptor, a
    [Bitfield] class, the type [bool], another type, or a plain value.
    [NOT_PROVIDED] is [None] of the [option].  A dynamic function reads the
    attributes of the sibling view it is given: the fields decoded so far
    when decoding, the attributes that the instance stores when
    encoding. *)
Inductive bftype :=
| BFBits (n : nat) (default : option value)
| BFList (inner : bftype) (n : nat) (default : option value)
| BFMap (inner : bftype) (vm : ValueMapper) (default : option value)
| BFDynSelf (fn : dict value → outcome disguised) (default : option value)
| BFDynSelfN (fn : dict value → nat → outcome disguised)
    (default : option value)
| BFLit (inner : bftype) (default : value)
| BFNone (default : option value)
| BFBitfield (inner : string) (n : nat) (default : option value)
with disguised :=
| DField (f : bftype)
| DClass (cls : string)
| DBool
| DType (name : string)
| DValue (v : value).

Definition is_provided {A} (x : option A) : bool :=
  match x with Some _ => true | None => false end.

(** [bftype.default]. *)
Definition bftype_default (bftype : bftype) : option value :=
  match bftype with
  | BFBits _ d | BFList _ _ d | BFMap _ _ d | BFDynSelf _ d
  | BFDynSelfN _ d | BFNone d | BFBitfield _ _ d => d
  | BFLit _ d => Some d
  end.

Fixpoint bftype_length (bftype : bftype) : option nat :=
  match bftype with
  | BFBits n _ | BFBitfield _ n _ => Some n
  | BFList inner n _ =>
      match bftype_length inner with
      | None => None
      | Some item_len => Some (n * item_len)
      end
  | BFMap inner _ _ | BFLit inner _ => bftype_length inner
  | BFNone _ => Some 0
  | BFDynSelf _ _ | BFDynSelfN _ _ => None
  end.

Fixpoint bftype_has_children_with_default (bftype : bftype) : bool :=
  match bftype with
  | BFBits _ _ | BFBitfield _ _ _ | BFNone _ | BFDynSelf _ _
  | BFDynSelfN _ _ => false
  | BFList inner _ _ | BFMap inner _ _ | BFLit inner _ =>
      is_provided (bftype_default inner)
      || bftype_has_children_with_default inner
  end.

(** ** Classes and the store *)

(** A class derived from [Bitfield]: the classes of its [__mro__] below
    [Bitfield] (itself excluded), its [_fields] in declaration order, its
    [_reorder], and the attributes that its body and the bodies of its
    bases assign, the nearest first: under the name of a field, what the
    declaration of the field gives it ([name: T = bf_int(3)] leaves the
    descriptor there, an annotation alone leaves nothing). *)
Record class_def := ClassDef {
  cls_mro : list string;
  cls_fields : dict bftype;
  cls_reorder : list nat;
  cls_attrs : dict disguised
}.

Abbreviation class_table := (dict class_def).

(** [issubclass(a, b)] for two classes of the table. *)
Definition issubclass (Γ : class_table) (a b : string) : bool :=
  String.eqb a b
  || match dict_get a Γ with
     | Some cd => existsb (String.eqb b) (cls_mro cd)
     | None => false
     end.

(** [cls.length()]: the loop over [cls._fields.values()]. *)
Fixpoint length_loop (acc : nat) (fields : list bftype) : option nat :=
  match fields with
  | [] => Some acc
  | field :: rest =>
      match bftype_length field with
      | None => None
      | Some field_len => length_loop (acc + field_len) rest
      end
  end.

Definition Bitfield_length (fields : dict bftype) : option nat :=
  length_loop 0 fields.*2.

(** An instance: its class and its [__dict__]. *)
Record object := Obj { obj_class : string; obj_dict : dict value }.

Abbreviation heap := (list object).

(** Computations on the store. *)
Definition M (A : Type) : Type := heap → heap * outcome A.

#[export] Instance M_ret : MRet M := λ A a h, (h, Ret a).
#[export] Instance M_bind : MBind M := λ A B f m h,
  match m h with
  | (h', Ret a) => f a h'
  | (h', Raise e) => (h', Raise e)
  | (h', Stuck w) => (h', Stuck w)
  end.

Definition lift {A} (o : outcome A) : M A := λ h, (h, o).
Definition raise {A} (c : exn_type) (m : exn_msg) : M A :=
  λ h, (h, Raise (Exn c m)).
Definition get_object (l : loc) : M object := λ h,
  match h !! l with
  | Some o => (h, Ret o)
  | None => (h, Stuck (NoObject l))
  end.
Definition get_class (Γ : class_table) (name : string) : M class_def :=
  match dict_get name Γ with
  | Some cd => mret cd
  | None => lift (Stuck (NoClass name))
  end.

(** The attributes of [Bitfield] itself that a field can be named after:
    [bitfield_context: _ContextT | None = None]. *)
Definition Bitfield_attrs : dict disguised :=
  [("bitfield_context", DValue VNone)].

(** The attribute [name] of the class [cls]: of the class or of a base,
    [Bitfield] last.  A plain value is returned; a descriptor, a class or
    a type is an object that the values of the model do not include (what
    the mappers and the [bits] module make of such an object is not
    specified). *)
Definition class_attr (Γ : class_table) (cls name : string)
    : outcome value :=
  match dict_get cls Γ with
  | None => Stuck (NoClass cls)
  | Some cd =>
      match dict_get name (cls_attrs cd ++ Bitfield_attrs) with
      | Some (DValue v) => Ret v
      | Some _ => Stuck (ClassObject cls name)
      | None => Raise (Exn AttributeError (MsgNoAttribute name))
      end
  end.

(** [getattr(self, name)]: the [__dict__] of the instance first, then the
    attribute of its class, which [class_attr] looks up. *)
Definition getattr (class_attr : string → string → outcome value)
    (l : loc) (name : string) : M value :=
  o ← get_object l;
  match dict_get name (obj_dict o) with
  | Some v => mret v
  | None => lift (class_attr (obj_class o) name)
  end.

(** [setattr(self, name, value)]. *)
Definition setattr (l : loc) (name : string) (v : value) : M unit := λ h,
  match h !! l with
  | Some o => (<[l := Obj (obj_class o) (dict_set name v (obj_dict o))]> h,
               Ret ())
  | None => (h, Stuck (NoObject l))
  end.

(** [try: m  except Exception as e: raise type(e)(...)]. *)
Definition in_field {A} (name cls : string) (m : M A) : M A := λ h,
  match m h with
  | (h', Raise e) => (h', Raise (wrap_exn name cls e))
  | r => r
  end.

(** A loop with an accumulator that stops at the first exception. *)
Fixpoint for_each {A B} (f : B → A → M B) (acc : B) (l : list A) : M B :=
  match l with
  | [] => mret acc
  | x :: l' => acc' ← f acc x; for_each f acc' l'
  end.

#[export] Instance outcome_fmap : FMap outcome := λ A B f m,
  match m with Ret a => Ret (f a) | Raise e => Raise e | Stuck w => Stuck w end.

(** ** Schema builders *)

Definition bf_bits (n : nat) (default : option value) : bftype :=
  BFBits n default.

(** [disguise] is the identity and [undisguise] returns a descriptor as it
    is: on the builders whose argument is a descriptor both disappear. *)
Definition bf_map (field : bftype) (vm : ValueMapper)
    (default : option value) : bftype :=
  BFMap field vm default.

Definition BitsAsInt (n : nat) : ValueMapper := {|
  forward x :=
    match x with
    | VBits bs => Ret (VInt (Bits.to_int bs))
    | _ => Raise (Exn AttributeError (MsgNoAttribute "to_int"))
    end;
  back y :=
    match py_int y with
    | Some z => VBits <$> Bits.from_int z n
    | None => Raise (Exn TypeError (MsgNotAnInteger y))
    end
|}.

Definition bf_int (n : nat) (default : option value) : bftype :=
  bf_map (bf_bits n None) (BitsAsInt n) default.

Definition IntAsBool : ValueMapper := {|
  forward x :=
    Ret (VBool (match py_int x with Some z => (z =? 1)%Z | None => false end));
  back y := Ret (VInt (if py_truthy y then 1 else 0)%Z)
|}.

Definition bf_bool (default : option value) : bftype :=
  bf_map (bf_int 1 None) IntAsBool default.

Definition bf_lit (field : bftype) (default : value) : bftype :=
  BFLit field default.

Definition bf_lit_int (n : nat) (default : value) : bftype :=
  bf_lit (bf_int n None) default.

Definition bf_none (default : option value) : bftype := BFNone default.

Definition bf_bitfield (cls : string) (n : nat) (default : option value)
    : bftype :=
  BFBitfield cls n default.

(** [is_provided(default) and len(default) != n]. *)
Definition check_default_length (n : nat) (default : option value)
    : outcome unit :=
  match default with
  | None => Ret ()
  | Some d =>
      len ← py_len d;
      if len =? n then Ret ()
      else Raise (Exn ValueError (MsgDefaultLength n len))
  end.

(** [bf_list] on an item that is a descriptor. *)
Definition bf_list_field (item : bftype) (n : nat) (default : option value)
    : outcome bftype :=
  check_default_length n default;;
  Ret (BFList item n default).

Definition ListAsBytes : ValueMapper := {|
  forward x := VBytes <$> py_bytes x;
  back y := VList <$> py_iter y
|}.

Definition bf_bytes (n : nat) (default : option value) : outcome bftype :=
  check_default_length n default;;
  items ← bf_list_field (bf_int 8 None) n None;
  Ret (bf_map items ListAsBytes default).

Definition BytesAsStr : ValueMapper := {|
  forward x :=
    match x with
    | VBytes bs => VStr <$> bytes_decode bs
    | _ => Raise (Exn AttributeError (MsgNoAttribute "decode"))
    end;
  back y :=
    match y with
    | VStr cps => VBytes <$> str_encode cps
    | _ => Raise (Exn AttributeError (MsgNoAttribute "encode"))
    end
|}.

(** [bf_str(n)] with the default encoding, utf-8. *)
Definition bf_str (n : nat) (default : option value) : outcome bftype :=
  match default with
  | None => Ret ()
  | Some (VStr cps) =>
      enc ← str_encode cps;
      if length enc =? n then Ret ()
      else Raise (Exn ValueError (MsgDefaultLength n (length enc)))
  | Some _ => Raise (Exn AttributeError (MsgNoAttribute "encode"))
  end;;
  inner ← bf_bytes n None;
  Ret (bf_map inner BytesAsStr default).

(** A function handed to [bf_dyn], by the number of its parameters. *)
Inductive dyn_fn :=
| Fn1 (fn : dict value → outcome disguised)
| Fn2 (fn : dict value → nat → outcome disguised)
| FnOther (n_params : nat).

Definition bf_dyn (fn : dyn_fn) (default : option value) : outcome bftype :=
  match fn with
  | Fn1 fn => Ret (BFDynSelf fn default)
  | Fn2 fn => Ret (BFDynSelfN fn default)
  | FnOther n_params =>
      Raise (Exn ValueError (MsgUser "unsupported number of parameters"))
  end.

Definition undisguise (Γ : class_table) (x : disguised) : outcome bftype :=
  match x with
  | DField f => Ret f
  | DClass c =>
      match dict_get c Γ with
      | None => Stuck (NoClass c)
      | Some cd =>
          match Bitfield_length (cls_fields cd) with
          | None => Raise (Exn TypeError MsgCannotInferLength)
          | Some field_length => Ret (bf_bitfield c field_length None)
          end
      end
  | DBool => Ret (bf_bool None)
  | DType _ => Raise (Exn TypeError MsgExpectedFieldType)
  | DValue (VBytes b) =>
      inner ← bf_bytes (length b) None;
      Ret (bf_lit inner (VBytes b))
  | DValue (VStr s) =>
      enc ← str_encode s;
      inner ← bf_str (length enc) None;
      Ret (bf_lit inner (VStr s))
  | DValue VNone => Ret (bf_none None)
  | DValue _ => Raise (Exn TypeError MsgExpectedFieldType)
  end.

Definition bf_list (Γ : class_table) (item : disguised) (n : nat)
    (default : option value) : outcome bftype :=
  check_default_length n default;;
  inner ← undisguise Γ item;
  Ret (BFList inner n default).

(** ** Equality: [==] and [Bitfield.__eq__] *)

Definition read_object (h : heap) (l : loc) : outcome object :=
  match h !! l with
  | Some o => Ret o
  | None => Stuck (NoObject l)
  end.

(** [getattr(x, name)] in a store that the comparison only reads. *)
Definition read_attr (class_attr : string → string → outcome value)
    (h : heap) (l : loc) (name : string) : outcome value :=
  o ← read_object h l;
  match dict_get name (obj_dict o) with
  | Some v => Ret v
  | None => class_attr (obj_class o) name
  end.

(** [all(... for name in self._fields)]: stops at the first [False]. *)
Fixpoint all_fields (test : string → outcome bool) (names : list string)
    : outcome bool :=
  match names with
  | [] => Ret true
  | name :: rest =>
      b ← test name;
      if b : bool then all_fields test rest else Ret false
  end.

(** [Bitfield.__eq__(self, other)], with [eq] for the [==] of its body. *)
Definition Bitfield_eq (eq : value → value → outcome bool)
    (Γ : class_table) (h : heap) (self : loc) (other : value)
    : outcome bool :=
  o ← read_object h self;
  match other with
  | VRef lo =>
      oo ← read_object h lo;
      if negb (issubclass Γ (obj_class oo) (obj_class o)) then Ret false
      else
        match dict_get (obj_class o) Γ with
        | None => Stuck (NoClass (obj_class o))
        | Some cd =>
            all_fields (λ name,
              a ← read_attr (class_attr Γ) h self name;
              b ← read_attr (class_attr Γ) h lo name;
              eq a b) (cls_fields cd).*1
        end
  | _ => Ret false
  end.

(** The comparison of two lists: lengths first, then item by item, an item
    being equal to itself without a call of its [__eq__]. *)
Fixpoint py_list_eq (eq : value → value → outcome bool) (vs ws : list value)
    : outcome bool :=
  match vs, ws with
  | [], [] => Ret true
  | v :: vs', w :: ws' =>
      b ← match v, w with
          | VRef lv, VRef lw => if lv =? lw then Ret true else eq v w
          | _, _ => eq v w
          end;
      if b : bool then py_list_eq eq vs' ws' else Ret false
  | _, _ => Ret false
  end.

(** [v == w].  Between two instances the [__eq__] of the right operand
    runs first when its class is a proper subclass of the left one's; a
    built-in left operand defers to the [__eq__] of an instance on the
    right. *)
Fixpoint py_eq (fuel : nat) (Γ : class_table) (h : heap) (v w : value)
    : outcome bool :=
  match fuel with
  | 0 => Stuck OutOfFuel
  | S fuel =>
      match v, w with
      | VRef lv, VRef lw =>
          ov ← read_object h lv;
          ow ← read_object h lw;
          if negb (String.eqb (obj_class ow) (obj_class ov))
             && issubclass Γ (obj_class ow) (obj_class ov)
          then Bitfield_eq (py_eq fuel Γ h) Γ h lw v
          else Bitfield_eq (py_eq fuel Γ h) Γ h lv w
      | VRef lv, _ => Bitfield_eq (py_eq fuel Γ h) Γ h lv w
      | _, VRef lw => Bitfield_eq (py_eq fuel Γ h) Γ h lw v
      | VList vs, VList ws =>
          if negb (length vs =? length ws) then Ret false
          else py_list_eq (py_eq fuel Γ h) vs ws
      | VNone, VNone => Ret true
      | VBits a, VBits b => Ret (bool_decide (a = b))
      | VBytes a, VBytes b => Ret (bool_decide (a = b))
      | VStr a, VStr b => Ret (bool_decide (a = b))
      | _, _ =>
          match py_int v, py_int w with
          | Some a, Some b => Ret (a =? b)%Z
          | _, _ => Ret false
          end
      end
  end.

(** [v != w]: the negation of [==]. *)
Definition py_ne (fuel : nat) (Γ : class_table) (v w : value) : M bool :=
  λ h, (h, negb <$> py_eq fuel Γ h v w).

(** ** The record base class [Bitfield] *)

(** A new instance, at the first free location of the store. *)
Definition alloc (o : object) : M loc := λ h, (h ++ [o], Ret (length h)).

(** [cls(kwargs...)]: [Bitfield.__init__] on a new instance. *)
Definition Bitfield_init (Γ : class_table) (cls : string)
    (kwargs : dict value) : M loc :=
  cd ← get_class Γ cls;
  self ← alloc (Obj cls []);
  for_each (λ (_ : unit) '(name, field),
    value ← match dict_get name kwargs with
            | Some v => mret v
            | None =>
                match bftype_default field with
                | Some d => mret d
                | None => raise ValueError (MsgMissingValue name)
                end
            end;
    setattr self name value) () (cls_fields cd);;
  mret self.

Section Codec.

Context (Γ : class_table).

(** *** Decoding *)

Definition from_bitstream_with
    (rec : bftype → BitStream.t → dict value → value → M (value * BitStream.t))
    (cls : string) (stream : BitStream.t) (context : value)
    : M (value * BitStream.t) :=
  cd ← get_class Γ cls;
  let proxy := dict_set "bitfield_context" context [] in
  let stream := BitStream.reorder (cls_reorder cd) stream in
  '(proxy, stream) ← for_each (λ '(proxy, stream) '(name, field),
      '(value, stream) ← in_field name cls (rec field stream proxy context);
      mret (dict_set name value proxy, stream))
    (proxy, stream) (cls_fields cd);
  self ← Bitfield_init Γ cls proxy;
  mret (VRef self, stream).

Definition from_bits_with
    (rec : bftype → BitStream.t → dict value → value → M (value * BitStream.t))
    (cls : string) (bits : Bits.t) (context : value) : M value :=
  '(out, stream) ← from_bitstream_with rec cls (BitStream.of_bits bits) context;
  if BitStream.remaining stream =? 0 then mret out
  else raise ValueError (MsgBitsLeftOver cls (BitStream.remaining stream)).

Fixpoint bftype_from_bitstream (fuel : nat) (bftype : bftype)
    (stream : BitStream.t) (proxy : dict value) (context : value)
    : M (value * BitStream.t) :=
  match fuel with
  | 0 => lift (Stuck OutOfFuel)
  | S fuel =>
      match bftype with
      | BFBits n _ =>
          '(bits, stream) ← lift (BitStream.take n stream);
          mret (VBits bits, stream)
      | BFList inner n _ =>
          '(acc, stream) ← for_each (λ '(acc, stream) (_ : nat),
              '(item, stream) ←
                bftype_from_bitstream fuel inner stream proxy context;
              mret (acc ++ [item], stream))
            ([], stream) (seq 0 n);
          mret (VList acc, stream)
      | BFMap inner vm _ =>
          '(value, stream) ←
            bftype_from_bitstream fuel inner stream proxy context;
          out ← lift (forward vm value);
          mret (out, stream)
      | BFDynSelf fn _ =>
          d ← lift (fn proxy);
          field ← lift (undisguise Γ d);
          bftype_from_bitstream fuel field stream proxy context
      | BFDynSelfN fn _ =>
          d ← lift (fn proxy (BitStream.remaining stream));
          field ← lift (undisguise Γ d);
          bftype_from_bitstream fuel field stream proxy context
      | BFLit inner default =>
          '(value, stream) ←
            bftype_from_bitstream fuel inner stream proxy context;
          differs ← py_ne fuel Γ value default;
          if differs : bool then raise ValueError (MsgExpected default value)
          else mret (value, stream)
      | BFNone _ => mret (VNone, stream)
      | BFBitfield inner n _ =>
          '(bits, stream) ← lift (BitStream.take n stream);
          out ← from_bits_with (bftype_from_bitstream fuel) inner bits context;
          mret (out, stream)
      end
  end.

Definition from_bitstream (fuel : nat) :=
  from_bitstream_with (bftype_from_bitstream fuel).

Definition from_bits (fuel : nat) :=
  from_bits_with (bftype_from_bitstream fuel).

Definition from_bytes (fuel : nat) (cls : string) (data : list byte)
    (context : value) : M value :=
  from_bits fuel cls (Bits.from_bytes data) context.

(** *** Encoding *)

(** Modelled from the spec: the constructor [Bits(value)] of the absent
    [bits] module; the encoder "outputs the value", a bit buffer. *)
Definition Bits_new (v : value) : outcome Bits.t :=
  match v with
  | VBits bs => Ret bs
  | _ => Raise (Exn TypeError (MsgNotIterable v))
  end.

Definition to_bits_with
    (rec : bftype → value → loc → value → M Bits.t)
    (self : loc) (context : value) : M Bits.t :=
  setattr self "bitfield_context" context;;
  o ← get_object self;
  cd ← get_class Γ (obj_class o);
  acc ← for_each (λ acc '(name, field),
      value ← getattr (class_attr Γ) self name;
      bits ← in_field name (obj_class o) (rec field value self context);
      mret (acc ++ bits))
    [] (cls_fields cd);
  mret (Bits.unreorder (cls_reorder cd) acc).

Fixpoint bftype_to_bits (fuel : nat) (bftype : bftype) (value : value)
    (parent : loc) (context : val) : M Bits.t :=
  match fuel with
  | 0 => lift (Stuck OutOfFuel)
  | S fuel =>
      match bftype with
      | BFBits n _ =>
          len ← lift (py_len value);
          if negb (len =? n) then raise ValueError (MsgExpectedBits n len)
          else lift (Bits_new value)
      | BFList inner n _ =>
          len ← lift (py_len value);
          if negb (len =? n) then raise ValueError (MsgExpectedItems n len)
          else
            items ← lift (py_iter value);
            for_each (λ acc item,
                bits ← bftype_to_bits fuel inner item parent context;
                mret (acc ++ bits))
              [] items
      | BFMap inner vm _ =>
          inner_value ← lift (back vm value);
          bftype_to_bits fuel inner inner_value parent context
      | BFDynSelf fn _ =>
          p ← get_object parent;
          d ← lift (fn (obj_dict p));
          field ← lift (undisguise Γ d);
          bftype_to_bits fuel field value parent context
      | BFDynSelfN fn _ =>
          d ← match value with
              | VRef l => o ← get_object l; mret (DClass (obj_class o))
              | VStr _ | VBytes _ | VNone => mret (DValue value)
              | _ => raise TypeError (MsgDynValue value)
              end;
          field ← lift (undisguise Γ d);
          bftype_to_bits fuel field value parent context
      | BFLit inner default =>
          differs ← py_ne fuel Γ value default;
          if differs : bool then raise ValueError (MsgExpected default value)
          else bftype_to_bits fuel inner value parent context
      | BFNone _ =>
          match value with
          | VNone => mret []
          | _ => raise ValueError (MsgExpectedNone value)
          end
      | BFBitfield inner n _ =>
          match value with
          | VRef l =>
              out ← to_bits_with (bftype_to_bits fuel) l context;
              if negb (length out =? n)
              then raise ValueError (MsgExpectedBits n (length out))
              else mret out
          | _ => raise TypeError (MsgExpectedBitfield value)
          end
      end
  end.

Definition to_bits (fuel : nat) := to_bits_with (bftype_to_bits fuel).

Definition to_bytes (fuel : nat) (self : loc) (context : value)
    : M (list byte) :=
  bits ← to_bits fuel self context;
  lift (Bits.to_bytes bits).

(** *** Schema finalization *)

(** The annotation of a field: [ClassVar], a [Bitfield] class, [bool],
    [Literal[...]] with its arguments, or anything else. *)
Inductive type_hint :=
| HintClassVar
| HintClass (cls : string)
| HintBool
| HintLiteral (args : list value)
| HintOther.

Definition distill_field (type_hint : type_hint) (value : option disguised)
    : outcome bftype :=
  match value with
  | None =>
      match type_hint with
      | HintClass c => undisguise Γ (DClass c)
      | HintBool => undisguise Γ DBool
      | HintLiteral args =>
          match args with
          | [a] => undisguise Γ (DValue a)
          | _ => Raise (Exn TypeError MsgLiteralArgs)
          end
      | _ => Raise (Exn TypeError MsgMissingFieldDef)
      end
  | Some v => undisguise Γ v
  end.

Definition wrap_outcome {A} (name cls : string) (o : outcome A) : outcome A :=
  match o with
  | Raise e => Raise (wrap_exn name cls e)
  | r => r
  end.

(** [__init_subclass__]: the [_fields] of a class from its annotations
    (those of its bases first) and the class attributes of the same names.
    No class has the attribute [_bf_fields], so [_fields] starts empty. *)
Fixpoint init_subclass (cls : string)
    (hints : list (string * type_hint * option disguised))
    (fields : dict bftype) : outcome (dict bftype) :=
  match hints with
  | [] => Ret fields
  | (name, hint, value) :: rest =>
      match hint with
      | HintClassVar => init_subclass cls rest fields
      | _ =>
          if String.eqb name "bitfield_context"
          then init_subclass cls rest fields
          else
            bf_field ← wrap_outcome name cls (
              bf_field ← distill_field hint value;
              if bftype_has_children_with_default bf_field
              then Raise (Exn ValueError MsgInnerDefaults)
              else Ret bf_field);
            init_subclass cls rest (dict_set name bf_field fields)
      end
  end.

End Codec.

(** ** The vocabulary of the specification *)

(** The descriptor tree of a field contains a [DynSelf] or [DynSelfN]
    node. *)
Fixpoint contains_dyn (f : bftype) : bool :=
  match f with
  | BFDynSelf _ _ | BFDynSelfN _ _ => true
  | BFList inner _ _ | BFMap inner _ _ | BFLit inner _ => contains_dyn inner
  | BFBits _ _ | BFNone _ | BFBitfield _ _ _ => false
  end.

(** The structural length of a static descriptor: "Bits(n) and
    Record(_, n) contribute n, None contributes 0, List(inner, n)
    contributes n times inner's length, Map and Lit contribute their
    inner's length". *)
Fixpoint structural_length (f : bftype) : nat :=
  match f with
  | BFBits n _ | BFBitfield _ n _ => n
  | BFNone _ => 0
  | BFList inner n _ => n * structural_length inner
  | BFMap inner _ _ | BFLit inner _ => structural_length inner
  | BFDynSelf _ _ | BFDynSelfN _ _ => 0
  end.

(** ** Schemas used as examples *)

(** The attributes of a class whose fields are all declared with a
    builder, [name: T = bf_...(...)]: each name holds its descriptor. *)
Definition declared (fields : dict bftype) : dict disguised :=
  (λ '(name, field), (name, DField field)) <$> fields.

(** The packed integer record [{a: int(3), b: int(5)}]. *)
Definition Packed : class_def :=
  ClassDef [] [("a", bf_int 3 None); ("b", bf_int 5 None)] []
    (declared [("a", bf_int 3 None); ("b", bf_int 5 None)]).

(** [{tag: lit_int(4, default=0xA), payload: int(4)}]. *)
Definition Tagged : class_def :=
  ClassDef [] [("tag", bf_lit_int 4 (VInt 10)); ("payload", bf_int 4 None)] []
    (declared [("tag", bf_lit_int 4 (VInt 10)); ("payload", bf_int 4 None)]).

(** A class and a subclass of it with one more field, as
    [ChannelSettings] and [ChannelSettingsDMR] of [rfchannel.py]. *)
Definition Base : class_def :=
  ClassDef [] [("channel_id", bf_int 8 None)] []
    (declared [("channel_id", bf_int 8 None)]).

Definition Derived : class_def :=
  ClassDef ["Base"]
    [("channel_id", bf_int 8 None); ("slot", bf_int 1 None)] []
    (declared [("slot", bf_int 1 None); ("channel_id", bf_int 8 None)]).

(** A reply whose body is chosen by the status and by the number of unread
    bits, as [ReadRFChReplyBody] with [channel_settings_reply_disc] of
    [rfchannel.py]: no body unless the status is 0 (success), else the
    record that fills the rest of the buffer. *)
Definition reply_disc (body : dict value) (n : nat) : outcome disguised :=
  match dict_get "reply_status" body with
  | None => Raise (Exn AttributeError (MsgNoAttribute "reply_status"))
  | Some status =>
      if negb (match py_int status with Some z => (z =? 0)%Z | None => false end)
      then Ret (DValue VNone)
      else if n =? 8 then Ret (DClass "Packed")
      else Raise (Exn ValueError (MsgUser "Unknown channel settings type"))
  end.

Definition Reply : class_def :=
  ClassDef []
    [("reply_status", bf_int 8 None); ("body", BFDynSelfN reply_disc None)] []
    (declared
       [("reply_status", bf_int 8 None); ("body", BFDynSelfN reply_disc None)]).

Definition classes : class_table :=
  [("Packed", Packed); ("Tagged", Tagged); ("Base", Base);
   ("Derived", Derived); ("Reply", Reply)].

(** The instance [{a, b}] of [Packed] as the constructor leaves it in an
    empty store, and the claim's vocabulary for its fields. *)
Definition packed_heap (a b : Z) : heap :=
  [Obj "Packed" [("a", VInt a); ("b", VInt b)]].

(** "v out of range for its width n (v >= 2^n or v < 0)". *)
Definition out_of_range (v : Z) (n : nat) : bool :=
  ((2 ^ Z.of_nat n <=? v) || (v <? 0))%Z.

(** The [n] bits of [v], most significant first. *)
Definition int_bits (v : Z) (n : nat) : Bits.t :=
  (λ i, Z.testbit v (Z.of_nat (n - 1 - i))) <$> seq 0 n.

(** ** The store across an encoding *)

(** An instance after [setattr(self, "bitfield_context", ctx)]. *)
Definition mark (ctx : value) (o : object) : object :=
  Obj (obj_class o) (dict_set "bitfield_context" ctx (obj_dict o)).

(** [h'] is [h] with the context [ctx] set on some of its instances, and
    nothing else changed. *)
Definition marks (ctx : value) (h h' : heap) : Prop :=
  length h' = length h ∧
  ∀ l o, h !! l = Some o → h' !! l = Some o ∨ h' !! l = Some (mark ctx o).

(** A class is never a subclass of one of its proper subclasses (the
    [__mro__] of Python classes guarantees it). *)
Definition proper_hierarchy (Γ : class_table) : Prop :=
  ∀ a b, a ≠ b → issubclass Γ a b = true → issubclass Γ b a = false.

(** [v] differs from [d]: [v == d] does not hold, whatever the store and
    the fuel. *)
Definition differs (Γ : class_table) (v d : value) : Prop :=
  ∀ fuel h, py_eq fuel Γ h v d ≠ Ret true.

(** The declared field [name] compares equal between the instances [ox]
    and [oy]: both store it, and [==] on the two stored values returns
    [True]. *)
Definition field_equal (fuel : nat) (Γ : class_table) (h : heap)
    (ox oy : object) (name : string) : Prop :=
  ∃ a b, dict_get name (obj_dict ox) = Some a ∧
         dict_get name (obj_dict oy) = Some b ∧
         py_eq fuel Γ h a b = Ret true.

(** Two instances of [Base] with the same fields, one of [Derived], and
    an instance of [Base] with another channel. *)
Definition settings_heap : heap :=
  [Obj "Base" [("channel_id", VInt 7)];
   Obj "Derived" [("channel_id", VInt 7); ("slot", VInt 0)];
   Obj "Base" [("channel_id", VInt 7)];
   Obj "Base" [("channel_id", VInt 9)]].

(** ** The cursor across a decoding *)

(** [s'] reads the same buffer as [s], further on, and stays inside the
    buffer if [s] was inside. *)
Definition stream_le (s s' : BitStream.t) : Prop :=
  BitStream.buffer s' = BitStream.buffer s ∧
  BitStream.offset s ≤ BitStream.offset s' ∧
  (BitStream.offset s ≤ length (BitStream.buffer s) →
   BitStream.offset s' ≤ length (BitStream.buffer s)).

(** ** What the constructor stores *)

(** The value [__init__] gives a field: the keyword argument of its name,
    else the default of its descriptor. *)
Definition arg_or_default (kwargs : dict value) (name : string)
    (field : bftype) : option value :=
  match dict_get name kwargs with
  | Some v => Some v
  | None => bftype_default field
  end.

(** The [__dict__] that [__init__] builds from [kwargs], when every field
    has an argument or a default. *)
Fixpoint init_dict (kwargs : dict value) (fields : dict bftype)
    (d : dict value) : option (dict value) :=
  match fields with
  | [] => Some d
  | (name, field) :: rest =>
      match arg_or_default kwargs name field with
      | Some v => init_dict kwargs rest (dict_set name v d)
      | None => None
      end
  end.

(** The instance [{tag, payload: 7}] of [Tagged] as the constructor leaves
    it in an empty store. *)
Definition tagged_heap (tag : Z) : heap :=
  [Obj "Tagged" [("tag", VInt tag); ("payload", VInt 7)]].

(** ** Legal instances and their copies *)

(** A plain value: it holds no record instance. *)
Fixpoint prim (v : value) : bool :=
  match v with
  | VRef _ => false
  | VList vs => forallb prim vs
  | _ => true
  end.

(** [v'] is a copy of [v] in the store [h]: the same plain values, and
    where [v] holds an instance, [v'] holds an instance of the same class
    whose declared fields are copies of those of [v].  The index bounds the
    depth of the comparison. *)
Fixpoint copy_of (n : nat) (Γ : class_table) (h : heap) (v' v : value)
    : Prop :=
  match n with
  | 0 => False
  | S n =>
      match v', v with
      | VRef l', VRef l =>
          ∃ o' o cd,
            h !! l' = Some o' ∧ h !! l = Some o ∧
            obj_class o' = obj_class o ∧
            dict_get (obj_class o) Γ = Some cd ∧
            Forall (λ name, ∃ a' a,
              dict_get name (obj_dict o') = Some a' ∧
              dict_get name (obj_dict o) = Some a ∧
              copy_of n Γ h a' a) (cls_fields cd).*1
      | VList vs', VList vs => Forall2 (copy_of n Γ h) vs' vs
      | VRef _, _ | _, VRef _ | VList _, _ | _, VList _ => False
      | _, _ => v' = v
      end
  end.

(** The sibling view of a decoding against the values it was encoded
    from: the same names in the same order, each value the original itself
    or a copy of it. *)
Definition copy_view (Γ : class_table) (h : heap)
    (pdec porig : dict value) : Prop :=
  Forall2 (λ e' e, e'.1 = e.1 ∧ (e'.2 = e.2 ∨ ∃ m, copy_of m Γ h e'.2 e.2))
    pdec porig.

(** What the encoding of a [DynSelfN] field dispatches on. *)
Definition dispatch (h : heap) (v : value) : option disguised :=
  match v with
  | VRef l => (λ o, DClass (obj_class o)) <$> h !! l
  | VStr _ | VBytes _ | VNone => Some (DValue v)
  | _ => None
  end.

Section Legal.

Context (Γ : class_table) (ctx : value) (h0 : heap).

(** [legal n penc porig k field v bits]: the value [v] is legal for the
    descriptor [field] and [bits] is its encoding, within depth [n].
    [penc] is the [__dict__] of the record being encoded, [porig] the
    fields before this one, which a decoding has in its sibling view, and
    [k] the number of bits that follow [bits] in the buffer of the record.
    - a mapper is undone by its [forward] on the copies of what its [back]
      returned;
    - a dynamic field resolves to the same descriptor from the instance
      when encoding and from the sibling view (and the unread count) when
      decoding;
    - a literal holds a plain value equal to its default;
    - a nested record is an instance of the declared class, of the declared
      width, whose fields are legal. *)
Inductive legal
  : nat → dict value → dict value → nat → bftype → value → Bits.t → Prop :=
| legal_bits n penc porig k w d bs :
    length bs = w →
    legal (S n) penc porig k (BFBits w d) (VBits bs) bs
| legal_list n penc porig k inner cnt d vs bits :
    length vs = cnt →
    legal_items n penc porig k inner vs bits →
    legal (S n) penc porig k (BFList inner cnt d) (VList vs) bits
| legal_map n penc porig k inner vm d v u bits :
    back vm v = Ret u →
    legal n penc porig k inner u bits →
    (∀ h u', (∃ m, copy_of m Γ h u' u) →
       ∃ v', forward vm u' = Ret v' ∧ ∃ m, copy_of m Γ h v' v) →
    legal (S n) penc porig k (BFMap inner vm d) v bits
| legal_dyn n penc porig k fn d dz field v bits :
    fn penc = Ret dz →
    undisguise Γ dz = Ret field →
    (∀ h pdec, copy_view Γ h pdec porig →
       ∃ dz', fn pdec = Ret dz' ∧ undisguise Γ dz' = Ret field) →
    legal n penc porig k field v bits →
    legal (S n) penc porig k (BFDynSelf fn d) v bits
| legal_dyn_n n penc porig k fn d dz field v bits :
    dispatch h0 v = Some dz →
    undisguise Γ dz = Ret field →
    (∀ h pdec, copy_view Γ h pdec porig →
       ∃ dz', fn pdec (length bits + k) = Ret dz' ∧
              undisguise Γ dz' = Ret field) →
    legal n penc porig k field v bits →
    legal (S n) penc porig k (BFDynSelfN fn d) v bits
| legal_lit n penc porig k inner d v bits :
    prim v = true →
    (∀ h, py_eq n Γ h v d = Ret true) →
    legal n penc porig k inner v bits →
    legal (S n) penc porig k (BFLit inner d) v bits
| legal_none n penc porig k d :
    legal (S n) penc porig k (BFNone d) VNone []
| legal_record n penc porig k inner w d l o cd acc :
    h0 !! l = Some o →
    obj_class o = inner →
    dict_get inner Γ = Some cd →
    dict_get "bitfield_context" (cls_fields cd) = None →
    legal_fields n (dict_set "bitfield_context" ctx (obj_dict o))
      [("bitfield_context", ctx)] (cls_fields cd) acc →
    Bits.valid_order (cls_reorder cd) (length acc) →
    length acc = w →
    legal (S n) penc porig k (BFBitfield inner w d) (VRef l)
      (Bits.unreorder (cls_reorder cd) acc)
with legal_items
  : nat → dict value → dict value → nat → bftype → list value → Bits.t
    → Prop :=
| legal_items_nil n penc porig k inner :
    legal_items n penc porig k inner [] []
| legal_items_cons n penc porig k inner v vs b bs :
    legal n penc porig (length bs + k) inner v b →
    legal_items n penc porig k inner vs bs →
    legal_items n penc porig k inner (v :: vs) (b ++ bs)
with legal_fields
  : nat → dict value → dict value → dict bftype → Bits.t → Prop :=
| legal_fields_nil n penc porig :
    legal_fields n penc porig [] []
| legal_fields_cons n penc porig name field rest v b bs :
    dict_get name penc = Some v →
    legal n penc porig (length bs) field v b →
    legal_fields n penc (dict_set name v porig) rest bs →
    legal_fields n penc porig ((name, field) :: rest) (b ++ bs).

(** The instance at [x] is legal for its class, and [bits] is its
    encoding. *)
Definition legal_instance (n : nat) (x : loc) (bits : Bits.t) : Prop :=
  ∃ o cd acc,
    h0 !! x = Some o ∧
    dict_get (obj_class o) Γ = Some cd ∧
    dict_get "bitfield_context" (cls_fields cd) = None ∧
    legal_fields n (dict_set "bitfield_context" ctx (obj_dict o))
      [("bitfield_context", ctx)] (cls_fields cd) acc ∧
    Bits.valid_order (cls_reorder cd) (length acc) ∧
    bits = Bits.unreorder (cls_reorder cd) acc.

End Legal.

(** The record being encoded has the [__dict__] [penc], with the context
    set. *)
Definition parent_view (ctx : value) (h : heap) (parent : loc)
    (penc : dict value) : Prop :=
  ∃ op, h !! parent = Some op ∧ obj_dict op = penc ∧
        dict_set "bitfield_context" ctx penc = penc.

(** The store of a decoding: the store [h0] of the instance, some of its
    contexts set, and the instances allocated since. *)
Definition above (ctx : value) (h0 hd : heap) : Prop :=
  ∃ hm t, hd = hm ++ t ∧ marks ctx h0 hm.

(** The next bits of the stream [s] are [bits], and [k] more follow. *)
Definition stream_at (s : BitStream.t) (bits : Bits.t) (k : nat) : Prop :=
  BitStream.offset s + length bits + k = length (BitStream.buffer s) ∧
  take (length bits) (drop (BitStream.offset s) (BitStream.buffer s)) = bits.

(** The stream [s'] is [s] after [n] more bits. *)
Definition advanced (s s' : BitStream.t) (n : nat) : Prop :=
  BitStream.buffer s' = BitStream.buffer s ∧
  BitStream.offset s' = BitStream.offset s + n.

(** ** The round trip *)

(** The statement that a legal value decodes to a copy of itself, at one
    depth: from a store above [h0], a sibling view of copies and a stream
    standing at the encoding, the decoder returns a copy of the value, has
    only allocated, and has advanced by the length of the encoding. *)
Definition decodes (Γ : class_table) (ctx : value) (h0 : heap) (n : nat)
    : Prop :=
  ∀ penc porig k F v bits,
    legal Γ ctx h0 n penc porig k F v bits →
    ∀ hd s pdec,
      above ctx h0 hd → copy_view Γ hd pdec porig → stream_at s bits k →
      ∃ hd' v' s',
        bftype_from_bitstream Γ n F s pdec ctx hd = (hd', Ret (v', s')) ∧
        (∃ t, hd' = hd ++ t) ∧
        advanced s s' (length bits) ∧
        ∃ m, copy_of m Γ hd' v' v.

(** A field name of the sibling view holds a copy of the field of the
    instance. *)
Definition good (Γ : class_table) (hd : heap) (pdec penc : dict value)
    (name : string) : Prop :=
  ∃ a' a, dict_get name pdec = Some a' ∧ dict_get name penc = Some a ∧
          ∃ m, copy_of m Γ hd a' a.

(** A successful reply without a body: the instance
    [{reply_status: 0, body: None}] of [Reply] as the constructor leaves it
    in an empty store. *)
Definition reply_heap : heap :=
  [Obj "Reply" [("reply_status", VInt 0); ("body", VNone)]].

(** ** The reorder of a class and its encodings *)

(** The reorder of a class fits its encodings: the class has no reorder,
    or it has a static length for which its reorder is a valid order. *)
Definition order_fits (cd : class_def) : Prop :=
  cls_reorder cd = [] ∨
  ∃ L, Bitfield_length (cls_fields cd) = Some L ∧
       Bits.valid_order (cls_reorder cd) L.

(** A record whose one field is declared by its annotation alone,
    [body: Packed]: the class holds no attribute of that name.  The store
    holds an instance of it that lacks the field. *)
Definition Envelope : class_def :=
  ClassDef [] [("body", bf_bitfield "Packed" 8 None)] [] [].

Definition envelope_classes : class_table :=
  [("Packed", Packed); ("Envelope", Envelope)].

Definition envelope_heap : heap := [Obj "Envelope" []].

(** ** The constructor *)

(** The first field, in declaration order, that has neither a keyword
    argument nor a default. *)
Fixpoint first_missing (kwargs : dict value) (fields : dict bftype)
    : option string :=
  match fields with
  | [] => None
  | (name, field) :: rest =>
      match arg_or_default kwargs name field with
      | Some _ => first_missing kwargs rest
      | None => Some name
      end
  end.

(** ** Schema finalization *)

(** An annotation declares a field: it is not a [ClassVar] and its name is
    not [bitfield_context]. *)
Definition declares (entry : string * type_hint * option disguised) : bool :=
  match entry with
  | (_, HintClassVar, _) => false
  | (name, _, _) => negb (String.eqb name "bitfield_context")
  end.

(** ** Fields made by the scalar builders *)

(** [plain field v bits]: the descriptor [field] is made by [bf_int],
    [bf_bool], [bf_bytes], [bf_str] or [bf_lit_int], the value [v] is of
    the kind it carries (an integer of the width, a [bool], a byte string
    or a string of the length, the literal), and [bits] are the bits of
    [v]. *)
Inductive plain : bftype → value → Bits.t → Prop :=
| plain_int w d z :
    out_of_range z w = false →
    plain (bf_int w d) (VInt z) (int_bits z w)
| plain_bool d b :
    plain (bf_bool d) (VBool b) [b]
| plain_bytes n d field b :
    bf_bytes n d = Ret field → length b = n →
    plain field (VBytes b) (Bits.from_bytes b)
| plain_str n d field cps enc :
    bf_str n d = Ret field → utf8_encode cps = Some enc → length enc = n →
    plain field (VStr cps) (Bits.from_bytes enc)
| plain_lit_int w z :
    out_of_range z w = false →
    plain (bf_lit_int w (VInt z)) (VInt z) (int_bits z w).

(** The fields of a class are plain for the attributes [attrs], and [bits]
    are their bits in the order of the declaration. *)
Inductive plain_fields (attrs : dict value) : dict bftype → Bits.t → Prop :=
| plain_fields_nil : plain_fields attrs [] []
| plain_fields_cons name field rest v b bs :
    dict_get name attrs = Some v →
    plain field v b →
    plain_fields attrs rest bs →
    plain_fields attrs ((name, field) :: rest) (b ++ bs).

(** Some fields of [BSSSettings] of [bsssettings.py]: a flag, two literal
    pads, a number and two strings. *)
Definition Aprs_fields : dict bftype :=
  [("allow_position_check", bf_bool None);
   ("_pad", bf_lit_int 1 (VInt 0));
   ("aprs_ssid", bf_int 4 None);
   ("_pad2", bf_lit_int 4 (VInt 0));
   ("aprs_symbol",
    BFMap (BFMap (BFList (bf_int 8 None) 2 None) ListAsBytes None)
      BytesAsStr None)].

Definition Aprs : class_def :=
  ClassDef [] Aprs_fields [] (declared Aprs_fields).

(** Two numbers of four bits that the wire carries in the other order. *)
Definition Nibbles : class_def :=
  ClassDef [] [("hi", bf_int 4 None); ("lo", bf_int 4 None)]
    [4; 5; 6; 7; 0; 1; 2; 3]
    (declared [("hi", bf_int 4 None); ("lo", bf_int 4 None)]).

Definition nibbles_heap : heap :=
  [Obj "Nibbles" [("hi", VInt 10); ("lo", VInt 11)]].

Definition aprs_heap : heap :=
  [Obj "Aprs"
     [("allow_position_check", VBool true); ("_pad", VInt 0);
      ("aprs_ssid", VInt 9); ("_pad2", VInt 0);
      ("aprs_symbol", VStr [0x2F; 0x3E]%N)]].

(** ** The first engine: [packedbits.py]

    [PackedBits] is the codec that [Bitfield] replaced: a field is declared
    by [bitfield(n)] or [union_bitfield(fn)] and its annotation, bits are a
    list of [bool], and an integer field is written by the engine itself,
    most significant bit first.  The types that annotate the fields here
    are [int], [bool], [str], [bytes] and the [PackedBits] classes. *)

Module PackedBits.

Inductive py_type := TInt | TBool | TStr | TBytes | TClass (cls : string).

(** What a [type_len_fn] returns for the type of a field: a type, or a
    [LiteralType] with its [value] and [type], the type of the value. *)
Inductive field_type :=
| FType (t : py_type)
| LiteralType (value : value) (type : py_type).

(** The three field specifiers; a default of [None] is no default. *)
Inductive Bitfield :=
| FixedLengthField (n : Z) (default : option value)
| VariableLengthField (n_fn : dict value → outcome Z) (default : option value)
| UnionField (type_len_fn : dict value → outcome (field_type * Z))
    (default : option value).

Definition default (b : Bitfield) : option value :=
  match b with
  | FixedLengthField _ d | VariableLengthField _ d | UnionField _ d => d
  end.

(** [bitfield(n, default)]: [n] is an [int] or a function of the fields
    decoded so far. *)
Definition bitfield (n : Z + (dict value → outcome Z))
    (default : option value) : outcome Bitfield :=
  match n with
  | inl n =>
      if (n <=? 0)%Z
      then Raise (Exn ValueError (MsgUser "Bitfield length must be positive"))
      else Ret (FixedLengthField n default)
  | inr n_fn => Ret (VariableLengthField n_fn default)
  end.

Definition union_bitfield
    (discriminator : dict value → outcome (field_type * Z))
    (default : option value) : Bitfield :=
  UnionField discriminator default.

(** [build_type_len_fn] of the fixed and of the variable length fields. *)
Definition build_type_len_fn (b : Bitfield) (ft : field_type)
    : dict value → outcome (field_type * Z) :=
  match b with
  | FixedLengthField n _ => λ _, Ret (ft, n)
  | VariableLengthField n_fn _ => λ incomplete,
      n ← n_fn incomplete; Ret (ft, n)
  | UnionField type_len_fn _ => type_len_fn
  end.

(** A field of a class: its name, its specifier and its [type_len_fn]
    (the annotation, [field_type], is read by no method). *)
Record PBField := {
  name : string;
  bitfield_of : Bitfield;
  type_len_fn : dict value → outcome (field_type * Z)
}.

(** A class derived from [PackedBits]: the classes of its [__mro__] below
    [PackedBits] (itself excluded) and its [_pb_fields]. *)
Record pb_class := { pb_mro : list string; pb_fields : list PBField }.

Abbreviation pb_table := (dict pb_class).

Definition get_pb_class (Δ : pb_table) (cls : string) : M pb_class :=
  match dict_get cls Δ with
  | Some c => mret c
  | None => lift (Stuck (NoClass cls))
  end.

Definition pb_issubclass (Δ : pb_table) (a b : string) : bool :=
  String.eqb a b
  || match dict_get a Δ with
     | Some c => existsb (String.eqb b) (pb_mro c)
     | None => false
     end.

(** The attribute [name] of the class [cls], of the class or of a base.
    [__init_subclass__] requires the specifier of every field in the body
    of the class ("Missing bitfield"), so the name of a field holds its
    specifier, which is no value; a class has no other attribute that a
    field is named after. *)
Definition class_attr (Δ : pb_table) (cls name : string) : outcome value :=
  match dict_get cls Δ with
  | None => Stuck (NoClass cls)
  | Some c =>
      if existsb (λ k,
           match dict_get k Δ with
           | Some c' =>
               existsb (λ f, String.eqb name (PackedBits.name f)) (pb_fields c')
           | None => false
           end) (cls :: pb_mro c)
      then Stuck (ClassObject cls name)
      else Raise (Exn AttributeError (MsgNoAttribute name))
  end.

(** [isinstance(value, t)]; [bool] is a subclass of [int]. *)
Definition isinstance (Δ : pb_table) (h : heap) (v : value) (t : py_type)
    : outcome bool :=
  match t, v with
  | TInt, (VInt _ | VBool _) => Ret true
  | TBool, VBool _ => Ret true
  | TStr, VStr _ => Ret true
  | TBytes, VBytes _ => Ret true
  | TClass c, VRef l =>
      o ← read_object h l; Ret (pb_issubclass Δ (obj_class o) c)
  | _, _ => Ret false
  end.

(** [PackedBits.__eq__(self, other)], with [eq] for the [==] of its
    body. *)
Definition PackedBits_eq (eq : value → value → outcome bool)
    (Δ : pb_table) (h : heap) (self : loc) (other : value) : outcome bool :=
  o ← read_object h self;
  match other with
  | VRef lo =>
      oo ← read_object h lo;
      if negb (pb_issubclass Δ (obj_class oo) (obj_class o)) then Ret false
      else
        match dict_get (obj_class o) Δ with
        | None => Stuck (NoClass (obj_class o))
        | Some c =>
            all_fields (λ name,
              a ← read_attr (class_attr Δ) h self name;
              b ← read_attr (class_attr Δ) h lo name;
              eq a b) (name <$> pb_fields c)
        end
  | _ => Ret false
  end.

(** [v == w] where the instances are [PackedBits] instances. *)
Fixpoint pb_eq (fuel : nat) (Δ : pb_table) (h : heap) (v w : value)
    : outcome bool :=
  match fuel with
  | 0 => Stuck OutOfFuel
  | S fuel =>
      match v, w with
      | VRef lv, VRef lw =>
          ov ← read_object h lv;
          ow ← read_object h lw;
          if negb (String.eqb (obj_class ow) (obj_class ov))
             && pb_issubclass Δ (obj_class ow) (obj_class ov)
          then PackedBits_eq (pb_eq fuel Δ h) Δ h lw v
          else PackedBits_eq (pb_eq fuel Δ h) Δ h lv w
      | VRef lv, _ => PackedBits_eq (pb_eq fuel Δ h) Δ h lv w
      | _, VRef lw => PackedBits_eq (pb_eq fuel Δ h) Δ h lw v
      | VList vs, VList ws =>
          if negb (length vs =? length ws) then Ret false
          else py_list_eq (pb_eq fuel Δ h) vs ws
      | VNone, VNone => Ret true
      | VBits a, VBits b => Ret (bool_decide (a = b))
      | VBytes a, VBytes b => Ret (bool_decide (a = b))
      | VStr a, VStr b => Ret (bool_decide (a = b))
      | _, _ =>
          match py_int v, py_int w with
          | Some a, Some b => Ret (a =? b)%Z
          | _, _ => Ret false
          end
      end
  end.

Definition pb_ne (fuel : nat) (Δ : pb_table) (v w : value) : M bool :=
  λ h, (h, negb <$> pb_eq fuel Δ h v w).

(** The [n] bits of [value], most significant first:
    [value & (1 << (n - i - 1)) != 0] for [i] in [range(n)]. *)
Definition int_to_bits (v : Z) (n : Z) : list bool :=
  (λ i, negb (Z.land v (Z.shiftl 1 (n - Z.of_nat i - 1)) =? 0)%Z)
    <$> seq 0 (Z.to_nat n).

(** The loop that reads an integer of [n] bits at [cursor]:
    [int_value |= bitarray[cursor] << (n - i - 1)], an [IndexError] past
    the end of the list. *)
Fixpoint read_int (bitarray : list bool) (n : Z) (steps : list nat)
    (int_value : Z) (cursor : nat) : outcome (Z * nat) :=
  match steps with
  | [] => Ret (int_value, cursor)
  | i :: rest =>
      match bitarray !! cursor with
      | None => Raise (Exn (UserError "IndexError")
                         (MsgUser "list index out of range"))
      | Some b =>
          read_int bitarray n rest
            (Z.lor int_value (Z.shiftl (Z.b2z b) (n - Z.of_nat i - 1)))
            (S cursor)
      end
  end.

(** [PackedBits.__init__]: a field with a default takes the default, any
    other field its keyword argument. *)
Definition init (Δ : pb_table) (cls : string) (kwargs : dict value) : M loc :=
  c ← get_pb_class Δ cls;
  self ← alloc (Obj cls []);
  for_each (λ (_ : unit) field,
    match default (bitfield_of field) with
    | None =>
        match dict_get (name field) kwargs with
        | None =>
            raise TypeError (MsgUser ("Missing required field " +:+ name field))
        | Some v => setattr self (name field) v
        end
    | Some d => setattr self (name field) d
    end) () (pb_fields c);;
  mret self.

(** One turn of the loop of [to_bitarray], on the field [field] of the
    instance [self] whose [__dict__] is [attrs]; [rec] encodes a nested
    instance. *)
Definition encode_field (rec : loc → M (list bool)) (fuel : nat)
    (Δ : pb_table) (self : loc) (attrs : dict value)
    (bitstring : list bool) (field : PBField) : M (list bool) :=
  value ← getattr (class_attr Δ) self (name field);
  '(ft, value_bit_len) ← lift (type_len_fn field attrs);
  match ft with
  | LiteralType lv _ =>
      differs ← pb_ne fuel Δ lv value;
      if differs : bool
      then raise ValueError
             (MsgUser ("Field " +:+ name field +:+ " has unexpected value"))
      else mret ()
  | FType t =>
      inst ← (λ h, (h, isinstance Δ h value t));
      if negb inst
      then raise TypeError
             (MsgUser ("Discriminator expects another type for field "
                       +:+ name field))
      else mret ()
  end;;
  match value with
  | VRef l =>
      new_bits ← rec l;
      if negb (Z.of_nat (length new_bits) =? value_bit_len)%Z
      then raise ValueError
             (MsgUser ("Field " +:+ name field +:+ " has incorrect bit length"))
      else mret (bitstring ++ new_bits)
  | VStr _ | VBytes _ =>
      raise (UserError "NotImplementedError") (MsgUser "")
  | _ =>
      if negb (0 <? value_bit_len)%Z
      then raise ValueError
             (MsgUser (name field +:+ " has non-positive bit length"))
      else
        match py_int value with
        | None => raise TypeError (MsgNotAnInteger value)
        | Some v =>
            if (Z.shiftl 1 value_bit_len <=? v)%Z
            then raise ValueError (MsgUser (name field +:+ " is too large"))
            else mret (bitstring ++ int_to_bits v value_bit_len)
        end
  end.

Fixpoint to_bitarray (fuel : nat) (Δ : pb_table) (self : loc)
    : M (list bool) :=
  match fuel with
  | 0 => lift (Stuck OutOfFuel)
  | S fuel =>
      o ← get_object self;
      c ← get_pb_class Δ (obj_class o);
      for_each (encode_field (to_bitarray fuel Δ) fuel Δ self (obj_dict o))
        [] (pb_fields c)
  end.

(** One turn of the loop of [from_bitarray]: the field [field] is read at
    [cursor], the fields before it being in [value_map]; [rec] decodes a
    nested instance. *)
Definition decode_field (rec : string → list bool → M loc) (fuel : nat)
    (Δ : pb_table) (bitarray : list bool)
    (state : dict value * nat) (field : PBField) : M (dict value * nat) :=
  let '(value_map, cursor) := state in
  '(ft, value_bit_len) ← lift (type_len_fn field value_map);
  if negb (0 <? value_bit_len)%Z
  then raise ValueError
         (MsgUser (name field +:+ " has non-positive bit length"))
  else
    let field_type_cnstr :=
      match ft with LiteralType _ t => t | FType t => t end in
    '(value, cursor) ←
      match field_type_cnstr with
      | TClass inner =>
          l ← rec inner (take (Z.to_nat value_bit_len) (drop cursor bitarray));
          mret (VRef l, cursor + Z.to_nat value_bit_len)
      | TStr | TBytes =>
          raise (UserError "NotImplementedError") (MsgUser "")
      | t =>
          '(int_value, cursor) ← lift (
            read_int bitarray value_bit_len
              (seq 0 (Z.to_nat value_bit_len)) 0 cursor);
          mret (match t with
                | TBool => VBool (negb (int_value =? 0)%Z)
                | _ => VInt int_value
                end, cursor)
      end;
    match ft with
    | LiteralType lv _ =>
        differs ← pb_ne fuel Δ value lv;
        if differs : bool
        then raise ValueError
               (MsgUser ("Field " +:+ name field +:+ " has unexpected value"))
        else mret ()
    | FType _ => mret ()
    end;;
    mret (dict_set (name field) value value_map, cursor).

Fixpoint from_bitarray (fuel : nat) (Δ : pb_table) (cls : string)
    (bitarray : list bool) : M loc :=
  match fuel with
  | 0 => lift (Stuck OutOfFuel)
  | S fuel =>
      c ← get_pb_class Δ cls;
      '(value_map, cursor) ←
        for_each (decode_field (from_bitarray fuel Δ) fuel Δ bitarray)
          ([], 0) (pb_fields c);
      if negb (cursor =? length bitarray)
      then raise ValueError (MsgUser "Bits left over after parsing")
      else init Δ cls value_map
  end.

(** The byte of eight bits, [value |= bits[i + j] << (7 - j)]. *)
Definition pack_byte (bits : list bool) : byte :=
  byte_of_N (Z.to_N (foldl (λ value '(j, b),
    Z.lor value (Z.shiftl (Z.b2z b) (7 - Z.of_nat j))) 0%Z
    (zip (seq 0 8) bits))).

Fixpoint pack (k : nat) (bits : list bool) : list byte :=
  match k with
  | 0 => []
  | S k => pack_byte (take 8 bits) :: pack k (drop 8 bits)
  end.

(** [byte & (1 << (7 - i)) != 0] for [i] in [range(8)]. *)
Definition unpack_byte (x : byte) : list bool :=
  (λ i, negb (Z.land (Z_of_byte x) (Z.shiftl 1 (7 - Z.of_nat i)) =? 0)%Z)
    <$> seq 0 8.

Definition unpack (data : list byte) : list bool :=
  concat (unpack_byte <$> data).

Definition to_bytes (fuel : nat) (Δ : pb_table) (self : loc)
    : M (list byte) :=
  bits ← to_bitarray fuel Δ self;
  if negb (length bits mod 8 =? 0)
  then raise ValueError
         (MsgUser "Result is not byte aligned (multiple of 8 bits)")
  else mret (pack (length bits / 8) bits).

Definition from_bytes (fuel : nat) (Δ : pb_table) (cls : string)
    (data : list byte) : M loc :=
  from_bitarray fuel Δ cls (unpack data).

(** The field that the declaration [name: t = bitfield(n, default)]
    makes, and the one of [name: int = bitfield(n)]. *)
Definition fixed_field (nm : string) (t : py_type) (n : Z)
    (d : option value) : PBField := {|
  name := nm;
  bitfield_of := FixedLengthField n d;
  type_len_fn := build_type_len_fn (FixedLengthField n d) (FType t)
|}.

Definition int_field (nm : string) (n : nat) : PBField :=
  fixed_field nm TInt (Z.of_nat n) None.

(** A class of integer fields, by their names and widths, and the bits of
    an instance of it that holds the integers [vs]. *)
Definition int_class (widths : list (string * nat)) : pb_class :=
  {| pb_mro := []; pb_fields := (λ '(nm, n), int_field nm n) <$> widths |}.

Definition total_width (widths : list (string * nat)) : nat :=
  sum_list widths.*2.

(** The integers that the fields of an integer class read from a list of
    bits, first bit most significant. *)
Fixpoint int_values (widths : list (string * nat)) (bits : list bool)
    : dict value :=
  match widths with
  | [] => []
  | (nm, n) :: rest =>
      (nm, VInt (Bits.to_int (take n bits))) :: int_values rest (drop n bits)
  end.

(** The bits of the integers [vs] in the fields of an integer class, and
    the integers themselves reduced to the widths of the fields. *)
Definition int_record_bits (widths : list (string * nat)) (vs : list Z)
    : list bool :=
  concat (zip_with (λ w v, int_to_bits v (Z.of_nat w.2)) widths vs).

Definition int_record_wrapped (widths : list (string * nat)) (vs : list Z)
    : dict value :=
  zip_with (λ w v, (w.1, VInt (v mod 2 ^ Z.of_nat w.2))) widths vs.

(** A header of two numbers, the second with a default. *)
Definition Header : pb_class :=
  {| pb_mro := [];
     pb_fields := [int_field "kind" 4;
                   fixed_field "version" TInt 4 (Some (VInt 1))] |}.

(** Three numbers of 3, 5 and 8 bits. *)
Definition Triple : pb_class :=
  int_class [("a", 3); ("b", 5); ("c", 8)].

(** The field of a constructor call that [__init__] stores: the default
    of the field when it has one, else the keyword argument. *)
Definition stored (kwargs : dict value) (field : PBField) : option value :=
  match default (bitfield_of field) with
  | Some d => Some d
  | None => dict_get (name field) kwargs
  end.

Fixpoint first_unset (kwargs : dict value) (fields : list PBField)
    : option string :=
  match fields with
  | [] => None
  | field :: rest =>
      match stored kwargs field with
      | Some _ => first_unset kwargs rest
      | None => Some (name field)
      end
  end.

(** The [__dict__] that [__init__] builds, when every field without a
    default has a keyword argument. *)
Fixpoint init_attrs (kwargs : dict value) (fields : list PBField)
    (d : dict value) : option (dict value) :=
  match fields with
  | [] => Some d
  | field :: rest =>
      match stored kwargs field with
      | Some v => init_attrs kwargs rest (dict_set (name field) v d)
      | None => None
      end
  end.

End PackedBits.

(* ================================================================= *)
(** * Part II: properties *)
(* ================================================================= *)

Arguments bftype_to_bits : simpl never.
Arguments bftype_from_bitstream : simpl never.
Arguments py_eq : simpl never.

(** ** Computations on the store *)

Lemma bind_M {A B} (m : M A) (k : A → M B) h :
  (m ≫= k) h =
    match m h with
    | (h', Ret a) => k a h'
    | (h', Raise e) => (h', Raise e)
    | (h', Stuck w) => (h', Stuck w)
    end.
Proof. reflexivity. Qed.

Lemma bind_M_ret {A B} (m : M A) (k : A → M B) h h' a :
  m h = (h', Ret a) → (m ≫= k) h = k a h'.
Proof. intros E. rewrite bind_M, E. reflexivity. Qed.

Lemma bind_M_raise {A B} (m : M A) (k : A → M B) h h' e :
  m h = (h', Raise e) → (m ≫= k) h = (h', Raise e).
Proof. intros E. rewrite bind_M, E. reflexivity. Qed.

Lemma bind_M_stuck {A B} (m : M A) (k : A → M B) h h' w :
  m h = (h', Stuck w) → (m ≫= k) h = (h', Stuck w).
Proof. intros E. rewrite bind_M, E. reflexivity. Qed.

Lemma bind_lift {A B} (o : outcome A) (k : A → M B) h :
  (lift o ≫= k) h =
    match o with
    | Ret a => k a h
    | Raise e => (h, Raise e)
    | Stuck w => (h, Stuck w)
    end.
Proof. destruct o; reflexivity. Qed.

Lemma bind_mret {A B} (a : A) (k : A → M B) h : (mret a ≫= k) h = k a h.
Proof. reflexivity. Qed.

(** The unfolding equations of the two traversals. *)
Lemma bftype_to_bits_S Γ fuel bftype value parent context :
  bftype_to_bits Γ (S fuel) bftype value parent context =
    match bftype with
    | BFBits n _ =>
        len ← lift (py_len value);
        if negb (len =? n) then raise ValueError (MsgExpectedBits n len)
        else lift (Bits_new value)
    | BFList inner n _ =>
        len ← lift (py_len value);
        if negb (len =? n) then raise ValueError (MsgExpectedItems n len)
        else
          items ← lift (py_iter value);
          for_each (λ acc item,
              bits ← bftype_to_bits Γ fuel inner item parent context;
              mret (acc ++ bits))
            [] items
    | BFMap inner vm _ =>
        inner_value ← lift (back vm value);
        bftype_to_bits Γ fuel inner inner_value parent context
    | BFDynSelf fn _ =>
        p ← get_object parent;
        d ← lift (fn (obj_dict p));
        field ← lift (undisguise Γ d);
        bftype_to_bits Γ fuel field value parent context
    | BFDynSelfN fn _ =>
        d ← match value with
            | VRef l => o ← get_object l; mret (DClass (obj_class o))
            | VStr _ | VBytes _ | VNone => mret (DValue value)
            | _ => raise TypeError (MsgDynValue value)
            end;
        field ← lift (undisguise Γ d);
        bftype_to_bits Γ fuel field value parent context
    | BFLit inner default =>
        differs ← py_ne fuel Γ value default;
        if differs : bool then raise ValueError (MsgExpected default value)
        else bftype_to_bits Γ fuel inner value parent context
    | BFNone _ =>
        match value with
        | VNone => mret []
        | _ => raise ValueError (MsgExpectedNone value)
        end
    | BFBitfield inner n _ =>
        match value with
        | VRef l =>
            out ← to_bits Γ fuel l context;
            if negb (length out =? n)
            then raise ValueError (MsgExpectedBits n (length out))
            else mret out
        | _ => raise TypeError (MsgExpectedBitfield value)
        end
    end.
Proof. reflexivity. Qed.

Lemma bftype_from_bitstream_S Γ fuel bftype stream proxy context :
  bftype_from_bitstream Γ (S fuel) bftype stream proxy context =
    match bftype with
    | BFBits n _ =>
        '(bits, stream) ← lift (BitStream.take n stream);
        mret (VBits bits, stream)
    | BFList inner n _ =>
        '(acc, stream) ← for_each (λ '(acc, stream) (_ : nat),
            '(item, stream) ←
              bftype_from_bitstream Γ fuel inner stream proxy context;
            mret (acc ++ [item], stream))
          ([], stream) (seq 0 n);
        mret (VList acc, stream)
    | BFMap inner vm _ =>
        '(value, stream) ←
          bftype_from_bitstream Γ fuel inner stream proxy context;
        out ← lift (forward vm value);
        mret (out, stream)
    | BFDynSelf fn _ =>
        d ← lift (fn proxy);
        field ← lift (undisguise Γ d);
        bftype_from_bitstream Γ fuel field stream proxy context
    | BFDynSelfN fn _ =>
        d ← lift (fn proxy (BitStream.remaining stream));
        field ← lift (undisguise Γ d);
        bftype_from_bitstream Γ fuel field stream proxy context
    | BFLit inner default =>
        '(value, stream) ←
          bftype_from_bitstream Γ fuel inner stream proxy context;
        differs ← py_ne fuel Γ value default;
        if differs : bool then raise ValueError (MsgExpected default value)
        else mret (value, stream)
    | BFNone _ => mret (VNone, stream)
    | BFBitfield inner n _ =>
        '(bits, stream) ← lift (BitStream.take n stream);
        out ← from_bits Γ fuel inner bits context;
        mret (out, stream)
    end.
Proof. reflexivity. Qed.

Arguments mbind {_ _ _ _} _ _ /.
Arguments M_bind _ _ _ _ _ /.
Arguments mret {_ _ _} _ /.
Arguments M_ret _ _ _ /.
Arguments int_bits : simpl never.
Arguments Bits.from_int : simpl never.
Arguments out_of_range : simpl never.
Arguments bf_int : simpl never.
Arguments bf_bool : simpl never.
Arguments bf_lit_int : simpl never.

(** ** Length inference *)

Lemma bftype_length_structural f :
  bftype_length f = if contains_dyn f then None else Some (structural_length f).
Proof.
  induction f as [n d|inner IH n d|inner IH vm d|fn d|fn d|inner IH d|d|c n d];
    simpl; try reflexivity.
  - rewrite IH. destruct (contains_dyn inner); reflexivity.
  - exact IH.
  - exact IH.
Qed.

Lemma length_loop_structural fs acc :
  length_loop acc fs =
    if existsb contains_dyn fs then None
    else Some (acc + sum_list (structural_length <$> fs)).
Proof.
  revert acc. induction fs as [|f fs IH]; intros acc; simpl.
  - cbn. f_equal. lia.
  - rewrite bftype_length_structural.
    destruct (contains_dyn f); simpl; [reflexivity|].
    rewrite IH. destruct (existsb contains_dyn fs); [reflexivity|].
    cbn. unfold fmap. apply (f_equal Some). lia.
Qed.

(** C4: the length of a schema is null exactly when the descriptor tree of
    some field contains a [DynSelf] or [DynSelfN] node, and otherwise it is
    the sum over the fields of their structural lengths. *)
Theorem Bitfield_length_static_or_null (fields : dict bftype) :
  (Bitfield_length fields = None ↔
     Exists (λ field, contains_dyn field.2 = true) fields) ∧
  Bitfield_length fields =
    if existsb contains_dyn fields.*2 then None
    else Some (sum_list (structural_length <$> fields.*2)).
Proof.
  assert (E : Bitfield_length fields =
    if existsb contains_dyn fields.*2 then None
    else Some (sum_list (structural_length <$> fields.*2))).
  { unfold Bitfield_length. rewrite length_loop_structural. reflexivity. }
  split; [|exact E].
  rewrite E. clear E.
  destruct (existsb contains_dyn fields.*2) eqn:Ex.
  - split; [intros _|reflexivity].
    apply existsb_exists in Ex as (f & Hin & Hf).
    apply list_elem_of_In, list_elem_of_fmap in Hin as (field & -> & Hin).
    apply Exists_exists. exists field.
    split; [apply list_elem_of_In|]; assumption.
  - split; [discriminate|].
    intros H. apply Exists_exists in H as (field & Hin & Hf).
    assert (existsb contains_dyn fields.*2 = true) as Ht; [|congruence].
    apply existsb_exists. exists field.2. split; [|exact Hf].
    apply list_elem_of_In, list_elem_of_fmap. exists field.
    split; [reflexivity|apply list_elem_of_In; exact Hin].
Qed.

(** ** Schema finalization *)

(** C6, at the input where the code departs from the claim: a list of
    literal integers, [bf_list(bf_lit_int(4, default=0), 3)], has an inner
    [Lit] and no other inner default; finalization rejects it. *)
Example inner_lit_is_rejected :
  bftype_has_children_with_default
    (BFList (bf_lit_int 4 (VInt 0)) 3 None) = true ∧
  init_subclass classes "Padded"
    [("pads", HintOther,
      Some (DField (BFList (bf_lit_int 4 (VInt 0)) 3 None)))] []
  = Raise (Exn ValueError (MsgInField "pads" "Padded" MsgInnerDefaults)).
Proof. split; reflexivity. Qed.

(** ** Integers on the wire *)

Lemma from_int_length z n bs : Bits.from_int z n = Ret bs → length bs = n.
Proof.
  unfold Bits.from_int. destruct (_ || _); [discriminate|].
  intros [= <-]. rewrite length_fmap, length_seq. reflexivity.
Qed.

Lemma from_int_spec z n :
  Bits.from_int z n =
    if out_of_range z n
    then Raise (Exn ValueOutOfRangeError (MsgOutOfRange z n))
    else Ret (int_bits z n).
Proof. reflexivity. Qed.

(** Encoding through [bf_int(n)]: the mapper turns the integer into [n]
    bits, which the inner [BFBits(n)] accepts. *)
Lemma bftype_to_bits_bf_int Γ k n d v parent ctx h :
  bftype_to_bits Γ (S (S k)) (bf_int n d) v parent ctx h =
    (h, match py_int v with
        | Some z => Bits.from_int z n
        | None => Raise (Exn TypeError (MsgNotAnInteger v))
        end).
Proof.
  unfold bf_int, bf_map, bf_bits. rewrite bftype_to_bits_S, bind_lift. simpl.
  destruct (py_int v) as [z|]; [|reflexivity].
  destruct (Bits.from_int z n) as [bs| |] eqn:E; simpl; try reflexivity.
  rewrite bftype_to_bits_S, bind_lift. simpl.
  rewrite (from_int_length _ _ _ E), Nat.eqb_refl. reflexivity.
Qed.

(** ** Dynamic fields *)

(** C7: encoding a [DynSelfN] field dispatches on the value.  A record
    instance is encoded with its class as the descriptor, a nested record
    of the length of the class: the bits are those of its own [to_bits],
    checked against that length, and a class without a static length is a
    [TypeError].  A [bytes], a [str] and [None] are encoded with the
    descriptor made of the value itself: the literal of that value over
    [bf_bytes] of its length, over [bf_str] of the length of its utf-8
    encoding, and [bf_none()].  Every other value is a [TypeError].  The
    function of the field is never called: the result is the same whatever
    it is. *)
Theorem DynSelfN_encodes_by_value Γ fuel fn default parent context h :
  (∀ l o cd,
     h !! l = Some o → dict_get (obj_class o) Γ = Some cd →
     bftype_to_bits Γ (2 + fuel) (BFDynSelfN fn default) (VRef l) parent
       context h =
       match Bitfield_length (cls_fields cd) with
       | Some n =>
           (out ← to_bits Γ fuel l context;
            if negb (length out =? n)
            then raise ValueError (MsgExpectedBits n (length out))
            else mret out) h
       | None => (h, Raise (Exn TypeError MsgCannotInferLength))
       end) ∧
  (∀ b, ∃ inner,
     bf_bytes (length b) None = Ret inner ∧
     bftype_to_bits Γ (S fuel) (BFDynSelfN fn default) (VBytes b) parent
       context h =
       bftype_to_bits Γ fuel (bf_lit inner (VBytes b)) (VBytes b) parent
         context h) ∧
  (∀ s,
     match utf8_encode s with
     | Some enc => ∃ inner,
         bf_str (length enc) None = Ret inner ∧
         bftype_to_bits Γ (S fuel) (BFDynSelfN fn default) (VStr s) parent
           context h =
           bftype_to_bits Γ fuel (bf_lit inner (VStr s)) (VStr s) parent
             context h
     | None =>
         bftype_to_bits Γ (S fuel) (BFDynSelfN fn default) (VStr s) parent
           context h = (h, Raise (Exn UnicodeError MsgCodec))
     end) ∧
  bftype_to_bits Γ (S fuel) (BFDynSelfN fn default) VNone parent context h =
    bftype_to_bits Γ fuel (bf_none None) VNone parent context h ∧
  (∀ value,
     match value with
     | VBool _ | VInt _ | VBits _ | VList _ =>
         bftype_to_bits Γ (S fuel) (BFDynSelfN fn default) value parent
           context h = (h, Raise (Exn TypeError (MsgDynValue value)))
     | _ => True
     end) ∧
  (∀ value fn',
     bftype_to_bits Γ (S fuel) (BFDynSelfN fn default) value parent context h
     = bftype_to_bits Γ (S fuel) (BFDynSelfN fn' default) value parent
         context h).
Proof.
  split; [|split; [|split; [|split; [|split]]]].
  - intros l o cd Hl Hcd. change (2 + fuel) with (S (S fuel)).
    rewrite bftype_to_bits_S. cbn [mbind M_bind mret M_ret].
    unfold get_object. rewrite Hl. unfold lift. cbn [undisguise].
    rewrite Hcd.
    destruct (Bitfield_length (cls_fields cd)) as [n|]; [|reflexivity].
    unfold bf_bitfield. rewrite bftype_to_bits_S. reflexivity.
  - intros b. eexists. split; [reflexivity|].
    rewrite bftype_to_bits_S, bind_mret, bind_lift. reflexivity.
  - intros s. destruct (utf8_encode s) as [enc|] eqn:Henc.
    + eexists. split; [reflexivity|].
      rewrite bftype_to_bits_S, bind_mret, bind_lift.
      cbn [undisguise]. unfold str_encode. rewrite Henc. reflexivity.
    + rewrite bftype_to_bits_S, bind_mret, bind_lift.
      cbn [undisguise]. unfold str_encode. rewrite Henc. reflexivity.
  - rewrite bftype_to_bits_S, bind_mret, bind_lift. reflexivity.
  - intros value. destruct value; try exact I;
      rewrite bftype_to_bits_S; reflexivity.
  - reflexivity.
Qed.

(** A successful reply whose body is the packed record [{a: 5, b: 9}]:
    the body encodes to the bits of that record. *)
Lemma DynSelfN_encodes_by_value_witness :
  bftype_to_bits classes 5 (BFDynSelfN reply_disc None) (VRef 0) 1 VNone
    [Obj "Packed" [("a", VInt 5); ("b", VInt 9)];
     Obj "Reply" [("reply_status", VInt 0); ("body", VRef 0)]]
  = ([mark VNone (Obj "Packed" [("a", VInt 5); ("b", VInt 9)]);
      Obj "Reply" [("reply_status", VInt 0); ("body", VRef 0)]],
     Ret [true; false; true; false; true; false; false; true]).
Proof.
  etrans.
  - exact (proj1 (DynSelfN_encodes_by_value classes 3 reply_disc None 1 VNone
                    [Obj "Packed" [("a", VInt 5); ("b", VInt 9)];
                     Obj "Reply" [("reply_status", VInt 0); ("body", VRef 0)]])
             0 _ Packed eq_refl eq_refl).
  - reflexivity.
Defined.

(** ** The packed integer record *)

Lemma to_bits_packed k ctx a b :
  to_bits classes (2 + k) 0 ctx (packed_heap a b) =
    ([Obj "Packed" [("a", VInt a); ("b", VInt b); ("bitfield_context", ctx)]],
     if out_of_range a 3
     then Raise (Exn ValueOutOfRangeError
                   (MsgInField "a" "Packed" (MsgOutOfRange a 3)))
     else if out_of_range b 5
     then Raise (Exn ValueOutOfRangeError
                   (MsgInField "b" "Packed" (MsgOutOfRange b 5)))
     else Ret (int_bits a 3 ++ int_bits b 5)).
Proof.
  unfold to_bits, to_bits_with, packed_heap. cbn.
  unfold in_field. rewrite bftype_to_bits_bf_int. cbn. rewrite from_int_spec.
  destruct (out_of_range a 3); [reflexivity|]. cbn.
  rewrite bftype_to_bits_bf_int. cbn. rewrite from_int_spec.
  destruct (out_of_range b 5); reflexivity.
Qed.

(** C8: for the schema [{a: int(3), b: int(5)}] the instance [{a: 5, b: 9}]
    encodes to the bits 10101001, the byte 0xA9, and an instance with a
    field out of range for its width fails to encode with the
    value-out-of-range error of that field. *)
Theorem packed_integer_record k ctx a b :
  Bitfield_init classes "Packed" [("a", VInt a); ("b", VInt b)] []
    = (packed_heap a b, Ret 0) ∧
  (to_bits classes (2 + k) 0 ctx (packed_heap 5 9)).2
    = Ret [true; false; true; false; true; false; false; true] ∧
  (to_bytes classes (2 + k) 0 ctx (packed_heap 5 9)).2 = Ret [xa9] ∧
  (to_bits classes (2 + k) 0 ctx (packed_heap a b)).2 =
    (if out_of_range a 3
     then Raise (Exn ValueOutOfRangeError
                   (MsgInField "a" "Packed" (MsgOutOfRange a 3)))
     else if out_of_range b 5
     then Raise (Exn ValueOutOfRangeError
                   (MsgInField "b" "Packed" (MsgOutOfRange b 5)))
     else Ret (int_bits a 3 ++ int_bits b 5)) ∧
  (to_bytes classes (2 + k) 0 ctx (packed_heap a b)).2 =
    (if out_of_range a 3
     then Raise (Exn ValueOutOfRangeError
                   (MsgInField "a" "Packed" (MsgOutOfRange a 3)))
     else if out_of_range b 5
     then Raise (Exn ValueOutOfRangeError
                   (MsgInField "b" "Packed" (MsgOutOfRange b 5)))
     else Bits.to_bytes (int_bits a 3 ++ int_bits b 5)).
Proof.
  split; [reflexivity|].
  unfold to_bytes. cbn [mbind]. unfold M_bind. rewrite !to_bits_packed.
  split; [reflexivity|]. split; [reflexivity|]. split; [reflexivity|].
  destruct (out_of_range a 3); [reflexivity|].
  destruct (out_of_range b 5); reflexivity.
Qed.

(** ** Reordering the bits of a buffer *)

Lemma lookup_bit_at (b : Bits.t) i :
  i < length b → b !! i = Some (Bits.bit_at b i).
Proof.
  intros H. unfold Bits.bit_at.
  destruct (lookup_lt_is_Some_2 b i H) as [x ->]. reflexivity.
Qed.

Lemma reorder_lookup P (b : Bits.t) i :
  Bits.reorder P b !! i =
    (λ x, match P !! i with
          | Some p => Bits.bit_at b p
          | None => x
          end) <$> b !! i.
Proof. unfold Bits.reorder. apply list_lookup_imap. Qed.

Lemma unreorder_lookup P (b : Bits.t) j :
  Bits.unreorder P b !! j =
    (λ x, if decide (j < length P)
          then match list_find (λ p, p = j) P with
               | Some (i, _) => Bits.bit_at b i
               | None => x
               end
          else x) <$> b !! j.
Proof. unfold Bits.unreorder. apply list_lookup_imap. Qed.

Lemma reorder_length P (b : Bits.t) :
  length P ≤ length b → length (Bits.reorder P b) = length b.
Proof. intros _. apply length_imap. Qed.

Lemma unreorder_length P (b : Bits.t) :
  length (Bits.unreorder P b) = length b.
Proof. apply length_imap. Qed.

Lemma valid_order_NoDup P n : Bits.valid_order P n → NoDup P.
Proof. intros [HP _]. rewrite HP. apply NoDup_seq. Qed.

Lemma valid_order_lt P n i p :
  Bits.valid_order P n → P !! i = Some p → p < length P.
Proof.
  intros [HP _] Hi. apply list_elem_of_lookup_2 in Hi. rewrite HP in Hi.
  apply elem_of_seq in Hi. lia.
Qed.

Lemma valid_order_find P n j :
  Bits.valid_order P n → j < length P →
  ∃ i, list_find (λ p, p = j) P = Some (i, j) ∧ P !! i = Some j.
Proof.
  intros [HP _] Hj.
  assert (j ∈ P) as Hin by (rewrite HP; apply elem_of_seq; lia).
  destruct (list_find_elem_of (λ p, p = j) P j Hin eq_refl) as [[i p] Hf].
  pose proof Hf as Hf'. apply list_find_Some in Hf' as (Hi & -> & _).
  exists i. split; assumption.
Qed.

Lemma find_position P n i p :
  Bits.valid_order P n → P !! i = Some p →
  list_find (λ q, q = p) P = Some (i, p).
Proof.
  intros HP Hi. apply list_find_Some. split; [exact Hi|].
  split; [reflexivity|].
  intros j y Hj Hlt ->.
  pose proof (NoDup_lookup _ _ _ _ (valid_order_NoDup _ _ HP) Hi Hj). lia.
Qed.

Lemma reorder_unreorder P (B : Bits.t) :
  Bits.valid_order P (length B) → Bits.reorder P (Bits.unreorder P B) = B.
Proof.
  intros HP. pose proof HP as [_ Hlen].
  apply list_eq. intros i. rewrite reorder_lookup, unreorder_lookup.
  destruct (B !! i) as [x|] eqn:Hx; [|reflexivity]. simpl. f_equal.
  destruct (P !! i) as [p|] eqn:Hp.
  - pose proof (valid_order_lt _ _ _ _ HP Hp) as Hplt.
    unfold Bits.bit_at at 1. rewrite unreorder_lookup.
    rewrite (lookup_bit_at B p) by lia. simpl.
    rewrite decide_True by exact Hplt.
    rewrite (find_position _ _ _ _ HP Hp).
    unfold Bits.bit_at. rewrite Hx. reflexivity.
  - apply lookup_ge_None in Hp. rewrite decide_False by lia. reflexivity.
Qed.

Lemma unreorder_reorder P (B : Bits.t) :
  Bits.valid_order P (length B) → Bits.unreorder P (Bits.reorder P B) = B.
Proof.
  intros HP. pose proof HP as [_ Hlen].
  apply list_eq. intros j. rewrite unreorder_lookup, reorder_lookup.
  destruct (B !! j) as [x|] eqn:Hx; [|reflexivity]. simpl. f_equal.
  destruct (decide (j < length P)) as [Hj|Hj].
  - destruct (valid_order_find _ _ _ HP Hj) as (i & Hf & Hi).
    rewrite Hf.
    pose proof (lookup_lt_Some _ _ _ Hi) as Hilt.
    unfold Bits.bit_at at 1. rewrite reorder_lookup.
    rewrite (lookup_bit_at B i) by lia. simpl. rewrite Hi.
    unfold Bits.bit_at. rewrite Hx. reflexivity.
  - rewrite (lookup_ge_None_2 P j) by lia. reflexivity.
Qed.

(** C9: for a sequence [P] that is a permutation of [0..len(P)-1] and no
    longer than the buffer [B], [reorder] and [unreorder] are inverse of
    each other and keep the length of [B]. *)
Theorem reorder_unreorder_inverse (P : list nat) (B : Bits.t) :
  Bits.valid_order P (length B) →
  Bits.reorder P (Bits.unreorder P B) = B ∧
  Bits.unreorder P (Bits.reorder P B) = B ∧
  length (Bits.reorder P B) = length B ∧
  length (Bits.unreorder P B) = length B.
Proof.
  intros HP.
  split; [apply reorder_unreorder; exact HP|].
  split; [apply unreorder_reorder; exact HP|].
  split; [apply reorder_length, HP|apply unreorder_length].
Qed.

Lemma reorder_unreorder_inverse_witness :
  Bits.valid_order [2; 0; 1] 4 ∧
  Bits.reorder [2; 0; 1] (Bits.unreorder [2; 0; 1] [true; false; false; true])
    = [true; false; false; true] ∧
  Bits.unreorder [2; 0; 1] (Bits.reorder [2; 0; 1] [true; false; false; true])
    = [true; false; false; true] ∧
  length (Bits.reorder [2; 0; 1] [true; false; false; true]) = 4 ∧
  length (Bits.unreorder [2; 0; 1] [true; false; false; true]) = 4.
Proof.
  assert (Bits.valid_order [2; 0; 1] 4) as H.
  { split; [|simpl; lia]. simpl.
    change [2; 0; 1] with ([2] ++ [0; 1]). rewrite Permutation_app_comm.
    reflexivity. }
  split; [exact H|].
  exact (reorder_unreorder_inverse [2; 0; 1] [true; false; false; true] H).
Defined.

(** ** Dictionaries *)
Lemma dict_get_set_eq {V} k (v : V) d : dict_get k (dict_set k v d) = Some v.
Proof.
  induction d as [|[k' v'] d IH]; simpl.
  - rewrite String.eqb_refl. reflexivity.
  - destruct (String.eqb k k') eqn:E; simpl; rewrite ?String.eqb_refl, ?E; auto.
Qed.

Lemma dict_get_set_ne {V} k k' (v : V) d :
  k ≠ k' → dict_get k' (dict_set k v d) = dict_get k' d.
Proof.
  intros Hne. induction d as [|[k0 v0] d IH]; simpl.
  - destruct (String.eqb_spec k' k); [congruence|reflexivity].
  - destruct (String.eqb_spec k k0) as [->|Hk]; simpl.
    + destruct (String.eqb_spec k' k0); [congruence|reflexivity].
    + destruct (String.eqb_spec k' k0); [reflexivity|exact IH].
Qed.

Lemma dict_set_idemp {V} k (v : V) d :
  dict_set k v (dict_set k v d) = dict_set k v d.
Proof.
  induction d as [|[k' v'] d IH]; simpl.
  - rewrite String.eqb_refl. reflexivity.
  - destruct (String.eqb k k') eqn:E; simpl; rewrite ?String.eqb_refl, ?E; congruence.
Qed.

Lemma mark_idemp ctx o : mark ctx (mark ctx o) = mark ctx o.
Proof. unfold mark. simpl. rewrite dict_set_idemp. reflexivity. Qed.

Lemma marks_refl ctx h : marks ctx h h.
Proof. split; [reflexivity|]. intros l o H. left. exact H. Qed.

Lemma marks_trans ctx h1 h2 h3 : marks ctx h1 h2 → marks ctx h2 h3 → marks ctx h1 h3.
Proof.
  intros [L12 H12] [L23 H23]. split; [congruence|].
  intros l o Hl. destruct (H12 l o Hl) as [H|H];
    destruct (H23 _ _ H) as [H'|H']; rewrite ?mark_idemp in H'; auto.
Qed.

Lemma marks_insert ctx h l o :
  h !! l = Some o → marks ctx h (<[l := mark ctx o]> h).
Proof.
  intros Hl. split; [apply length_insert|].
  intros l' o' Hl'. destruct (decide (l = l')) as [<-|Hne].
  - right. rewrite list_lookup_insert_eq by (eapply lookup_lt_Some; eauto). congruence.
  - left. rewrite list_lookup_insert_ne by exact Hne. exact Hl'.
Qed.

(** ** Inversion of computations on the store *)
Lemma bind_M_cases {A B} (m : M A) (k : A → M B) h h' r :
  (m ≫= k) h = (h', r) →
  (∃ a h1, m h = (h1, Ret a) ∧ k a h1 = (h', r)) ∨
  (∃ e, m h = (h', Raise e) ∧ r = Raise e) ∨
  (∃ w, m h = (h', Stuck w) ∧ r = Stuck w).
Proof.
  rewrite bind_M. destruct (m h) as [h1 [a|e|w]]; intros E.
  - left. eauto.
  - right. left. inversion E; subst. eauto.
  - right. right. inversion E; subst. eauto.
Qed.

Lemma bind_M_inv {A B} (m : M A) (k : A → M B) h h' b :
  (m ≫= k) h = (h', Ret b) → ∃ a h1, m h = (h1, Ret a) ∧ k a h1 = (h', Ret b).
Proof.
  intros E. apply bind_M_cases in E as [E|[(e & _ & ?)|(w & _ & ?)]];
    [exact E|discriminate..].
Qed.

(** A relation between stores that every step of a computation keeps. *)
Lemma bind_M_heap {A B} (J : heap → heap → Prop) (m : M A) (k : A → M B) h h' r :
  (∀ h1 h2 h3, J h1 h2 → J h2 h3 → J h1 h3) →
  (∀ h1 r1, m h = (h1, r1) → J h h1) →
  (∀ a h1 h2 r2, k a h1 = (h2, r2) → J h1 h2) →
  (m ≫= k) h = (h', r) → J h h'.
Proof.
  intros Ht Hm Hk E. apply bind_M_cases in E as [(a & h1 & E1 & E2)|[(e & E1 & _)|(w & E1 & _)]].
  - eapply Ht; [eapply Hm|eapply Hk]; eauto.
  - eapply Hm; eauto.
  - eapply Hm; eauto.
Qed.

Lemma for_each_heap {A B} (J : heap → heap → Prop) (f : B → A → M B) l :
  (∀ h, J h h) →
  (∀ h1 h2 h3, J h1 h2 → J h2 h3 → J h1 h3) →
  (∀ acc x h h' r, x ∈ l → f acc x h = (h', r) → J h h') →
  ∀ acc h h' r, for_each f acc l h = (h', r) → J h h'.
Proof.
  intros Hr Ht. induction l as [|x l IH]; intros Hf acc h h' r E; simpl in E.
  - inversion E; subst. apply Hr.
  - eapply bind_M_heap in E; [exact E|exact Ht|..].
    + intros h1 r1 E1. eapply Hf; [left|exact E1].
    + intros a h1 h2 r2 E2. eapply IH; [|exact E2].
      intros acc' x' h0 h0' r0 Hin. apply Hf. right. exact Hin.
Qed.

(** ** Encoding changes the store by setting contexts only *)

Section Marks.
Context (Γ : class_table) (ctx : value).

Lemma lift_heap {A} (o : outcome A) h h' r : lift o h = (h', r) → h' = h.
Proof. intros [= <- _]. reflexivity. Qed.

Lemma get_object_heap l h h' r : get_object l h = (h', r) → h' = h.
Proof. unfold get_object. destruct (h !! l); intros [= <- _]; reflexivity. Qed.

Lemma get_class_heap c h h' r : get_class Γ c h = (h', r) → h' = h.
Proof. unfold get_class. destruct (dict_get c Γ); intros [= <- _]; reflexivity. Qed.

Lemma getattr_heap ca l name h h' r :
  getattr ca l name h = (h', r) → h' = h.
Proof.
  unfold getattr, get_object. cbn. destruct (h !! l) as [o|]; [|intros [= <- _]; reflexivity].
  destruct (dict_get name (obj_dict o)); intros [= <- _]; reflexivity.
Qed.

Lemma py_ne_heap fuel v w h h' r : py_ne fuel Γ v w h = (h', r) → h' = h.
Proof. intros [= <- _]. reflexivity. Qed.

Lemma raise_heap {A} c m h h' (r : outcome A) : raise c m h = (h', r) → h' = h.
Proof. intros [= <- _]. reflexivity. Qed.

Lemma in_field_heap {A} (J : heap → heap → Prop) name cls (m : M A) h h' r :
  (∀ h1 r1, m h = (h1, r1) → J h h1) → in_field name cls m h = (h', r) → J h h'.
Proof.
  intros Hm. unfold in_field. destruct (m h) as [h1 r1] eqn:E.
  destruct r1; intros [= <- _]; eapply Hm; reflexivity.
Qed.

Lemma to_bits_with_marks rec l :
  (∀ F v p h h' r, rec F v p ctx h = (h', r) → marks ctx h h') →
  ∀ h h' r, to_bits_with Γ rec l ctx h = (h', r) →
    marks ctx h h' ∧ ∀ o, h !! l = Some o → h' !! l = Some (mark ctx o).
Proof.
  intros Hrec h h' r E. unfold to_bits_with in E.
  apply bind_M_cases in E as [(u & h1 & E1 & E2)|[(e & E1 & _)|(w & E1 & _)]].
  2,3: unfold setattr in E1; destruct (h !! l); discriminate || (inversion E1; subst; split; [apply marks_refl|intros ? [=]]).
  unfold setattr in E1. destruct (h !! l) as [o|] eqn:Hl; [|discriminate].
  inversion E1; subst h1 u. clear E1.
  assert (marks ctx (<[l:=mark ctx o]> h) h') as Hm.
  { eapply bind_M_heap in E2; [exact E2|apply marks_trans|..].
    - intros h1 r1 E1. apply get_object_heap in E1 as ->. apply marks_refl.
    - intros o1 h1 h2 r2 E3.
      eapply bind_M_heap in E3; [exact E3|apply marks_trans|..].
      + intros h3 r3 E4. apply get_class_heap in E4 as ->. apply marks_refl.
      + intros cd h3 h4 r4 E4.
        eapply bind_M_heap in E4; [exact E4|apply marks_trans|..].
        * intros h5 r5 E5.
          eapply (for_each_heap (marks ctx)) in E5; [exact E5|apply marks_refl|apply marks_trans|].
          intros acc [name field] h6 h7 r7 _ E6.
          eapply bind_M_heap in E6; [exact E6|apply marks_trans|..].
          -- intros h8 r8 E8. apply getattr_heap in E8 as ->. apply marks_refl.
          -- intros v h8 h9 r9 E9.
             eapply bind_M_heap in E9; [exact E9|apply marks_trans|..].
             ++ intros h10 r10 E10. eapply in_field_heap in E10; [exact E10|].
                intros h11 r11 E11. eapply Hrec. exact E11.
             ++ intros a h10 h11 r11 [= <- _]. apply marks_refl.
        * intros a h5 h6 r6 [= <- _]. apply marks_refl. }
  split.
  - eapply marks_trans; [apply marks_insert; exact Hl|exact Hm].
  - intros o' [= <-]. destruct Hm as [_ Hm].
    assert (<[l:=mark ctx o]> h !! l = Some (mark ctx o)) as Hl'.
    { apply list_lookup_insert_eq. eapply lookup_lt_Some; eauto. }
    destruct (Hm _ _ Hl') as [H|H]; rewrite ?mark_idemp in H; exact H.
Qed.

Lemma bftype_to_bits_marks fuel : ∀ F v p h h' r,
  bftype_to_bits Γ fuel F v p ctx h = (h', r) → marks ctx h h'.
Proof.
  induction fuel as [|fuel IH]; intros F v p h h' r E.
  - inversion E; subst. apply marks_refl.
  - rewrite bftype_to_bits_S in E. destruct F.
    + eapply bind_M_heap in E; [exact E|apply marks_trans|..].
      * intros h1 r1 E1. apply lift_heap in E1 as ->. apply marks_refl.
      * intros a h1 h2 r2 E2. destruct (negb _).
        -- apply raise_heap in E2 as ->. apply marks_refl.
        -- apply lift_heap in E2 as ->. apply marks_refl.
    + eapply bind_M_heap in E; [exact E|apply marks_trans|..].
      * intros h1 r1 E1. apply lift_heap in E1 as ->. apply marks_refl.
      * intros a h1 h2 r2 E2. destruct (negb _).
        -- apply raise_heap in E2 as ->. apply marks_refl.
        -- eapply bind_M_heap in E2; [exact E2|apply marks_trans|..].
           ++ intros h3 r3 E3. apply lift_heap in E3 as ->. apply marks_refl.
           ++ intros items h3 h4 r4 E4.
              eapply (for_each_heap (marks ctx)) in E4; [exact E4|apply marks_refl|apply marks_trans|].
              intros acc x h5 h6 r6 _ E6.
              eapply bind_M_heap in E6; [exact E6|apply marks_trans|..].
              ** intros h7 r7 E7. eapply IH. exact E7.
              ** intros a' h7 h8 r8 [= <- _]. apply marks_refl.
    + eapply bind_M_heap in E; [exact E|apply marks_trans|..].
      * intros h1 r1 E1. apply lift_heap in E1 as ->. apply marks_refl.
      * intros a h1 h2 r2 E2. eapply IH. exact E2.
    + eapply bind_M_heap in E; [exact E|apply marks_trans|..].
      * intros h1 r1 E1. apply get_object_heap in E1 as ->. apply marks_refl.
      * intros a h1 h2 r2 E2.
        eapply bind_M_heap in E2; [exact E2|apply marks_trans|..].
        -- intros h3 r3 E3. apply lift_heap in E3 as ->. apply marks_refl.
        -- intros d h3 h4 r4 E4.
           eapply bind_M_heap in E4; [exact E4|apply marks_trans|..].
           ++ intros h5 r5 E5. apply lift_heap in E5 as ->. apply marks_refl.
           ++ intros f h5 h6 r6 E6. eapply IH. exact E6.
    + eapply bind_M_heap in E; [exact E|apply marks_trans|..].
      * intros h1 r1 E1. destruct v; try (apply raise_heap in E1 as ->; apply marks_refl);
          try (inversion E1; subst; apply marks_refl).
        eapply bind_M_heap in E1; [exact E1|apply marks_trans|..].
        -- intros h3 r3 E3. apply get_object_heap in E3 as ->. apply marks_refl.
        -- intros o h3 h4 r4 [= <- _]. apply marks_refl.
      * intros d h3 h4 r4 E4.
        eapply bind_M_heap in E4; [exact E4|apply marks_trans|..].
        -- intros h5 r5 E5. apply lift_heap in E5 as ->. apply marks_refl.
        -- intros f h5 h6 r6 E6. eapply IH. exact E6.
    + eapply bind_M_heap in E; [exact E|apply marks_trans|..].
      * intros h1 r1 E1. apply py_ne_heap in E1 as ->. apply marks_refl.
      * intros b h1 h2 r2 E2. destruct b.
        -- apply raise_heap in E2 as ->. apply marks_refl.
        -- eapply IH. exact E2.
    + destruct v; inversion E; subst; apply marks_refl.
    + destruct v; try (apply raise_heap in E as ->; apply marks_refl).
      eapply bind_M_heap in E; [exact E|apply marks_trans|..].
      * intros h1 r1 E1. eapply to_bits_with_marks in E1; [apply E1|]. exact IH.
      * intros out h1 h2 r2 E2. destruct (negb _).
        -- apply raise_heap in E2 as ->. apply marks_refl.
        -- inversion E2; subst. apply marks_refl.
Qed.

End Marks.

(** ** The context attribute *)

Lemma init_subclass_no_context Γ cls hints : ∀ fields fs,
  init_subclass Γ cls hints fields = Ret fs →
  dict_get "bitfield_context" fields = None →
  dict_get "bitfield_context" fs = None.
Proof.
  induction hints as [|[[name hint] value] hints IH]; intros fields fs E Hf;
    simpl in E.
  - inversion E; subst. exact Hf.
  - assert (String.eqb name "bitfield_context" = false →
            ∀ bf, init_subclass Γ cls hints (dict_set name bf fields) = Ret fs →
            dict_get "bitfield_context" fs = None) as Hstep.
    { intros Hn bf E'. apply (IH _ _ E').
      rewrite dict_get_set_ne; [exact Hf|].
      intros ->. rewrite String.eqb_refl in Hn. discriminate. }
    destruct hint; try (apply (IH _ _ E Hf));
      (destruct (String.eqb name "bitfield_context") eqn:Hn;
       [apply (IH _ _ E Hf)|]);
      match type of E with
      | context [wrap_outcome ?n ?c ?o] =>
          destruct (wrap_outcome n c o) as [bf| |]; simpl in E;
          [eapply Hstep; eauto|discriminate..]
      end.
Qed.

Lemma mark_lookup_context c o :
  dict_get "bitfield_context" (obj_dict (mark c o)) = Some c.
Proof. apply dict_get_set_eq. Qed.

Lemma mark_lookup_other c o name :
  name ≠ "bitfield_context" →
  dict_get name (obj_dict (mark c o)) = dict_get name (obj_dict o).
Proof. intros H. unfold mark. simpl. apply dict_get_set_ne. congruence. Qed.

Lemma to_bits_marks_self Γ fuel x c h o :
  h !! x = Some o → (to_bits Γ fuel x c h).1 !! x = Some (mark c o).
Proof.
  intros Hx. destruct (to_bits Γ fuel x c h) as [h' r] eqn:E. simpl.
  unfold to_bits in E. eapply to_bits_with_marks in E as [_ E]; [eauto|].
  intros F v p h1 h2 r2. apply bftype_to_bits_marks.
Qed.

(** C10: [x.to_bits(c)] leaves every attribute of [x] other than
    [bitfield_context] as it was, so every declared field (finalization
    never declares a field of that name), and sets [bitfield_context] to
    [c] on [x]; after a second call with another context the instance
    carries the context of the second call.  This holds whatever the
    outcome of the encoding. *)
Theorem to_bits_sets_context Γ fuel x c h o :
  h !! x = Some o →
  (to_bits Γ fuel x c h).1 !! x = Some (mark c o) ∧
  dict_get "bitfield_context" (obj_dict (mark c o)) = Some c ∧
  (∀ name, name ≠ "bitfield_context" →
     dict_get name (obj_dict (mark c o)) = dict_get name (obj_dict o)) ∧
  (∀ Γ0 cls hints fs name,
     init_subclass Γ0 cls hints [] = Ret fs → is_Some (dict_get name fs) →
     dict_get name (obj_dict (mark c o)) = dict_get name (obj_dict o)) ∧
  (∀ fuel' c',
     (to_bits Γ fuel' x c' (to_bits Γ fuel x c h).1).1 !! x
       = Some (mark c' (mark c o)) ∧
     dict_get "bitfield_context" (obj_dict (mark c' (mark c o))) = Some c' ∧
     ∀ name, name ≠ "bitfield_context" →
       dict_get name (obj_dict (mark c' (mark c o))) = dict_get name (obj_dict o)).
Proof.
  intros Hx.
  split; [apply to_bits_marks_self; exact Hx|].
  split; [apply mark_lookup_context|].
  split; [intros name; apply mark_lookup_other|].
  split.
  - intros Γ0 cls hints fs name E [F HF]. apply mark_lookup_other.
    intros ->. rewrite (init_subclass_no_context _ _ _ _ _ E eq_refl) in HF.
    discriminate.
  - intros fuel' c'.
    split; [apply to_bits_marks_self, to_bits_marks_self; exact Hx|].
    split; [apply mark_lookup_context|].
    intros name Hn. rewrite !mark_lookup_other by exact Hn. reflexivity.
Qed.

Lemma to_bits_sets_context_witness :
  packed_heap 5 9 !! 0 = Some (Obj "Packed" [("a", VInt 5); ("b", VInt 9)]) ∧
  (to_bits classes 2 0 (VInt 1) (packed_heap 5 9)).1 !! 0
    = Some (Obj "Packed"
              [("a", VInt 5); ("b", VInt 9); ("bitfield_context", VInt 1)]) ∧
  (to_bits classes 2 0 (VInt 2) (to_bits classes 2 0 (VInt 1) (packed_heap 5 9)).1).1 !! 0
    = Some (Obj "Packed"
              [("a", VInt 5); ("b", VInt 9); ("bitfield_context", VInt 2)]).
Proof.
  pose proof (to_bits_sets_context classes 2 0 (VInt 1) (packed_heap 5 9) _ eq_refl)
    as (H1 & _ & _ & _ & H2).
  split; [reflexivity|]. split; [exact H1|]. exact (proj1 (H2 2 (VInt 2))).
Defined.

(** ** Equality of records *)

Lemma py_eq_S fuel Γ h v w :
  py_eq (S fuel) Γ h v w =
    match v, w with
    | VRef lv, VRef lw =>
        ov ← read_object h lv;
        ow ← read_object h lw;
        if negb (String.eqb (obj_class ow) (obj_class ov))
           && issubclass Γ (obj_class ow) (obj_class ov)
        then Bitfield_eq (py_eq fuel Γ h) Γ h lw v
        else Bitfield_eq (py_eq fuel Γ h) Γ h lv w
    | VRef lv, _ => Bitfield_eq (py_eq fuel Γ h) Γ h lv w
    | _, VRef lw => Bitfield_eq (py_eq fuel Γ h) Γ h lw v
    | VList vs, VList ws =>
        if negb (length vs =? length ws) then Ret false
        else py_list_eq (py_eq fuel Γ h) vs ws
    | VNone, VNone => Ret true
    | VBits a, VBits b => Ret (bool_decide (a = b))
    | VBytes a, VBytes b => Ret (bool_decide (a = b))
    | VStr a, VStr b => Ret (bool_decide (a = b))
    | _, _ =>
        match py_int v, py_int w with
        | Some a, Some b => Ret (a =? b)%Z
        | _, _ => Ret false
        end
    end.
Proof. reflexivity. Qed.

Lemma all_fields_true test names :
  all_fields test names = Ret true ↔
  Forall (λ name, test name = Ret true) names.
Proof.
  induction names as [|name names IH]; simpl.
  - split; [constructor|reflexivity].
  - destruct (test name) as [[|]| |] eqn:E; simpl.
    + rewrite IH. split.
      * intros H. constructor; assumption.
      * intros H. inversion H; assumption.
    + split; [discriminate|]. intros H. inversion H; congruence.
    + split; [discriminate|]. intros H. inversion H; congruence.
    + split; [discriminate|]. intros H. inversion H; congruence.
Qed.

Lemma issubclass_refl Γ c : issubclass Γ c c = true.
Proof. unfold issubclass. rewrite String.eqb_refl. reflexivity. Qed.

Lemma eqb_neq (a b : string) : a ≠ b → String.eqb a b = false.
Proof. intros H. destruct (String.eqb_spec a b); congruence. Qed.

Lemma py_eq_other_class Γ fuel h x y ox oy :
  h !! x = Some ox → h !! y = Some oy →
  obj_class ox ≠ obj_class oy → proper_hierarchy Γ →
  py_eq (S fuel) Γ h (VRef x) (VRef y) = Ret false.
Proof.
  intros Hx Hy Hne Hwf. rewrite py_eq_S. unfold read_object. rewrite Hx, Hy. simpl.
  rewrite (eqb_neq (obj_class oy) (obj_class ox)) by congruence. simpl.
  destruct (issubclass Γ (obj_class oy) (obj_class ox)) eqn:Hs.
  - unfold Bitfield_eq, read_object. rewrite Hy, Hx. simpl.
    rewrite (Hwf (obj_class oy) (obj_class ox)) by (congruence || exact Hs).
    reflexivity.
  - unfold Bitfield_eq, read_object. rewrite Hx, Hy. simpl. rewrite Hs. reflexivity.
Qed.

Lemma read_attr_stored ca h x ox name a :
  h !! x = Some ox → dict_get name (obj_dict ox) = Some a →
  read_attr ca h x name = Ret a.
Proof.
  intros Hx Ha. unfold read_attr, read_object. rewrite Hx. simpl.
  rewrite Ha. reflexivity.
Qed.

Lemma all_fields_false test before name after :
  Forall (λ name, test name = Ret true) before →
  test name = Ret false →
  all_fields test (before ++ name :: after) = Ret false.
Proof.
  intros Hb Hn. induction Hb as [|k before Hk _ IH]; simpl.
  - rewrite Hn. reflexivity.
  - rewrite Hk. simpl. exact IH.
Qed.

Lemma py_eq_same_class Γ fuel h x y ox oy cd :
  h !! x = Some ox → h !! y = Some oy →
  obj_class ox = obj_class oy → dict_get (obj_class ox) Γ = Some cd →
  py_eq (S fuel) Γ h (VRef x) (VRef y) =
    all_fields (λ name,
      a ← read_attr (class_attr Γ) h x name;
      b ← read_attr (class_attr Γ) h y name;
      py_eq fuel Γ h a b) (cls_fields cd).*1.
Proof.
  intros Hx Hy Hc Hcd.
  rewrite py_eq_S. unfold read_object. rewrite Hx, Hy. simpl.
  rewrite <- Hc, String.eqb_refl. simpl.
  unfold Bitfield_eq, read_object. rewrite Hx, Hy. simpl.
  rewrite <- Hc, issubclass_refl, Hcd. reflexivity.
Qed.

Lemma field_equal_test Γ fuel h x y ox oy name :
  h !! x = Some ox → h !! y = Some oy →
  field_equal fuel Γ h ox oy name →
  (a ← read_attr (class_attr Γ) h x name;
   b ← read_attr (class_attr Γ) h y name;
   py_eq fuel Γ h a b) = Ret true.
Proof.
  intros Hx Hy (a & b & Ha & Hb & E).
  rewrite (read_attr_stored _ _ _ _ _ _ Hx Ha). simpl.
  rewrite (read_attr_stored _ _ _ _ _ _ Hy Hb). simpl. exact E.
Qed.

(** C5: two instances of the same class, which both store every declared
    field, are equal exactly when every declared field compares equal:
    [x == y] returns [True] if and only if, for every declared field, [==]
    on the two stored values returns [True]; and it returns [False] as
    soon as one declared field compares unequal, the fields declared
    before it comparing equal.  Two instances of different classes are
    never equal, whichever is on the left (also when one class derives
    from the other). *)
Theorem Bitfield_eq_structural Γ fuel h x y ox oy :
  h !! x = Some ox → h !! y = Some oy →
  (obj_class ox = obj_class oy →
   ∀ cd, dict_get (obj_class ox) Γ = Some cd →
     (Forall (λ name, is_Some (dict_get name (obj_dict ox)) ∧
                      is_Some (dict_get name (obj_dict oy)))
        (cls_fields cd).*1 →
      (py_eq (S fuel) Γ h (VRef x) (VRef y) = Ret true ↔
       Forall (field_equal fuel Γ h ox oy) (cls_fields cd).*1)) ∧
     (∀ before name after a b,
        (cls_fields cd).*1 = before ++ name :: after →
        Forall (field_equal fuel Γ h ox oy) before →
        dict_get name (obj_dict ox) = Some a →
        dict_get name (obj_dict oy) = Some b →
        py_eq fuel Γ h a b = Ret false →
        py_eq (S fuel) Γ h (VRef x) (VRef y) = Ret false)) ∧
  (obj_class ox ≠ obj_class oy → proper_hierarchy Γ →
     py_eq (S fuel) Γ h (VRef x) (VRef y) = Ret false ∧
     py_eq (S fuel) Γ h (VRef y) (VRef x) = Ret false).
Proof.
  intros Hx Hy. split.
  - intros Hc cd Hcd.
    rewrite (py_eq_same_class _ _ _ _ _ _ _ _ Hx Hy Hc Hcd). split.
    + intros Hst. rewrite all_fields_true. rewrite !Forall_forall.
      split; intros H name Hin.
      * specialize (H name Hin).
        rewrite Forall_forall in Hst.
        destruct (Hst name Hin) as [[a Ha] [b Hb]].
        rewrite (read_attr_stored _ _ _ _ _ _ Hx Ha) in H. simpl in H.
        rewrite (read_attr_stored _ _ _ _ _ _ Hy Hb) in H. simpl in H.
        exists a, b. auto.
      * apply (field_equal_test _ _ _ _ _ _ _ _ Hx Hy). auto.
    + intros before name after a b -> Hbefore Ha Hb E.
      apply all_fields_false.
      * eapply Forall_impl; [|exact Hbefore]. intros k Hk.
        apply (field_equal_test _ _ _ _ _ _ _ _ Hx Hy Hk).
      * rewrite (read_attr_stored _ _ _ _ _ _ Hx Ha). simpl.
        rewrite (read_attr_stored _ _ _ _ _ _ Hy Hb). simpl. exact E.
  - intros Hne Hwf. split.
    + eapply py_eq_other_class; eauto.
    + eapply py_eq_other_class; eauto.
Qed.

Lemma classes_proper_hierarchy : proper_hierarchy classes.
Proof.
  intros a b Hne Hs. unfold issubclass in Hs.
  rewrite (eqb_neq a b Hne) in Hs. simpl in Hs.
  repeat match type of Hs with
  | context [String.eqb a ?s] =>
      destruct (String.eqb_spec a s) as [->|?]; simpl in Hs; try discriminate
  end.
  rewrite orb_false_r in Hs. apply String.eqb_eq in Hs as ->. reflexivity.
Qed.

Lemma Bitfield_eq_structural_witness :
  proper_hierarchy classes ∧
  py_eq 2 classes settings_heap (VRef 0) (VRef 2) = Ret true ∧
  py_eq 2 classes settings_heap (VRef 0) (VRef 3) = Ret false ∧
  py_eq 2 classes settings_heap (VRef 0) (VRef 1) = Ret false ∧
  py_eq 2 classes settings_heap (VRef 1) (VRef 0) = Ret false.
Proof.
  split; [exact classes_proper_hierarchy|].
  split; [|split].
  - apply (proj1 (proj1 (Bitfield_eq_structural classes 1 settings_heap 0 2
                           _ _ eq_refl eq_refl) eq_refl Base eq_refl)).
    + repeat constructor; eexists; reflexivity.
    + repeat constructor.
      exists (VInt 7), (VInt 7). repeat split; reflexivity.
  - apply (proj2 (proj1 (Bitfield_eq_structural classes 1 settings_heap 0 3
                           _ _ eq_refl eq_refl) eq_refl Base eq_refl)
             [] "channel_id" [] (VInt 7) (VInt 9));
      [reflexivity|constructor|reflexivity|reflexivity|reflexivity].
  - apply (proj2 (Bitfield_eq_structural classes 1 settings_heap 0 1 _ _
                    eq_refl eq_refl)).
    + discriminate.
    + exact classes_proper_hierarchy.
Defined.

(** ** Decoding moves the cursor forward in the same buffer *)

Lemma stream_le_refl s : stream_le s s.
Proof. unfold stream_le. auto. Qed.

Lemma stream_le_trans s1 s2 s3 :
  stream_le s1 s2 → stream_le s2 s3 → stream_le s1 s3.
Proof.
  unfold stream_le. intros (B12 & O12 & L12) (B23 & O23 & L23).
  rewrite B12 in *. split; [congruence|]. split; [lia|]. auto.
Qed.

Lemma take_inv n s sub s' :
  BitStream.take n s = Ret (sub, s') →
  sub = take n (drop (BitStream.offset s) (BitStream.buffer s)) ∧
  s' = BitStream.Make (BitStream.buffer s) (BitStream.offset s + n) ∧
  BitStream.offset s + n ≤ length (BitStream.buffer s).
Proof.
  unfold BitStream.take. case_decide; [|discriminate].
  intros [= <- <-]. auto.
Qed.

Lemma take_length n s sub s' :
  BitStream.take n s = Ret (sub, s') → length sub = n.
Proof.
  intros H. apply take_inv in H as (-> & _ & Hle).
  rewrite length_take, length_drop. lia.
Qed.

Lemma take_stream_le n s sub s' :
  BitStream.take n s = Ret (sub, s') → stream_le s s'.
Proof.
  intros H. apply take_inv in H as (_ & -> & Hle).
  unfold stream_le. simpl. split; [reflexivity|]. split; lia.
Qed.

Lemma for_each_ret {A B} (I : B → heap → Prop) (f : B → A → M B) l :
  (∀ acc x h acc' h', x ∈ l → I acc h → f acc x h = (h', Ret acc') → I acc' h') →
  ∀ acc h r h', I acc h → for_each f acc l h = (h', Ret r) → I r h'.
Proof.
  induction l as [|x l IH]; intros Hf acc h r h' HI E; simpl in E.
  - inversion E; subst. exact HI.
  - apply bind_M_inv in E as (acc' & h1 & E1 & E2).
    eapply IH; [|eapply Hf; [left|exact HI|exact E1]|exact E2].
    intros acc0 x0 h0 acc0' h0' Hin. apply Hf. right. exact Hin.
Qed.

Lemma lift_inv {A} (o : outcome A) h h' r : lift o h = (h', r) → h' = h ∧ r = o.
Proof. intros [= <- <-]. auto. Qed.

Section Cursor.
Context (Γ : class_table).

Lemma bftype_from_bitstream_stream fuel : ∀ F s proxy ctx h h' v s',
  bftype_from_bitstream Γ fuel F s proxy ctx h = (h', Ret (v, s')) →
  stream_le s s'.
Proof.
  induction fuel as [|fuel IH]; intros F s proxy ctx h h' v s' E; [discriminate|].
  rewrite bftype_from_bitstream_S in E. destruct F.
  - apply bind_M_inv in E as ([sub s1] & h1 & E1 & E2).
    apply lift_inv in E1 as [-> E1]. inversion E2; subst.
    eapply take_stream_le; eauto.
  - apply bind_M_inv in E as ([acc s1] & h1 & E1 & E2). inversion E2; subst.
    eapply (for_each_ret (λ '(acc, s1) _, stream_le s s1)) in E1; [exact E1| |apply stream_le_refl].
    intros [acc0 s0] x h0 [acc0' s0'] h0' _ Hs E0.
    apply bind_M_inv in E0 as ([item s2] & h2 & E3 & E4). inversion E4; subst.
    eapply stream_le_trans; [exact Hs|]. eapply IH; eauto.
  - apply bind_M_inv in E as ([u s1] & h1 & E1 & E2).
    apply bind_M_inv in E2 as (out & h2 & E2 & E3). inversion E3; subst.
    eapply IH; eauto.
  - apply bind_M_inv in E as (d & h1 & E1 & E2).
    apply bind_M_inv in E2 as (f & h2 & E2 & E3). eapply IH; eauto.
  - apply bind_M_inv in E as (d & h1 & E1 & E2).
    apply bind_M_inv in E2 as (f & h2 & E2 & E3). eapply IH; eauto.
  - apply bind_M_inv in E as ([u s1] & h1 & E1 & E2).
    apply bind_M_inv in E2 as (b & h2 & E2 & E3).
    destruct b; [discriminate|]. inversion E3; subst. eapply IH; eauto.
  - inversion E; subst. apply stream_le_refl.
  - apply bind_M_inv in E as ([sub s1] & h1 & E1 & E2).
    apply lift_inv in E1 as [-> E1].
    apply bind_M_inv in E2 as (out & h2 & E2 & E3). inversion E3; subst.
    eapply take_stream_le; eauto.
Qed.

Lemma from_bitstream_stream fuel cls bits ctx h h' v s' :
  from_bitstream Γ fuel cls (BitStream.of_bits bits) ctx h = (h', Ret (v, s')) →
  ∃ cd, dict_get cls Γ = Some cd ∧
        BitStream.buffer s' = Bits.reorder (cls_reorder cd) bits ∧
        BitStream.offset s' ≤ length (BitStream.buffer s').
Proof.
  unfold from_bitstream, from_bitstream_with. intros E.
  apply bind_M_inv in E as (cd & h1 & E1 & E2).
  unfold get_class in E1. destruct (dict_get cls Γ) as [cd'|] eqn:Hcd; [|discriminate].
  inversion E1; subst cd' h1. clear E1.
  exists cd. split; [reflexivity|].
  apply bind_M_inv in E2 as ([proxy s1] & h1 & E1 & E2).
  apply bind_M_inv in E2 as (self & h2 & E2 & E3). inversion E3; subst.
  eapply (for_each_ret (λ '(_, s1) _,
            stream_le (BitStream.reorder (cls_reorder cd) (BitStream.of_bits bits)) s1))
    in E1; [| |apply stream_le_refl].
  - destruct E1 as (B & _ & L). simpl in *. rewrite B. split; [reflexivity|]. apply L. lia.
  - intros [p0 s0] [name field] h0 [p0' s0'] h0' _ Hs E0.
    apply bind_M_inv in E0 as ([value s2] & h3 & E6 & E4). inversion E4; subst.
    eapply stream_le_trans; [exact Hs|].
    unfold in_field in E6.
    destruct (bftype_from_bitstream Γ fuel field s0 p0 ctx h0) as [h4 [[v4 s4]| |]] eqn:E5;
      inversion E6; subst.
    eapply bftype_from_bitstream_stream; eauto.
Qed.

(** C2: [from_bits] returns the record exactly when [from_bitstream]
    returns it with the cursor at the end of the buffer, the reordered
    input, so with every bit consumed, and raises the leftover-bits error
    with the number of unread bits otherwise; a nested [BFBitfield(cls, n)]
    takes [n] bits off the stream and hands exactly these to
    [cls.from_bits], whose failure is its own. *)
Theorem from_bits_consumes_all fuel cls bits ctx h :
  from_bits Γ fuel cls bits ctx h =
    match from_bitstream Γ fuel cls (BitStream.of_bits bits) ctx h with
    | (h', Ret (v, stream)) =>
        if decide (BitStream.offset stream = length (BitStream.buffer stream)) then (h', Ret v)
        else (h', Raise (Exn ValueError
               (MsgBitsLeftOver cls (length (BitStream.buffer stream) - BitStream.offset stream))))
    | (h', Raise e) => (h', Raise e)
    | (h', Stuck w) => (h', Stuck w)
    end
  ∧ (∀ h' v stream,
       from_bitstream Γ fuel cls (BitStream.of_bits bits) ctx h = (h', Ret (v, stream)) →
       ∃ cd, dict_get cls Γ = Some cd ∧
             BitStream.buffer stream = Bits.reorder (cls_reorder cd) bits ∧
             BitStream.offset stream ≤ length (BitStream.buffer stream))
  ∧ ∀ inner n d stream proxy,
      bftype_from_bitstream Γ (S fuel) (BFBitfield inner n d) stream proxy ctx h =
        match BitStream.take n stream with
        | Ret (sub, stream') =>
            match from_bits Γ fuel inner sub ctx h with
            | (h', Ret v) => (h', Ret (v, stream'))
            | (h', Raise e) => (h', Raise e)
            | (h', Stuck w) => (h', Stuck w)
            end
        | Raise e => (h, Raise e)
        | Stuck w => (h, Stuck w)
        end
      ∧ ∀ sub stream', BitStream.take n stream = Ret (sub, stream') → length sub = n.
Proof.
  split; [|split].
  - unfold from_bits, from_bits_with. rewrite bind_M.
    fold (from_bitstream Γ fuel cls (BitStream.of_bits bits) ctx h).
    destruct (from_bitstream Γ fuel cls (BitStream.of_bits bits) ctx h) as [h' [[v s']| |]] eqn:E;
      try reflexivity.
    apply from_bitstream_stream in E as (cd & _ & _ & Hle).
    unfold BitStream.remaining. case_decide as Hd.
    + replace (length (BitStream.buffer s') - BitStream.offset s') with 0 by lia. reflexivity.
    + destruct (length (BitStream.buffer s') - BitStream.offset s') eqn:Hr; [lia|]. reflexivity.
  - intros h' v stream E. eapply from_bitstream_stream; eauto.
  - intros inner n d stream proxy. split.
    + rewrite bftype_from_bitstream_S, bind_lift.
      destruct (BitStream.take n stream) as [[sub s1]| |]; reflexivity.
    + intros sub s1. apply take_length.
Qed.

End Cursor.

Lemma from_bits_consumes_all_witness :
  from_bits classes 2 "Packed"
    [true; false; true; false; true; false; false; true] VNone []
    = ([Obj "Packed" [("a", VInt 5); ("b", VInt 9)]], Ret (VRef 0)) ∧
  (from_bits classes 2 "Packed"
     [true; false; true; false; true; false; false; true; true] VNone []).2
    = Raise (Exn ValueError (MsgBitsLeftOver "Packed" 1)).
Proof.
  split.
  - rewrite (proj1 (from_bits_consumes_all classes 2 "Packed" _ VNone [])).
    reflexivity.
  - rewrite (proj1 (from_bits_consumes_all classes 2 "Packed" _ VNone [])).
    reflexivity.
Defined.

(** ** Construction *)

Lemma setattr_last h cls d name v :
  setattr (length h) name v (h ++ [Obj cls d])
    = (h ++ [Obj cls (dict_set name v d)], Ret ()).
Proof.
  unfold setattr. rewrite list_lookup_middle by reflexivity. simpl.
  rewrite insert_app_r_alt by lia. rewrite Nat.sub_diag. reflexivity.
Qed.

Lemma init_loop_spec kwargs h cls fields : ∀ d attrs,
  init_dict kwargs fields d = Some attrs →
  for_each (λ (_ : unit) '(name, field),
    value ← match dict_get name kwargs with
            | Some v => mret v
            | None =>
                match bftype_default field with
                | Some d => mret d
                | None => raise ValueError (MsgMissingValue name)
                end
            end;
    setattr (length h) name value) () fields (h ++ [Obj cls d])
  = (h ++ [Obj cls attrs], Ret ()).
Proof.
  induction fields as [|[name field] fields IH]; intros d attrs E; simpl in E.
  - inversion E; subst. reflexivity.
  - unfold arg_or_default in E. cbn [for_each]. rewrite bind_M.
    destruct (dict_get name kwargs) as [v|] eqn:Hk.
    + cbn. rewrite setattr_last. apply IH. exact E.
    + destruct (bftype_default field) as [v|]; [|discriminate].
      cbn. rewrite setattr_last. apply IH. exact E.
Qed.

Lemma Bitfield_init_spec Γ cls cd kwargs h attrs :
  dict_get cls Γ = Some cd →
  init_dict kwargs (cls_fields cd) [] = Some attrs →
  Bitfield_init Γ cls kwargs h = (h ++ [Obj cls attrs], Ret (length h)).
Proof.
  intros Hcd E. unfold Bitfield_init, get_class. rewrite Hcd. cbn.
  rewrite (init_loop_spec _ _ _ _ _ _ E). reflexivity.
Qed.

Lemma init_dict_get kwargs name v fields : ∀ d attrs,
  init_dict kwargs fields d = Some attrs →
  dict_get name kwargs = Some v →
  name ∈ fields.*1 ∨ dict_get name d = Some v →
  dict_get name attrs = Some v.
Proof.
  induction fields as [|[n f] fields IH]; intros d attrs E Hk Hin; simpl in E.
  - inversion E; subst. destruct Hin as [Hin|Hin]; [inversion Hin|exact Hin].
  - destruct (arg_or_default kwargs n f) as [w|] eqn:Ha; [|discriminate].
    apply (IH _ _ E Hk).
    destruct (decide (name = n)) as [->|Hne].
    + right. unfold arg_or_default in Ha. rewrite Hk in Ha. inversion Ha; subst.
      apply dict_get_set_eq.
    + destruct Hin as [Hin|Hin].
      * left. rewrite fmap_cons in Hin. apply elem_of_cons in Hin as [?|?]; [contradiction|assumption].
      * right. rewrite dict_get_set_ne by congruence. exact Hin.
Qed.

(** ** Literal fields *)

Lemma for_each_blocked {A B} (J : heap → Prop) (f : B → A → M B) l x :
  x ∈ l →
  (∀ acc y h h' r, J h → f acc y h = (h', r) → J h') →
  (∀ acc h h' r, J h → f acc x h = (h', r) → ∀ b, r ≠ Ret b) →
  ∀ acc h h' r, J h → for_each f acc l h = (h', r) → ∀ b, r ≠ Ret b.
Proof.
  intros Hin HJ Hx. induction l as [|y l IH]; [inversion Hin|].
  intros acc h h' r Hh E b. simpl in E.
  apply bind_M_cases in E as [(a & h1 & E1 & E2)|[(e & _ & ->)|(w & _ & ->)]];
    [|discriminate..].
  apply elem_of_cons in Hin as [->|Hin].
  - destruct (Hx acc h h1 (Ret a) Hh E1 a eq_refl).
  - exact (IH Hin a h1 h' r (HJ _ _ _ _ _ Hh E1) E2 b).
Qed.

Lemma encode_lit_differs Γ fuel inner d v p ctx h h' r :
  differs Γ v d →
  bftype_to_bits Γ fuel (BFLit inner d) v p ctx h = (h', r) → ∀ b, r ≠ Ret b.
Proof.
  intros Hd E b. destruct fuel as [|fuel]; [inversion E; subst; discriminate|].
  rewrite bftype_to_bits_S in E.
  apply bind_M_cases in E as [(a & h1 & E1 & E2)|[(e & _ & ->)|(w & _ & ->)]];
    [|discriminate..].
  unfold py_ne in E1. inversion E1; subst h1. clear E1.
  destruct (py_eq fuel Γ h v d) as [[|]| |] eqn:Eq; simpl in *; try discriminate.
  - exfalso. eapply Hd; eauto.
  - inversion H1; subst a. inversion E2; subst. discriminate.
Qed.

Lemma marks_lookup ctx h0 h l o :
  marks ctx h0 h → h0 !! l = Some (mark ctx o) → h !! l = Some (mark ctx o).
Proof.
  intros [_ Hm] Hl. destruct (Hm _ _ Hl) as [H|H]; rewrite ?mark_idemp in H; exact H.
Qed.

Lemma to_bits_field_blocked Γ fuel x ctx h o cd name F v :
  h !! x = Some o →
  dict_get (obj_class o) Γ = Some cd →
  (name, F) ∈ cls_fields cd →
  dict_get name (obj_dict (mark ctx o)) = Some v →
  (∀ h1 h2 r, bftype_to_bits Γ fuel F v x ctx h1 = (h2, r) → ∀ b, r ≠ Ret b) →
  ∀ h' r, to_bits Γ fuel x ctx h = (h', r) → ∀ b, r ≠ Ret b.
Proof.
  intros Hx Hcd Hin Hv HF h' r E b.
  unfold to_bits, to_bits_with in E.
  apply bind_M_cases in E as [(u & h1 & E1 & E2)|[(e & _ & ->)|(w & _ & ->)]];
    [|discriminate..].
  unfold setattr in E1. rewrite Hx in E1. inversion E1; subst h1 u. clear E1.
  change (Obj (obj_class o) (dict_set "bitfield_context" ctx (obj_dict o)))
    with (mark ctx o) in *.
  assert (<[x:=mark ctx o]> h !! x = Some (mark ctx o)) as Hx1.
  { apply list_lookup_insert_eq. eapply lookup_lt_Some; eauto. }
  apply bind_M_cases in E2 as [(o1 & h1 & E1 & E2)|[(e & _ & ->)|(w & _ & ->)]];
    [|discriminate..].
  unfold get_object in E1. rewrite Hx1 in E1. inversion E1; subst h1 o1. clear E1.
  simpl obj_class in E2. unfold get_class in E2. rewrite Hcd, bind_mret in E2.
  apply bind_M_cases in E2 as [(acc & h1 & E1 & E2)|[(e & _ & ->)|(w & _ & ->)]];
    [|discriminate..].
  exfalso.
  eapply (for_each_blocked (marks ctx (<[x:=mark ctx o]> h)) _ _ _ Hin) in E1;
    [exact (E1 eq_refl)| | |apply marks_refl].
  - intros acc0 [n0 f0] h0 h0' r0 Hm E0.
    eapply marks_trans; [exact Hm|].
    eapply bind_M_heap in E0; [exact E0|apply marks_trans|..].
    + intros h3 r3 E3. apply getattr_heap in E3 as ->. apply marks_refl.
    + intros v3 h3 h4 r4 E4.
      eapply bind_M_heap in E4; [exact E4|apply marks_trans|..].
      * intros h5 r5 E5. eapply in_field_heap in E5; [exact E5|].
        intros h6 r6. apply bftype_to_bits_marks.
      * intros a h5 h6 r6 [= <- _]. apply marks_refl.
  - intros acc0 h0 h0' r0 Hm E0 b0.
    apply bind_M_cases in E0 as [(v0 & h3 & E3 & E4)|[(e & _ & ->)|(w & _ & ->)]];
      [|discriminate..].
    unfold getattr, get_object in E3. cbn in E3.
    rewrite (marks_lookup _ _ _ _ _ Hm Hx1) in E3. rewrite Hv in E3.
    inversion E3; subst h3 v0. clear E3.
    apply bind_M_cases in E4 as [(a & h3 & E3 & E4)|[(e & _ & ->)|(w & _ & ->)]];
      [|discriminate..].
    unfold in_field in E3.
    destruct (bftype_to_bits Γ fuel F v x ctx h0) as [h4 r4] eqn:E5.
    destruct r4 as [b4| |]; inversion E3; subst.
    destruct (HF _ _ _ E5 a eq_refl).
Qed.

(** C3, as stated, fails on the constructor: [__init__] compares nothing,
    and an instance of [Tagged] whose literal field [tag] holds 11, not the
    required 10, is constructed. *)
Lemma construct_lit_mismatch_succeeds :
  py_eq 1 classes [] (VInt 11) (VInt 10) = Ret false ∧
  Bitfield_init classes "Tagged" [("tag", VInt 11); ("payload", VInt 7)] []
    = (tagged_heap 11, Ret 0).
Proof. split; reflexivity. Qed.

(** C3, amended: for a field [Lit(inner, default)], construction stores
    the value it is given, whatever it is; encoding compares the value with
    the default and raises the literal-mismatch error when they differ, so
    that no encoding of an instance whose value differs succeeds; decoding
    raises the literal-mismatch error when the decoded inner value differs
    from the default and returns the value when they are equal. *)
Theorem literal_discipline Γ fuel inner d :
  (∀ cls cd kwargs h name attrs v,
     dict_get cls Γ = Some cd →
     (name, BFLit inner d) ∈ cls_fields cd →
     init_dict kwargs (cls_fields cd) [] = Some attrs →
     dict_get name kwargs = Some v →
     Bitfield_init Γ cls kwargs h = (h ++ [Obj cls attrs], Ret (length h)) ∧
     dict_get name attrs = Some v) ∧
  (∀ v p ctx h,
     bftype_to_bits Γ (S fuel) (BFLit inner d) v p ctx h =
       match py_eq fuel Γ h v d with
       | Ret true => bftype_to_bits Γ fuel inner v p ctx h
       | Ret false => (h, Raise (Exn ValueError (MsgExpected d v)))
       | Raise e => (h, Raise e)
       | Stuck w => (h, Stuck w)
       end) ∧
  (∀ f x ctx h o cd name v,
     h !! x = Some o →
     dict_get (obj_class o) Γ = Some cd →
     (name, BFLit inner d) ∈ cls_fields cd →
     dict_get name (obj_dict (mark ctx o)) = Some v →
     differs Γ v d →
     ∀ h' r, to_bits Γ f x ctx h = (h', r) → ∀ b, r ≠ Ret b) ∧
  (∀ s proxy ctx h,
     bftype_from_bitstream Γ (S fuel) (BFLit inner d) s proxy ctx h =
       match bftype_from_bitstream Γ fuel inner s proxy ctx h with
       | (h1, Ret (v, s')) =>
           match py_eq fuel Γ h1 v d with
           | Ret true => (h1, Ret (v, s'))
           | Ret false => (h1, Raise (Exn ValueError (MsgExpected d v)))
           | Raise e => (h1, Raise e)
           | Stuck w => (h1, Stuck w)
           end
       | (h1, Raise e) => (h1, Raise e)
       | (h1, Stuck w) => (h1, Stuck w)
       end).
Proof.
  split; [|split; [|split]].
  - intros cls cd kwargs h name attrs v Hcd Hin Hinit Hk. split.
    + apply (Bitfield_init_spec _ _ _ _ _ _ Hcd Hinit).
    + apply (init_dict_get _ _ _ _ _ _ Hinit Hk). left.
      apply list_elem_of_fmap. exists (name, BFLit inner d). split; [reflexivity|exact Hin].
  - intros v p ctx h. rewrite bftype_to_bits_S, bind_M. unfold py_ne.
    destruct (py_eq fuel Γ h v d) as [[|]| |]; reflexivity.
  - intros f x ctx h o cd name v Hx Hcd Hin Hv Hd.
    eapply to_bits_field_blocked; eauto.
    intros h1 h2 r. apply encode_lit_differs. exact Hd.
  - intros s proxy ctx h. rewrite bftype_from_bitstream_S, bind_M.
    destruct (bftype_from_bitstream Γ fuel inner s proxy ctx h) as [h1 [[v s']| |]];
      try reflexivity.
    rewrite bind_M. unfold py_ne.
    destruct (py_eq fuel Γ h1 v d) as [[|]| |]; reflexivity.
Qed.

Lemma differs_11_10 : differs classes (VInt 11) (VInt 10).
Proof. intros [|fuel] h; discriminate. Qed.

Lemma literal_discipline_witness :
  differs classes (VInt 11) (VInt 10) ∧
  Bitfield_init classes "Tagged" [("tag", VInt 11); ("payload", VInt 7)] []
    = (tagged_heap 11, Ret 0) ∧
  (∀ h' r, to_bits classes 3 0 VNone (tagged_heap 11) = (h', r) →
           ∀ b, r ≠ Ret b).
Proof.
  pose proof (literal_discipline classes 1 (bf_int 4 None) (VInt 10))
    as (Hinit & _ & Henc & _).
  split; [exact differs_11_10|]. split.
  - refine (proj1 (Hinit "Tagged" Tagged
      [("tag", VInt 11); ("payload", VInt 7)] [] "tag" _ (VInt 11)
      eq_refl _ eq_refl eq_refl)).
    apply list_elem_of_here.
  - refine (Henc 3 0 VNone (tagged_heap 11) _ Tagged "tag" (VInt 11)
      eq_refl eq_refl _ eq_refl differs_11_10).
    apply list_elem_of_here.
Defined.

(** Scenario 2 of the specification. *)
Example literal_with_mismatch :
  from_bits classes 3 "Tagged"
    [true; false; true; false; false; true; true; true] VNone []
    = ([Obj "Tagged" [("tag", VInt 10); ("payload", VInt 7)]], Ret (VRef 0)) ∧
  from_bits classes 3 "Tagged"
    [true; false; true; true; false; true; true; true] VNone []
    = ([], Raise (Exn ValueError
             (MsgInField "tag" "Tagged" (MsgExpected (VInt 10) (VInt 11))))).
Proof. split; reflexivity. Qed.

(** ** Copies *)

Lemma copy_of_prim Γ h n : ∀ v' v,
  prim v = true → copy_of n Γ h v' v → v' = v.
Proof.
  induction n as [|n IH]; intros v' v Hp Hc; [destruct Hc|].
  destruct v; simpl in Hp; try discriminate;
    destruct v'; simpl in Hc; try contradiction; try exact Hc.
  f_equal. revert Hp. induction Hc as [|a' a vs' vs Ha Hvs IHvs]; intros Hp; [reflexivity|].
  simpl in Hp. apply andb_true_iff in Hp as [Hpa Hpv].
  f_equal; [apply IH; assumption|apply IHvs; assumption].
Qed.

Lemma copy_of_ext Γ h t n : ∀ v' v,
  copy_of n Γ h v' v → copy_of n Γ (h ++ t) v' v.
Proof.
  induction n as [|n IH]; intros v' v Hc; [destruct Hc|].
  destruct v', v; simpl in *; try exact Hc.
  - eapply Forall2_impl; [|exact Hc]. intros a' a. apply IH.
  - destruct Hc as (o' & o & cd & Hl' & Hl & Hc & Hcd & Hf).
    exists o', o, cd. split; [apply lookup_app_l_Some; exact Hl'|].
    split; [apply lookup_app_l_Some; exact Hl|].
    split; [exact Hc|]. split; [exact Hcd|].
    eapply Forall_impl; [|exact Hf].
    intros name (a' & a & Ha' & Ha & Hca). exists a', a. auto.
Qed.

Lemma copy_view_ext Γ h t pdec porig :
  copy_view Γ h pdec porig → copy_view Γ (h ++ t) pdec porig.
Proof.
  intros H. eapply Forall2_impl; [|exact H].
  intros e' e [Hk [Hv|[m Hv]]]; (split; [exact Hk|]); [left; exact Hv|].
  right. exists m. apply copy_of_ext. exact Hv.
Qed.

Lemma copy_view_set Γ h name v' v pdec porig :
  copy_view Γ h pdec porig →
  (∃ m, copy_of m Γ h v' v) →
  copy_view Γ h (dict_set name v' pdec) (dict_set name v porig).
Proof.
  intros H Hv. induction H as [|[k' w'] [k w] pdec porig [Hk Hw] Hrest IH].
  - constructor; [|constructor]. split; [reflexivity|]. right. exact Hv.
  - simpl in *. subst k'. destruct (String.eqb name k).
    + constructor; [|exact Hrest]. split; [reflexivity|]. right. exact Hv.
    + constructor; [|exact IH]. split; [reflexivity|exact Hw].
Qed.

Lemma py_list_eq_copies eq vs' vs :
  Forall2 (λ v' v, eq v' v = Ret true) vs' vs →
  py_list_eq eq vs' vs = Ret true.
Proof.
  induction 1 as [|v' v vs' vs Hv Hvs IH]; simpl; [reflexivity|].
  assert (match v', v with
          | VRef lv, VRef lw => if lv =? lw then Ret true else eq v' v
          | _, _ => eq v' v
          end = Ret true) as ->.
  { destruct v', v; try exact Hv. destruct (l =? l0); [reflexivity|exact Hv]. }
  simpl. exact IH.
Qed.

Lemma copy_of_py_eq Γ h n : ∀ v' v,
  copy_of n Γ h v' v → py_eq n Γ h v' v = Ret true.
Proof.
  induction n as [|n IH]; intros v' v Hc; [destruct Hc|].
  rewrite py_eq_S.
  destruct v', v; simpl in Hc; try discriminate; try contradiction;
    try (injection Hc as ->); try reflexivity;
    try (simpl; rewrite Z.eqb_refl; reflexivity);
    try (rewrite bool_decide_eq_true_2 by reflexivity; reflexivity).
  - rewrite (Forall2_length Hc), Nat.eqb_refl. simpl.
    apply py_list_eq_copies. eapply Forall2_impl; [|exact Hc]. apply IH.
  - destruct Hc as (o' & o & cd & Hl' & Hl & Hcls & Hcd & Hf).
    unfold read_object. rewrite Hl', Hl. simpl.
    rewrite Hcls, String.eqb_refl. simpl.
    unfold Bitfield_eq, read_object. rewrite Hl', Hl. simpl.
    rewrite Hcls, issubclass_refl, Hcd. simpl.
    apply all_fields_true. eapply Forall_impl; [|exact Hf].
    intros name (a' & a & Ha' & Ha & Hca).
    unfold read_attr, read_object. rewrite Hl', Hl. simpl. rewrite Ha', Ha. simpl.
    apply IH. exact Hca.
Qed.

Lemma copy_of_S Γ h n : ∀ v' v, copy_of n Γ h v' v → copy_of (S n) Γ h v' v.
Proof.
  induction n as [|n IH]; intros v' v Hc; [destruct Hc|].
  destruct v', v; try exact Hc.
  - simpl in Hc. change (Forall2 (copy_of (S n) Γ h) vs vs0).
    eapply Forall2_impl; [|exact Hc]. apply IH.
  - destruct Hc as (o' & o & cd & Hl' & Hl & Hcls & Hcd & Hf).
    exists o', o, cd. repeat (split; [assumption|]).
    eapply Forall_impl; [|exact Hf].
    intros name (a' & a & Ha' & Ha & Hca). exists a', a. auto.
Qed.

Lemma copy_of_mono Γ h n m v' v :
  n ≤ m → copy_of n Γ h v' v → copy_of m Γ h v' v.
Proof. induction 1 as [|m Hle IH]; [auto|]. intros Hc. apply copy_of_S. auto. Qed.

Lemma Forall2_copy_max Γ h vs' vs :
  Forall2 (λ v' v, ∃ m, copy_of m Γ h v' v) vs' vs →
  ∃ m, Forall2 (copy_of m Γ h) vs' vs.
Proof.
  induction 1 as [|v' v vs' vs [m1 H1] _ [m2 H2]].
  - exists 0. constructor.
  - exists (m1 `max` m2). constructor.
    + eapply copy_of_mono; [|exact H1]. lia.
    + eapply Forall2_impl; [|exact H2]. intros a' a. apply copy_of_mono. lia.
Qed.

Lemma Forall_copy_max Γ h (o' o : dict value) names :
  Forall (λ name, ∃ a' a, dict_get name o' = Some a' ∧ dict_get name o = Some a ∧
                          ∃ m, copy_of m Γ h a' a) names →
  ∃ m, Forall (λ name, ∃ a' a, dict_get name o' = Some a' ∧
                               dict_get name o = Some a ∧ copy_of m Γ h a' a) names.
Proof.
  induction 1 as [|name names (a' & a & Ha' & Ha & m1 & H1) _ [m2 H2]].
  - exists 0. constructor.
  - exists (m1 `max` m2). constructor.
    + exists a', a. repeat (split; [assumption|]). eapply copy_of_mono; [|exact H1]. lia.
    + eapply Forall_impl; [|exact H2].
      intros n0 (b' & b & Hb' & Hb & Hc). exists b', b. repeat (split; [assumption|]).
      eapply copy_of_mono; [|exact Hc]. lia.
Qed.

Section Encodes.
Context (Γ : class_table) (ctx : value) (h0 : heap).

Lemma parent_view_marks h h' parent penc :
  marks ctx h h' → parent_view ctx h parent penc → parent_view ctx h' parent penc.
Proof.
  intros [_ Hm] (op & Hp & Hd & Hi).
  destruct (Hm _ _ Hp) as [H|H].
  - exists op. auto.
  - exists (mark ctx op). split; [exact H|]. simpl. rewrite Hd, Hi. auto.
Qed.

Lemma encode_items n inner parent penc porig
    (IH : ∀ k v bits, legal Γ ctx h0 n penc porig k inner v bits →
          ∀ h, marks ctx h0 h → parent_view ctx h parent penc →
          ∃ h', bftype_to_bits Γ n inner v parent ctx h = (h', Ret bits) ∧
                marks ctx h h') :
  ∀ k vs bits, legal_items Γ ctx h0 n penc porig k inner vs bits →
  ∀ acc h, marks ctx h0 h → parent_view ctx h parent penc →
  ∃ h', for_each (λ acc item,
          bits ← bftype_to_bits Γ n inner item parent ctx;
          mret (acc ++ bits)) acc vs h = (h', Ret (acc ++ bits)) ∧
        marks ctx h h'.
Proof.
  intros k vs bits H. 
  induction H as [|n penc porig k inner v vs b bs Hv Hvs IHvs]; intros acc h Hm Hp.
  - exists h. simpl. rewrite app_nil_r. split; [reflexivity|apply marks_refl].
  - destruct (IH _ _ _ Hv h Hm Hp) as (h1 & E1 & Hm1).
    destruct (IHvs IH (acc ++ b) h1) as (h2 & E2 & Hm2).
    { eapply marks_trans; eauto. }
    { eapply parent_view_marks; eauto. }
    exists h2. split; [|eapply marks_trans; eauto].
    cbn [for_each]. erewrite bind_M_ret.
    + rewrite E2, app_assoc. reflexivity.
    + erewrite bind_M_ret; [reflexivity|exact E1].
Qed.

Lemma getattr_ret ca h l o name v :
  h !! l = Some o → dict_get name (obj_dict o) = Some v →
  getattr ca l name h = (h, Ret v).
Proof.
  intros Hl Hv. unfold getattr, get_object. cbn. rewrite Hl. cbn. rewrite Hv.
  reflexivity.
Qed.

Lemma in_field_ret {A} name cls (m : M A) h h' a :
  m h = (h', Ret a) → in_field name cls m h = (h', Ret a).
Proof. intros E. unfold in_field. rewrite E. reflexivity. Qed.

Lemma encode_fields n parent penc cls
    (IH : ∀ porig k F v bits, legal Γ ctx h0 n penc porig k F v bits →
          ∀ h, marks ctx h0 h → parent_view ctx h parent penc →
          ∃ h', bftype_to_bits Γ n F v parent ctx h = (h', Ret bits) ∧
                marks ctx h h') :
  ∀ porig fields bits, legal_fields Γ ctx h0 n penc porig fields bits →
  ∀ acc h, marks ctx h0 h → parent_view ctx h parent penc →
  ∃ h', for_each (λ acc '(name, field),
          value ← getattr (class_attr Γ) parent name;
          bits ← in_field name cls
                   (bftype_to_bits Γ n field value parent ctx);
          mret (acc ++ bits)) acc fields h = (h', Ret (acc ++ bits)) ∧
        marks ctx h h'.
Proof.
  intros porig fields bits H.
  induction H as [|n penc porig name field rest v b bs Hv Hf Hrest IHrest];
    intros acc h Hm Hp.
  - exists h. simpl. rewrite app_nil_r. split; [reflexivity|apply marks_refl].
  - destruct (IH _ _ _ _ _ Hf h Hm Hp) as (h1 & E1 & Hm1).
    destruct (IHrest IH (acc ++ b) h1) as (h2 & E2 & Hm2).
    { eapply marks_trans; eauto. }
    { eapply parent_view_marks; eauto. }
    exists h2. split; [|eapply marks_trans; eauto].
    destruct Hp as (op & Hop & Hd & _). subst penc.
    cbn [for_each]. erewrite bind_M_ret.
    + rewrite E2, app_assoc. reflexivity.
    + erewrite bind_M_ret; [|eapply getattr_ret; eauto].
      erewrite bind_M_ret; [reflexivity|]. apply in_field_ret. exact E1.
Qed.

Lemma marks_mark h l o :
  marks ctx h0 h → h0 !! l = Some o →
  ∃ oh, h !! l = Some oh ∧ mark ctx oh = mark ctx o ∧ obj_class oh = obj_class o.
Proof.
  intros [_ Hm] Hl. destruct (Hm _ _ Hl) as [H|H].
  - exists o. auto.
  - exists (mark ctx o). rewrite mark_idemp. auto.
Qed.

Lemma to_bits_legal n l o cd acc
    (IH : ∀ penc porig k F v bits, legal Γ ctx h0 n penc porig k F v bits →
          ∀ parent h, marks ctx h0 h → parent_view ctx h parent penc →
          ∃ h', bftype_to_bits Γ n F v parent ctx h = (h', Ret bits) ∧
                marks ctx h h') :
  h0 !! l = Some o →
  dict_get (obj_class o) Γ = Some cd →
  legal_fields Γ ctx h0 n (dict_set "bitfield_context" ctx (obj_dict o))
    [("bitfield_context", ctx)] (cls_fields cd) acc →
  ∀ h, marks ctx h0 h →
  ∃ h', to_bits Γ n l ctx h = (h', Ret (Bits.unreorder (cls_reorder cd) acc)) ∧
        marks ctx h h'.
Proof.
  intros Hl Hcd Hf h Hm.
  destruct (marks_mark _ _ _ Hm Hl) as (oh & Hoh & Hmk & Hcls).
  set (h1 := <[l := mark ctx o]> h).
  assert (marks ctx h h1) as Hm1.
  { unfold h1. rewrite <- Hmk. apply marks_insert. exact Hoh. }
  assert (h1 !! l = Some (mark ctx o)) as Hl1.
  { apply list_lookup_insert_eq. eapply lookup_lt_Some; eauto. }
  assert (parent_view ctx h1 l (dict_set "bitfield_context" ctx (obj_dict o))) as Hp.
  { exists (mark ctx o). split; [exact Hl1|]. split; [reflexivity|apply dict_set_idemp]. }
  destruct (encode_fields n l _ (obj_class o)
              (λ porig k F v bits Hl h, IH _ _ _ _ _ _ Hl l h) _ _ _ Hf [] h1)
    as (h2 & E2 & Hm2);
    [eapply marks_trans; eauto|exact Hp|].
  exists h2. split; [|eapply marks_trans; eauto].
  unfold to_bits, to_bits_with.
  erewrite bind_M_ret; cycle 1.
  { unfold setattr. rewrite Hoh. fold (mark ctx oh). rewrite Hmk. reflexivity. }
  fold h1. erewrite bind_M_ret; cycle 1.
  { unfold get_object. rewrite Hl1. reflexivity. }
  simpl obj_class. unfold get_class. rewrite Hcd, bind_mret.
  erewrite bind_M_ret; [reflexivity|exact E2].
Qed.

Lemma legal_encodes n : ∀ penc porig k F v bits,
  legal Γ ctx h0 n penc porig k F v bits →
  ∀ parent h, marks ctx h0 h → parent_view ctx h parent penc →
  ∃ h', bftype_to_bits Γ n F v parent ctx h = (h', Ret bits) ∧ marks ctx h h'.
Proof.
  induction n as [|n IH]; intros penc porig k F v bits H parent h Hm Hp;
    [inversion H|].
  inversion H; subst; rewrite bftype_to_bits_S.
  - exists h. split; [|apply marks_refl].
    rewrite bind_lift. simpl. rewrite Nat.eqb_refl. reflexivity.
  - rewrite bind_lift. simpl. rewrite Nat.eqb_refl. simpl.
    destruct (encode_items n inner parent penc porig
                (λ k v bits Hl h, IH _ _ _ _ _ _ Hl parent h) _ _ _ H2 [] h Hm Hp)
      as (h' & E & Hm').
    exists h'. split; [exact E|exact Hm'].
  - rewrite bind_lift, H1. eapply IH; eauto.
  - destruct Hp as (op & Hop & Hd & Hi).
    erewrite bind_M_ret; [|unfold get_object; rewrite Hop; reflexivity].
    rewrite bind_lift, Hd, H1, bind_lift, H2.
    eapply IH; eauto. exists op. auto.
  - assert ((match v with
             | VRef l => o ← get_object l; mret (DClass (obj_class o))
             | VStr _ | VBytes _ | VNone => mret (DValue v)
             | _ => raise TypeError (MsgDynValue v)
             end) h = (h, Ret dz)) as Ed.
    { destruct v; simpl in H1; try discriminate; try (inversion H1; subst; reflexivity).
      destruct (h0 !! l) as [o|] eqn:Hl; [|discriminate]. inversion H1; subst.
      destruct (marks_mark _ _ _ Hm Hl) as (oh & Hoh & _ & Hcls).
      unfold get_object. cbn. rewrite Hoh. cbn. rewrite Hcls. reflexivity. }
    erewrite bind_M_ret; [|exact Ed].
    rewrite bind_lift, H2. eapply IH; eauto.
  - erewrite bind_M_ret; [|unfold py_ne; rewrite H2; reflexivity].
    simpl. eapply IH; eauto.
  - exists h. split; [reflexivity|apply marks_refl].
  - destruct (to_bits_legal n l o cd acc IH H1 H3 H5 h Hm) as (h' & E & Hm').
    exists h'. split; [|exact Hm'].
    erewrite bind_M_ret; [|exact E].
    rewrite unreorder_length, Nat.eqb_refl. reflexivity.
Qed.

End Encodes.

(** ** Legal instances decode to copies *)

Lemma stream_at_app s (b bs : Bits.t) k :
  stream_at s (b ++ bs) k →
  stream_at s b (length bs + k) ∧
  ∀ s', advanced s s' (length b) → stream_at s' bs k.
Proof.
  intros [Hlen Htake]. rewrite length_app in Hlen, Htake. split.
  - split; [lia|].
    apply (f_equal (take (length b))) in Htake.
    rewrite take_take, take_app_length in Htake.
    rewrite Nat.min_l in Htake by lia. exact Htake.
  - intros s' [Hb Ho]. split; [rewrite Hb, Ho; lia|].
    rewrite Hb, Ho, <- drop_drop.
    apply (f_equal (drop (length b))) in Htake.
    rewrite drop_app_length in Htake.
    rewrite take_drop_commute. exact Htake.
Qed.

Lemma stream_at_take s (bits : Bits.t) k :
  stream_at s bits k →
  BitStream.take (length bits) s
    = Ret (bits, BitStream.Make (BitStream.buffer s)
                   (BitStream.offset s + length bits)).
Proof.
  intros [Hlen Htake]. unfold BitStream.take.
  rewrite decide_True by lia. rewrite Htake. reflexivity.
Qed.

Lemma dict_get_None_not_in {V} k (d : dict V) :
  dict_get k d = None → k ∉ d.*1.
Proof.
  induction d as [|[k' v] d IH]; simpl; intros H Hin; [inversion Hin|].
  destruct (String.eqb_spec k k') as [->|Hne]; [discriminate|].
  apply elem_of_cons in Hin as [?|Hin]; [contradiction|]. exact (IH H Hin).
Qed.

Lemma init_dict_total kwargs fields : ∀ d,
  Forall (λ name, is_Some (dict_get name kwargs)) fields.*1 →
  ∃ attrs, init_dict kwargs fields d = Some attrs.
Proof.
  induction fields as [|[name f] fields IH]; intros d H; simpl.
  - eauto.
  - rewrite fmap_cons in H. inversion H as [|? ? [v Hv] Hrest]; subst.
    unfold arg_or_default. simpl in Hv. rewrite Hv. apply IH. exact Hrest.
Qed.

Section Decodes.
Context (Γ : class_table) (ctx : value) (h0 : heap).

Lemma above_ext hd t : above ctx h0 hd → above ctx h0 (hd ++ t).
Proof.
  intros (hm & t0 & -> & Hm). exists hm, (t0 ++ t).
  rewrite app_assoc. auto.
Qed.

Lemma above_lookup hd l o :
  above ctx h0 hd → h0 !! l = Some o →
  ∃ oh, hd !! l = Some oh ∧ obj_class oh = obj_class o ∧
        ∀ name, name ≠ "bitfield_context" →
                dict_get name (obj_dict oh) = dict_get name (obj_dict o).
Proof.
  intros (hm & t & -> & [_ Hm]) Hl. destruct (Hm _ _ Hl) as [H|H].
  - exists o. split; [apply lookup_app_l_Some; exact H|]. auto.
  - exists (mark ctx o). split; [apply lookup_app_l_Some; exact H|].
    split; [reflexivity|]. intros name Hn. apply mark_lookup_other. exact Hn.
Qed.

Lemma decode_items n (IH : decodes Γ ctx h0 n) :
  ∀ penc porig k inner vs bits,
  legal_items Γ ctx h0 n penc porig k inner vs bits →
  ∀ (js : list nat) acc s hd pdec,
    length js = length vs →
    above ctx h0 hd → copy_view Γ hd pdec porig → stream_at s bits k →
    ∃ hd' vs' s',
      for_each (λ '(acc, stream) (_ : nat),
          '(item, stream) ← bftype_from_bitstream Γ n inner stream pdec ctx;
          mret (acc ++ [item], stream)) (acc, s) js hd
        = (hd', Ret (acc ++ vs', s')) ∧
      (∃ t, hd' = hd ++ t) ∧
      advanced s s' (length bits) ∧
      Forall2 (λ v' v, ∃ m, copy_of m Γ hd' v' v) vs' vs.
Proof.
  intros penc porig k inner vs bits H.
  induction H as [n penc porig k inner|n penc porig k inner v vs b bs Hv Hvs IHvs];
    intros js acc s hd pdec Hjs Hab Hcv Hst.
  - destruct js; [|discriminate]. exists hd, [], s.
    simpl. rewrite app_nil_r. split; [reflexivity|].
    split; [exists []; rewrite app_nil_r; reflexivity|].
    split; [split; [reflexivity|simpl; lia]|constructor].
  - destruct js as [|j js]; [discriminate|]. simpl in Hjs.
    apply stream_at_app in Hst as [Hst1 Hst2].
    destruct (IH _ _ _ _ _ _ Hv hd s pdec Hab Hcv Hst1)
      as (hd1 & v' & s1 & E1 & [t1 ->] & Had1 & [m1 Hc1]).
    destruct (IHvs IH js (acc ++ [v']) s1 (hd ++ t1) pdec)
      as (hd2 & vs' & s2 & E2 & [t2 ->] & Had2 & Hc2).
    { lia. }
    { apply above_ext. exact Hab. }
    { apply copy_view_ext. exact Hcv. }
    { apply Hst2. exact Had1. }
    exists ((hd ++ t1) ++ t2), (v' :: vs'), s2.
    split; [|split; [|split]].
    + cbn [for_each]. erewrite bind_M_ret.
      * rewrite E2, <- (app_assoc acc). reflexivity.
      * cbn beta iota. erewrite bind_M_ret; [|exact E1]. reflexivity.
    + exists (t1 ++ t2). rewrite app_assoc. reflexivity.
    + destruct Had1 as [B1 O1], Had2 as [B2 O2]. split; [congruence|].
      rewrite O2, O1, length_app. lia.
    + constructor; [|exact Hc2]. exists m1. apply copy_of_ext. exact Hc1.
Qed.

Lemma good_step hd t pdec penc name v' v m n0 :
  dict_get name penc = Some v →
  copy_of m Γ (hd ++ t) v' v →
  good Γ hd pdec penc n0 →
  good Γ (hd ++ t) (dict_set name v' pdec) penc n0.
Proof.
  intros Hv Hc (a' & a & Ha' & Ha & m0 & Hc0).
  destruct (decide (name = n0)) as [<-|Hne].
  - exists v', v. rewrite dict_get_set_eq. eauto.
  - exists a', a. rewrite dict_get_set_ne by exact Hne.
    split; [exact Ha'|]. split; [exact Ha|]. exists m0. apply copy_of_ext. exact Hc0.
Qed.

Lemma decode_fields n cls (IH : decodes Γ ctx h0 n) :
  ∀ penc porig fields bits,
  legal_fields Γ ctx h0 n penc porig fields bits →
  ∀ done pdec s hd,
    above ctx h0 hd → copy_view Γ hd pdec porig → stream_at s bits 0 →
    Forall (good Γ hd pdec penc) done →
    ∃ hd' pdec' s',
      for_each (λ '(proxy, stream) '(name, field),
          '(value, stream) ←
            in_field name cls
              (bftype_from_bitstream Γ n field stream proxy ctx);
          mret (dict_set name value proxy, stream)) (pdec, s) fields hd
        = (hd', Ret (pdec', s')) ∧
      (∃ t, hd' = hd ++ t) ∧
      advanced s s' (length bits) ∧
      Forall (good Γ hd' pdec' penc) (done ++ fields.*1).
Proof.
  intros penc porig fields bits H.
  induction H as [n penc porig|n penc porig name field rest v b bs Hv Hf Hrest IHrest];
    intros done pdec s hd Hab Hcv Hst Hdone.
  - exists hd, pdec, s. split; [reflexivity|].
    split; [exists []; rewrite app_nil_r; reflexivity|].
    split; [split; [reflexivity|simpl; lia]|].
    simpl. rewrite app_nil_r. exact Hdone.
  - apply stream_at_app in Hst as [Hst1 Hst2]. rewrite Nat.add_0_r in Hst1.
    destruct (IH _ _ _ _ _ _ Hf hd s pdec Hab Hcv Hst1)
      as (hd1 & v' & s1 & E1 & [t1 ->] & Had1 & [m1 Hc1]).
    destruct (IHrest IH (done ++ [name]) (dict_set name v' pdec) s1 (hd ++ t1))
      as (hd2 & pdec2 & s2 & E2 & [t2 ->] & Had2 & Hgood).
    { apply above_ext. exact Hab. }
    { apply copy_view_set; [apply copy_view_ext; exact Hcv|eauto]. }
    { apply Hst2. exact Had1. }
    { apply Forall_app. split.
      - eapply Forall_impl; [|exact Hdone]. intros n0. eapply good_step; eauto.
      - constructor; [|constructor]. exists v', v. rewrite dict_get_set_eq. eauto. }
    exists ((hd ++ t1) ++ t2), pdec2, s2.
    split; [|split; [|split]].
    + cbn [for_each]. erewrite bind_M_ret; [exact E2|].
      cbn beta iota. erewrite bind_M_ret; [|apply in_field_ret; exact E1].
      reflexivity.
    + exists (t1 ++ t2). rewrite app_assoc. reflexivity.
    + destruct Had1 as [B1 O1], Had2 as [B2 O2]. split; [congruence|].
      rewrite O2, O1, length_app. lia.
    + rewrite fmap_cons. simpl. rewrite <- (app_assoc done) in Hgood. exact Hgood.
Qed.

Lemma decode_record n cls cd l o acc (IH : decodes Γ ctx h0 n) :
  h0 !! l = Some o → obj_class o = cls → dict_get cls Γ = Some cd →
  dict_get "bitfield_context" (cls_fields cd) = None →
  legal_fields Γ ctx h0 n (dict_set "bitfield_context" ctx (obj_dict o))
    [("bitfield_context", ctx)] (cls_fields cd) acc →
  Bits.valid_order (cls_reorder cd) (length acc) →
  ∀ hd, above ctx h0 hd →
  ∃ hd' l',
    from_bits_with Γ (bftype_from_bitstream Γ n) cls
      (Bits.unreorder (cls_reorder cd) acc) ctx hd = (hd', Ret (VRef l')) ∧
    (∃ t, hd' = hd ++ t) ∧
    ∃ m, copy_of m Γ hd' (VRef l') (VRef l).
Proof.
  intros Hl Hcls Hcd Hnc Hf Hord hd Hab.
  destruct (decode_fields n cls IH _ _ _ _ Hf [] [("bitfield_context", ctx)]
              (BitStream.Make acc 0) hd Hab)
    as (hd1 & pdec & s1 & E1 & [t1 ->] & [Hbuf Hoff] & Hgood).
  { constructor; [|constructor]. split; [reflexivity|]. left. reflexivity. }
  { split; simpl; [lia|]. rewrite drop_0. apply firstn_all. }
  { constructor. }
  simpl in Hgood, Hbuf, Hoff.
  destruct (init_dict_total pdec (cls_fields cd) []) as [attrs Hattrs].
  { eapply Forall_impl; [|exact Hgood]. intros name (a' & _ & Ha' & _). eauto. }
  exists ((hd ++ t1) ++ [Obj cls attrs]), (length (hd ++ t1)).
  split; [|split].
  - assert (E : from_bitstream_with Γ (bftype_from_bitstream Γ n) cls
               (BitStream.of_bits (Bits.unreorder (cls_reorder cd) acc)) ctx hd
             = ((hd ++ t1) ++ [Obj cls attrs], Ret (VRef (length (hd ++ t1)), s1))).
    { unfold from_bitstream_with, get_class. rewrite Hcd.
      rewrite bind_mret. cbv zeta.
      unfold BitStream.reorder, BitStream.of_bits. cbn [BitStream.buffer].
      rewrite (reorder_unreorder _ _ Hord).
      erewrite bind_M_ret; [|exact E1]. cbn beta iota.
      erewrite bind_M_ret; [|exact (Bitfield_init_spec _ _ _ _ _ _ Hcd Hattrs)].
      reflexivity. }
    unfold from_bits_with. erewrite bind_M_ret; [|exact E].
    cbn beta iota. unfold BitStream.remaining. rewrite Hbuf, Hoff, Nat.sub_diag.
    reflexivity.
  - exists (t1 ++ [Obj cls attrs]). rewrite app_assoc. reflexivity.
  - destruct (above_lookup ((hd ++ t1) ++ [Obj cls attrs]) l o) as
      (oh & Hoh & Hclsh & Hdict); [do 2 apply above_ext; exact Hab|exact Hl|].
    destruct (Forall_copy_max Γ (hd ++ t1) _ _ _ Hgood) as [m Hm].
    exists (S m). simpl. exists (Obj cls attrs), oh, cd.
    split; [apply list_lookup_middle; reflexivity|].
    split; [exact Hoh|].
    split; [simpl; congruence|].
    split; [congruence|].
    apply list.Forall_forall. intros name Hin.
    rewrite list.Forall_forall in Hm.
    destruct (Hm name Hin) as (a' & a & Ha' & Ha & Hc).
    assert (Hne : name ≠ "bitfield_context").
    { intros ->. exact (dict_get_None_not_in _ _ Hnc Hin). }
    exists a', a. split; [|split].
    + simpl. eapply init_dict_get; [exact Hattrs|exact Ha'|left; exact Hin].
    + rewrite (Hdict name Hne). rewrite dict_get_set_ne in Ha by congruence. exact Ha.
    + apply copy_of_ext. exact Hc.
Qed.

Lemma advanced_refl s : advanced s s 0.
Proof. split; [reflexivity|lia]. Qed.

Lemma heap_ext_refl (hd : heap) : ∃ t, hd = hd ++ t.
Proof. exists []. rewrite app_nil_r. reflexivity. Qed.

Lemma legal_decodes n : decodes Γ ctx h0 n.
Proof.
  induction n as [|n IH]; intros penc porig k F v bits H hd s pdec Hab Hcv Hst;
    inversion H; subst; rewrite bftype_from_bitstream_S.
  - (* bits *)
    rewrite bind_lift, (stream_at_take _ _ _ Hst).
    eexists hd, _, _. split; [reflexivity|].
    split; [apply heap_ext_refl|]. split; [split; reflexivity|].
    exists 1. reflexivity.
  - (* list *)
    match goal with Hi : legal_items _ _ _ _ _ _ _ _ _ _ |- _ =>
      destruct (decode_items n IH _ _ _ _ _ _ Hi (seq 0 (length vs)) [] s hd pdec
                  (length_seq _ _) Hab Hcv Hst)
        as (hd1 & vs' & s1 & E1 & Hext & Had & Hc) end.
    destruct (Forall2_copy_max _ _ _ _ Hc) as [m Hm].
    exists hd1, (VList vs'), s1. split; [|split; [exact Hext|split; [exact Had|]]].
    + erewrite bind_M_ret; [|exact E1]. reflexivity.
    + exists (S m). exact Hm.
  - (* map *)
    match goal with Hi : legal _ _ _ n _ _ _ _ _ _ |- _ =>
      destruct (IH _ _ _ _ _ _ Hi hd s pdec Hab Hcv Hst)
        as (hd1 & u' & s1 & E1 & Hext & Had & Hc) end.
    match goal with Hf : ∀ h u', _ → ∃ v', forward vm u' = _ ∧ _ |- _ =>
      destruct (Hf hd1 u' Hc) as (v' & Hfw & Hcv') end.
    exists hd1, v', s1. split; [|split; [exact Hext|split; [exact Had|exact Hcv']]].
    erewrite bind_M_ret; [|exact E1]. cbn beta iota.
    rewrite bind_lift, Hfw. reflexivity.
  - (* dyn *)
    match goal with Hf : ∀ h pdec, _ → ∃ dz', fn pdec = _ ∧ _ |- _ =>
      destruct (Hf hd pdec Hcv) as (dz' & Hfn & Hun) end.
    rewrite bind_lift, Hfn, bind_lift, Hun.
    match goal with Hi : legal _ _ _ n _ _ _ _ _ _ |- _ =>
      exact (IH _ _ _ _ _ _ Hi hd s pdec Hab Hcv Hst) end.
  - (* dyn_n *)
    match goal with Hf : ∀ h pdec, _ → ∃ dz', fn pdec _ = _ ∧ _ |- _ =>
      destruct (Hf hd pdec Hcv) as (dz' & Hfn & Hun) end.
    assert (Hrem : BitStream.remaining s = length bits + k).
    { destruct Hst as [Hlen _]. unfold BitStream.remaining. lia. }
    rewrite Hrem, bind_lift, Hfn, bind_lift, Hun.
    match goal with Hi : legal _ _ _ n _ _ _ _ _ _ |- _ =>
      exact (IH _ _ _ _ _ _ Hi hd s pdec Hab Hcv Hst) end.
  - (* literal *)
    match goal with Hi : legal _ _ _ n _ _ _ _ _ _ |- _ =>
      destruct (IH _ _ _ _ _ _ Hi hd s pdec Hab Hcv Hst)
        as (hd1 & v' & s1 & E1 & Hext & Had & [m Hc]) end.
    match goal with Hp : prim v = true |- _ =>
      pose proof (copy_of_prim _ _ _ _ _ Hp Hc) as -> end.
    exists hd1, v, s1. split; [|split; [exact Hext|split; [exact Had|eauto]]].
    erewrite bind_M_ret; [|exact E1]. cbn beta iota.
    rewrite bind_M. unfold py_ne.
    match goal with He : ∀ h, py_eq n Γ h v _ = Ret true |- _ =>
      rewrite He end.
    reflexivity.
  - (* none *)
    exists hd, VNone, s. split; [reflexivity|].
    split; [apply heap_ext_refl|]. split; [apply advanced_refl|].
    exists 1. reflexivity.
  - (* record *)
    rewrite <- (unreorder_length (cls_reorder cd) acc).
    rewrite bind_lift, (stream_at_take _ _ _ Hst).
    match goal with Hl : h0 !! l = Some o, Hcd : dict_get _ Γ = Some cd,
        Hnc : dict_get "bitfield_context" _ = None,
        Hf : legal_fields _ _ _ _ _ _ _ _,
        Hord : Bits.valid_order _ _ |- _ =>
      destruct (decode_record n _ cd l o acc IH Hl eq_refl Hcd Hnc Hf Hord hd Hab)
        as (hd1 & l' & E1 & Hext & Hc) end.
    exists hd1, (VRef l'), (BitStream.Make (BitStream.buffer s)
      (BitStream.offset s + length (Bits.unreorder (cls_reorder cd) acc))).
    split; [|split; [exact Hext|split; [split; reflexivity|exact Hc]]].
    unfold from_bits. erewrite bind_M_ret; [|exact E1]. reflexivity.
Qed.

End Decodes.

(** ** Integer fields are legal *)

Lemma int_bits_S z w :
  int_bits z (S w) = Z.testbit z (Z.of_nat w) :: int_bits z w.
Proof.
  unfold int_bits. cbn [seq]. rewrite fmap_cons. f_equal.
  - f_equal. lia.
  - rewrite <- seq_shift, map_map. apply map_ext. intros i. f_equal. lia.
Qed.

Lemma testbit_split z w :
  (0 ≤ w)%Z →
  (z mod 2 ^ (w + 1) = Z.b2z (Z.testbit z w) * 2 ^ w + z mod 2 ^ w)%Z.
Proof.
  intros Hw. rewrite Z.pow_add_r, Z.pow_1_r by lia.
  rewrite Z.rem_mul_r by lia.
  rewrite Z.testbit_spec' by lia. lia.
Qed.

Lemma to_int_int_bits z w : ∀ a,
  foldl (λ acc x, (2 * acc + Z.b2z x)%Z) a (int_bits z w)
  = (a * 2 ^ Z.of_nat w + z mod 2 ^ Z.of_nat w)%Z.
Proof.
  induction w as [|w IH]; intros a.
  - simpl. rewrite Z.mod_1_r. lia.
  - rewrite int_bits_S. cbn [foldl]. rewrite IH.
    replace (Z.of_nat (S w)) with (Z.of_nat w + 1)%Z by lia.
    rewrite (testbit_split z (Z.of_nat w)) by lia.
    rewrite Z.pow_add_r, Z.pow_1_r by lia. lia.
Qed.

Lemma to_int_from_int z w :
  out_of_range z w = false → Bits.to_int (int_bits z w) = z.
Proof.
  intros Hr. unfold Bits.to_int. rewrite to_int_int_bits.
  unfold out_of_range in Hr. apply orb_false_iff in Hr as [H1 H2].
  rewrite Z.mod_small by lia. lia.
Qed.

Lemma legal_bf_int Γ ctx h0 n penc porig k w d z :
  out_of_range z w = false →
  legal Γ ctx h0 (S (S n)) penc porig k (bf_int w d) (VInt z) (int_bits z w).
Proof.
  intros Hr. unfold bf_int, bf_map, bf_bits.
  apply legal_map with (u := VBits (int_bits z w)).
  - simpl. rewrite from_int_spec, Hr. reflexivity.
  - apply legal_bits. unfold int_bits. rewrite length_fmap, length_seq. reflexivity.
  - intros h u' [m Hc]. apply copy_of_prim in Hc as ->; [|reflexivity].
    exists (VInt z). split; [simpl; rewrite (to_int_from_int _ _ Hr); reflexivity|].
    exists 1. reflexivity.
Qed.

(** ** The round trip of legal instances *)

(** C1, amended: for every schema and every instance [x] of it that is
    legal ([legal_instance]: every bit field holds a buffer of the declared
    width, every list the declared number of legal items, the [forward] of
    every mapper undoes its [back] on the encoded value, every dynamic
    field resolves when decoding, from the siblings decoded so far and the
    count of unread bits, to the descriptor used when encoding, every
    literal holds a plain value equal to its default, every nested record
    is a legal instance of the declared class and width, and the reorder of
    each class is a valid order), [x.to_bits()] returns its encoding and
    [S.from_bits(x.to_bits())] returns an instance that [==] finds equal to
    [x]. *)
Theorem round_trip Γ ctx h0 n x cls bits :
  obj_class <$> h0 !! x = Some cls →
  legal_instance Γ ctx h0 n x bits →
  ∃ h1, to_bits Γ n x ctx h0 = (h1, Ret bits) ∧
    ∃ h2 y m,
      from_bits Γ n cls bits ctx h1 = (h2, Ret (VRef y)) ∧
      py_eq m Γ h2 (VRef y) (VRef x) = Ret true.
Proof.
  intros Hcls (o & cd & acc & Hl & Hcd & Hnc & Hf & Hord & ->).
  rewrite Hl in Hcls. injection Hcls as <-.
  destruct (to_bits_legal Γ ctx h0 n x o cd acc (legal_encodes Γ ctx h0 n)
              Hl Hcd Hf h0 (marks_refl _ _)) as (h1 & E1 & Hm).
  exists h1. split; [exact E1|].
  destruct (decode_record Γ ctx h0 n (obj_class o) cd x o acc
              (legal_decodes Γ ctx h0 n) Hl eq_refl Hcd Hnc Hf Hord h1)
    as (h2 & y & E2 & _ & m & Hc).
  { exists h1, []. rewrite app_nil_r. auto. }
  exists h2, y, m. split; [exact E2|].
  apply copy_of_py_eq. exact Hc.
Qed.

Lemma round_trip_witness :
  ∃ h1,
    to_bits classes 3 0 VNone (packed_heap 5 9)
      = (h1, Ret [true; false; true; false; true; false; false; true]) ∧
    ∃ h2 y m,
      from_bits classes 3 "Packed"
        [true; false; true; false; true; false; false; true] VNone h1
        = (h2, Ret (VRef y)) ∧
      py_eq m classes h2 (VRef y) (VRef 0) = Ret true.
Proof.
  apply (round_trip classes VNone (packed_heap 5 9) 3 0 "Packed"); [reflexivity|].
  exists (Obj "Packed" [("a", VInt 5); ("b", VInt 9)]), Packed,
    [true; false; true; false; true; false; false; true].
  split; [reflexivity|]. split; [reflexivity|]. split; [reflexivity|].
  split; [|split; [split; [constructor|simpl; lia]|reflexivity]].
  apply (legal_fields_cons _ _ _ _ _ _ "a" (bf_int 3 None) _ (VInt 5)
           [true; false; true] [false; true; false; false; true]);
    [reflexivity|exact (legal_bf_int _ _ _ 1 _ _ _ 3 None 5 eq_refl)|].
  apply (legal_fields_cons _ _ _ _ _ _ "b" (bf_int 5 None) _ (VInt 9)
           [false; true; false; false; true] []);
    [reflexivity|exact (legal_bf_int _ _ _ 1 _ _ _ 5 None 9 eq_refl)|].
  apply legal_fields_nil.
Defined.

(** C1 as stated fails: the instance [{reply_status: 0, body: None}] of
    [Reply] (the shape of [ReadRFChReplyBody] of [rfchannel.py]) holds in
    every field a value its descriptor encodes, and [to_bits] returns eight
    zero bits; decoding them never returns an instance, whatever the fuel:
    the discriminator sees a successful status and no unread bit, and
    raises. *)
Lemma round_trip_fails_on_absent_body :
  to_bits classes 3 0 VNone reply_heap
    = ([mark VNone (Obj "Reply" [("reply_status", VInt 0); ("body", VNone)])],
       Ret (replicate 8 false)) ∧
  ∀ fuel h2 y,
    from_bits classes fuel "Reply" (replicate 8 false) VNone
      [mark VNone (Obj "Reply" [("reply_status", VInt 0); ("body", VNone)])]
    ≠ (h2, Ret y).
Proof.
  split; [reflexivity|].
  intros [|[|fuel]] h2 y E; vm_compute in E; discriminate.
Qed.

(* ================================================================= *)
(** * Part III: further properties of the code *)
(* ================================================================= *)

(** ** Static descriptors encode to their declared length *)

Lemma py_iter_length v len items :
  py_len v = Ret len → py_iter v = Ret items → length items = len.
Proof.
  destruct v; simpl; intros [= <-] [= <-]; rewrite ?length_fmap; reflexivity.
Qed.

Lemma Bits_new_length v len bits :
  py_len v = Ret len → Bits_new v = Ret bits → length bits = len.
Proof. destruct v; simpl; intros [= <-] [= <-]; reflexivity. Qed.

Section Static.
Context (Γ : class_table).

Lemma encode_items_length (rec : value → M Bits.t) il :
  (∀ item h h' bits, rec item h = (h', Ret bits) → length bits = il) →
  ∀ items acc h h' r,
    for_each (λ acc item, bits ← rec item; mret (acc ++ bits)) acc items h
      = (h', Ret r) →
    length r = length acc + length items * il.
Proof.
  intros Hrec. induction items as [|x items IH]; intros acc h h' r E; cbn [for_each] in E.
  - inversion E; subst. simpl. lia.
  - apply bind_M_inv in E as (acc' & h1 & E1 & E2).
    apply bind_M_inv in E1 as (bits & h2 & E1 & E3). inversion E3; subst.
    apply IH in E2. apply Hrec in E1. rewrite E2, length_app, E1. simpl. lia.
Qed.

Lemma bftype_to_bits_length fuel : ∀ F v p ctx h h' bits L,
  bftype_length F = Some L →
  bftype_to_bits Γ fuel F v p ctx h = (h', Ret bits) →
  length bits = L.
Proof.
  induction fuel as [|fuel IH]; intros F v p ctx h h' bits L HL E; [discriminate|].
  rewrite bftype_to_bits_S in E. destruct F; simpl in HL.
  - injection HL as <-.
    apply bind_M_inv in E as (len & h1 & E1 & E2). apply lift_inv in E1 as [-> E1].
    destruct (len =? n) eqn:Hn; cbn [negb] in E2; [|discriminate].
    apply lift_inv in E2 as [_ E2]. apply Nat.eqb_eq in Hn as <-.
    eapply Bits_new_length; eauto.
  - destruct (bftype_length F) as [il|] eqn:Hil; [|discriminate]. injection HL as <-.
    apply bind_M_inv in E as (len & h1 & E1 & E2). apply lift_inv in E1 as [-> E1].
    destruct (len =? n) eqn:Hn; cbn [negb] in E2; [|discriminate].
    apply Nat.eqb_eq in Hn as ->.
    apply bind_M_inv in E2 as (items & h2 & E2 & E3). apply lift_inv in E2 as [-> E2].
    apply (encode_items_length (λ item, bftype_to_bits Γ fuel F item p ctx) il) in E3.
    + rewrite E3. simpl. rewrite (py_iter_length _ _ _ (eq_sym E1) (eq_sym E2)). reflexivity.
    + intros item h0 h0' bits0. apply IH. exact Hil.
  - apply bind_M_inv in E as (u & h1 & E1 & E2). eapply IH; eauto.
  - discriminate.
  - discriminate.
  - apply bind_M_inv in E as (b & h1 & E1 & E2).
    destruct b; [discriminate|]. eapply IH; eauto.
  - injection HL as <-. destruct v; inversion E; subst. reflexivity.
  - injection HL as <-. destruct v; try discriminate.
    apply bind_M_inv in E as (out & h1 & E1 & E2).
    destruct (length out =? n) eqn:Hn; cbn [negb] in E2; [|discriminate].
    inversion E2; subst. apply Nat.eqb_eq. exact Hn.
Qed.

Lemma encode_fields_length fuel self cls ctx : ∀ fields acc h h' r L,
  length_loop (length acc) fields.*2 = Some L →
  for_each (λ acc '(name, field),
      value ← getattr (class_attr Γ) self name;
      bits ← in_field name cls (bftype_to_bits Γ fuel field value self ctx);
      mret (acc ++ bits)) acc fields h = (h', Ret r) →
  length r = L.
Proof.
  induction fields as [|[name field] fields IH]; intros acc h h' r L HL E;
    simpl in HL; cbn [for_each] in E.
  - inversion E; subst. congruence.
  - destruct (bftype_length field) as [fl|] eqn:Hfl; [|discriminate].
    apply bind_M_inv in E as (acc' & h1 & E1 & E2).
    apply bind_M_inv in E1 as (v & h2 & E1 & E3).
    apply bind_M_inv in E3 as (bits & h3 & E3 & E4). inversion E4; subst.
    unfold in_field in E3.
    destruct (bftype_to_bits Γ fuel field v self ctx h2) as [h4 [b4| |]] eqn:E5;
      inversion E3; subst.
    apply (bftype_to_bits_length _ _ _ _ _ _ _ _ _ Hfl) in E5.
    eapply IH; [|exact E2]. rewrite length_app, E5. exact HL.
Qed.

Lemma to_bits_length fuel x ctx h h' bits o cd L :
  h !! x = Some o →
  dict_get (obj_class o) Γ = Some cd →
  Bitfield_length (cls_fields cd) = Some L →
  to_bits Γ fuel x ctx h = (h', Ret bits) →
  length bits = L.
Proof.
  intros Hx Hcd HL E. unfold to_bits, to_bits_with in E.
  apply bind_M_inv in E as (u & h1 & E1 & E2).
  unfold setattr in E1. rewrite Hx in E1. inversion E1; subst h1 u. clear E1.
  apply bind_M_inv in E2 as (o1 & h1 & E1 & E2).
  unfold get_object in E1.
  rewrite list_lookup_insert_eq in E1 by (eapply lookup_lt_Some; eauto).
  inversion E1; subst o1 h1. clear E1. cbn [obj_class] in E2.
  unfold get_class in E2. rewrite Hcd, bind_mret in E2.
  apply bind_M_inv in E2 as (acc & h2 & E2 & E3). inversion E3; subst.
  rewrite unreorder_length.
  eapply encode_fields_length; [|exact E2]. exact HL.
Qed.

(** X1: a record whose class has a static length always encodes to
    exactly that many bits: when [cls.length()] is [L], every successful
    [x.to_bits()] returns [L] bits, whatever the values of the fields. *)
Theorem to_bits_static_length fuel x ctx h h' bits o cd L :
  h !! x = Some o →
  dict_get (obj_class o) Γ = Some cd →
  Bitfield_length (cls_fields cd) = Some L →
  to_bits Γ fuel x ctx h = (h', Ret bits) →
  length bits = L.
Proof. apply to_bits_length. Qed.

End Static.

Lemma to_bits_static_length_witness :
  length [true; false; true; false; true; false; false; true] = 8.
Proof.
  apply (to_bits_static_length classes 3 0 VNone (packed_heap 5 9)
           [mark VNone (Obj "Packed" [("a", VInt 5); ("b", VInt 9)])]
           [true; false; true; false; true; false; false; true]
           (Obj "Packed" [("a", VInt 5); ("b", VInt 9)]) Packed 8);
    reflexivity.
Defined.

(** ** Static descriptors decode from their declared length *)

Lemma advanced_trans s1 s2 s3 n m :
  advanced s1 s2 n → advanced s2 s3 m → advanced s1 s3 (n + m).
Proof. intros [B1 O1] [B2 O2]. split; [congruence|lia]. Qed.

Lemma take_advanced n s sub s' :
  BitStream.take n s = Ret (sub, s') → advanced s s' n.
Proof. intros H. apply take_inv in H as (_ & -> & _). split; reflexivity. Qed.

Section StaticDecode.
Context (Γ : class_table).

Lemma decode_items_advanced (rec : BitStream.t → M (value * BitStream.t)) il :
  (∀ s h h' v s', rec s h = (h', Ret (v, s')) → advanced s s' il) →
  ∀ (js : list nat) acc s h h' acc' s',
    for_each (λ '(acc, stream) (_ : nat),
        '(item, stream) ← rec stream;
        mret (acc ++ [item], stream)) (acc, s) js h = (h', Ret (acc', s')) →
    advanced s s' (length js * il).
Proof.
  intros Hrec. induction js as [|j js IH]; intros acc s h h' acc' s' E;
    cbn [for_each] in E.
  - inversion E; subst. apply advanced_refl.
  - apply bind_M_inv in E as ([acc1 s1] & h1 & E1 & E2).
    apply bind_M_inv in E1 as ([item s2] & h2 & E1 & E3). inversion E3; subst.
    apply IH in E2. apply Hrec in E1. simpl.
    eapply advanced_trans; eauto.
Qed.

Lemma bftype_from_bitstream_advanced fuel : ∀ F s proxy ctx h h' v s' L,
  bftype_length F = Some L →
  bftype_from_bitstream Γ fuel F s proxy ctx h = (h', Ret (v, s')) →
  advanced s s' L.
Proof.
  induction fuel as [|fuel IH]; intros F s proxy ctx h h' v s' L HL E;
    [discriminate|].
  rewrite bftype_from_bitstream_S in E. destruct F; simpl in HL.
  - injection HL as <-.
    apply bind_M_inv in E as ([sub s1] & h1 & E1 & E2).
    apply lift_inv in E1 as [-> E1]. inversion E2; subst.
    eapply take_advanced; eauto.
  - destruct (bftype_length F) as [il|] eqn:Hil; [|discriminate]. injection HL as <-.
    apply bind_M_inv in E as ([acc s1] & h1 & E1 & E2). inversion E2; subst.
    apply (decode_items_advanced
             (λ stream, bftype_from_bitstream Γ fuel F stream proxy ctx) il) in E1.
    + rewrite length_seq in E1. exact E1.
    + intros s0 h0 h0' v0 s0'. apply IH. exact Hil.
  - apply bind_M_inv in E as ([u s1] & h1 & E1 & E2).
    apply bind_M_inv in E2 as (out & h2 & E2 & E3). inversion E3; subst.
    eapply IH; eauto.
  - discriminate.
  - discriminate.
  - apply bind_M_inv in E as ([u s1] & h1 & E1 & E2).
    apply bind_M_inv in E2 as (b & h2 & E2 & E3).
    destruct b; [discriminate|]. inversion E3; subst. eapply IH; eauto.
  - injection HL as <-. inversion E; subst. apply advanced_refl.
  - injection HL as <-.
    apply bind_M_inv in E as ([sub s1] & h1 & E1 & E2).
    apply lift_inv in E1 as [-> E1].
    apply bind_M_inv in E2 as (out & h2 & E2 & E3). inversion E3; subst.
    eapply take_advanced; eauto.
Qed.

Lemma decode_fields_advanced fuel cls ctx : ∀ fields proxy s h h' proxy' s' a L,
  length_loop a fields.*2 = Some L →
  for_each (λ '(proxy, stream) '(name, field),
      '(value, stream) ←
        in_field name cls (bftype_from_bitstream Γ fuel field stream proxy ctx);
      mret (dict_set name value proxy, stream)) (proxy, s) fields h
    = (h', Ret (proxy', s')) →
  advanced s s' (L - a) ∧ a ≤ L.
Proof.
  induction fields as [|[name field] fields IH];
    intros proxy s h h' proxy' s' a L HL E; simpl in HL; cbn [for_each] in E.
  - inversion E; subst. injection HL as <-. rewrite Nat.sub_diag.
    split; [apply advanced_refl|lia].
  - destruct (bftype_length field) as [fl|] eqn:Hfl; [|discriminate].
    apply bind_M_inv in E as ([proxy1 s1] & h1 & E1 & E2).
    apply bind_M_inv in E1 as ([v s2] & h2 & E1 & E3). inversion E3; subst.
    unfold in_field in E1.
    destruct (bftype_from_bitstream Γ fuel field s proxy ctx h) as [h4 [[v4 s4]| |]] eqn:E5;
      inversion E1; subst.
    apply (bftype_from_bitstream_advanced _ _ _ _ _ _ _ _ _ _ Hfl) in E5.
    destruct (IH _ _ _ _ _ _ _ _ HL E2) as [Had Hle].
    split; [|lia].
    replace (L - a) with (fl + (L - (a + fl))) by lia.
    eapply advanced_trans; eauto.
Qed.

Lemma from_bits_length fuel cls cd bits ctx h h' v L :
  dict_get cls Γ = Some cd →
  Bitfield_length (cls_fields cd) = Some L →
  from_bits Γ fuel cls bits ctx h = (h', Ret v) →
  length (Bits.reorder (cls_reorder cd) bits) = L ∧
  (length (cls_reorder cd) ≤ length bits → length bits = L).
Proof.
  intros Hcd HL E.
  assert (length (Bits.reorder (cls_reorder cd) bits) = L) as Hlen.
  { unfold from_bits, from_bits_with in E.
    apply bind_M_inv in E as ([out s1] & h1 & E1 & E2).
    destruct (BitStream.remaining s1 =? 0) eqn:Hrem; [|discriminate].
    apply Nat.eqb_eq in Hrem.
    pose proof (from_bitstream_stream Γ fuel cls bits ctx h h1 out s1 E1)
      as (cd' & Hcd' & Hbuf & Hoff).
    rewrite Hcd in Hcd'. injection Hcd' as <-.
    unfold from_bitstream_with, get_class in E1. rewrite Hcd, bind_mret in E1.
    cbv zeta in E1.
    apply bind_M_inv in E1 as ([proxy s2] & h2 & E1 & E3).
    apply bind_M_inv in E3 as (self & h3 & E3 & E4). inversion E4; subst.
    apply (decode_fields_advanced _ _ _ _ _ _ _ _ _ _ 0 L HL) in E1 as [[_ Ho] _].
    simpl in Ho. unfold BitStream.remaining in Hrem. rewrite Hbuf in *. lia. }
  split; [exact Hlen|]. intros HP. rewrite reorder_length in Hlen; auto.
Qed.

(** X2: a class with a static length decodes only buffers of exactly that
    length: when [cls.length()] is [L] and [cls.from_bits(bits)] returns an
    instance, the buffer the fields were read from, [bits] reordered, has
    [L] bits, and so has [bits] when the reorder sequence is no longer
    than it.  On any other length [from_bits] fails. *)
Theorem from_bits_static_length fuel cls cd bits ctx h h' v L :
  dict_get cls Γ = Some cd →
  Bitfield_length (cls_fields cd) = Some L →
  from_bits Γ fuel cls bits ctx h = (h', Ret v) →
  length (Bits.reorder (cls_reorder cd) bits) = L ∧
  (length (cls_reorder cd) ≤ length bits → length bits = L).
Proof. apply from_bits_length. Qed.

End StaticDecode.

Lemma from_bits_static_length_witness :
  length (Bits.reorder [] [true; false; true; false; true; false; false; true]) = 8 ∧
  (0 ≤ 8 → length [true; false; true; false; true; false; false; true] = 8).
Proof.
  apply (from_bits_static_length classes 3 "Packed" Packed
           [true; false; true; false; true; false; false; true] VNone []
           [Obj "Packed" [("a", VInt 5); ("b", VInt 9)]] (VRef 0) 8);
    reflexivity.
Defined.

(** ** Decoding only allocates *)

Lemma grows_refl (h : heap) : h `prefix_of` h.
Proof. reflexivity. Qed.

Lemma grows_trans (h1 h2 h3 : heap) :
  h1 `prefix_of` h2 → h2 `prefix_of` h3 → h1 `prefix_of` h3.
Proof. intros H1 H2. etrans; eauto. Qed.

Lemma setattr_new h o name v h' r :
  setattr (length h) name v (h ++ [o]) = (h', r) → ∃ o', h' = h ++ [o'].
Proof.
  unfold setattr. rewrite list_lookup_middle by reflexivity.
  intros [= <- _]. rewrite insert_app_r_alt by lia. rewrite Nat.sub_diag.
  simpl. eauto.
Qed.

Lemma init_loop_new kwargs h self_fields : ∀ o h' r,
  for_each (λ (_ : unit) '(name, field),
    value ← match dict_get name kwargs with
            | Some v => mret v
            | None =>
                match bftype_default field with
                | Some d => mret d
                | None => raise ValueError (MsgMissingValue name)
                end
            end;
    setattr (length h) name value) () self_fields (h ++ [o]) = (h', r) →
  ∃ o', h' = h ++ [o'].
Proof.
  induction self_fields as [|[name field] fields IH]; intros o h' r E;
    cbn [for_each] in E.
  - inversion E; subst. eauto.
  - apply bind_M_cases in E as [(u & h1 & E1 & E2)|[(e & E1 & _)|(w & E1 & _)]].
    + apply bind_M_inv in E1 as (v & h2 & E1 & E3).
      assert (h2 = h ++ [o]) as ->.
      { destruct (dict_get name kwargs); [|destruct (bftype_default field)];
          inversion E1; reflexivity. }
      apply setattr_new in E3 as [o' ->]. destruct u. eapply IH. exact E2.
    + apply bind_M_cases in E1 as [(v & h2 & E1 & E3)|[(e' & E1 & _)|(w' & E1 & _)]].
      * assert (h2 = h ++ [o]) as ->.
        { destruct (dict_get name kwargs); [|destruct (bftype_default field)];
            inversion E1; reflexivity. }
        apply setattr_new in E3. exact E3.
      * destruct (dict_get name kwargs); [|destruct (bftype_default field)];
          inversion E1; eauto.
      * destruct (dict_get name kwargs); [|destruct (bftype_default field)];
          inversion E1; eauto.
    + apply bind_M_cases in E1 as [(v & h2 & E1 & E3)|[(e' & E1 & _)|(w' & E1 & _)]].
      * assert (h2 = h ++ [o]) as ->.
        { destruct (dict_get name kwargs); [|destruct (bftype_default field)];
            inversion E1; reflexivity. }
        apply setattr_new in E3. exact E3.
      * destruct (dict_get name kwargs); [|destruct (bftype_default field)];
          inversion E1; eauto.
      * destruct (dict_get name kwargs); [|destruct (bftype_default field)];
          inversion E1; eauto.
Qed.

Lemma Bitfield_init_grows Γ cls kwargs h h' r :
  Bitfield_init Γ cls kwargs h = (h', r) → h `prefix_of` h'.
Proof.
  unfold Bitfield_init, get_class.
  destruct (dict_get cls Γ) as [cd|]; [|intros [= <- _]; reflexivity].
  rewrite bind_mret. unfold alloc. rewrite bind_M. cbn beta iota.
  intros E.
  assert (∃ o', h' = h ++ [o']) as [o' ->]; [|eexists; reflexivity].
  apply bind_M_cases in E as [(u & h1 & E1 & E2)|[(e & E1 & _)|(w & E1 & _)]].
  1: inversion E2; subst h1; clear E2.
  all: eapply init_loop_new; exact E1.
Qed.

Section Grows.
Context (Γ : class_table).

Lemma from_bits_with_grows rec cls bits ctx :
  (∀ F s proxy h h' r, rec F s proxy ctx h = (h', r) → h `prefix_of` h') →
  ∀ h h' r, from_bits_with Γ rec cls bits ctx h = (h', r) → h `prefix_of` h'.
Proof.
  intros Hrec h h' r E. unfold from_bits_with in E.
  eapply bind_M_heap in E; [exact E|apply grows_trans|..].
  - intros h1 r1 E1. unfold from_bitstream_with in E1.
    eapply bind_M_heap in E1; [exact E1|apply grows_trans|..].
    + intros h2 r2 E2. apply get_class_heap in E2 as ->. reflexivity.
    + intros cd h2 h3 r3 E3. cbv zeta in E3.
      eapply bind_M_heap in E3; [exact E3|apply grows_trans|..].
      * intros h4 r4 E4.
        eapply (for_each_heap (λ h1 h2 : heap, h1 `prefix_of` h2)) in E4;
          [exact E4|apply grows_refl|apply grows_trans|].
        intros [proxy s] [name field] h5 h6 r6 _ E6.
        eapply bind_M_heap in E6; [exact E6|apply grows_trans|..].
        -- intros h7 r7 E7. eapply in_field_heap in E7; [exact E7|].
           intros h8 r8 E8. eapply Hrec. exact E8.
        -- intros [v s'] h7 h8 r8 [= <- _]. reflexivity.
      * intros [proxy s] h4 h5 r5 E5.
        eapply bind_M_heap in E5; [exact E5|apply grows_trans|..].
        -- intros h6 r6 E6. eapply Bitfield_init_grows. exact E6.
        -- intros self h6 h7 r7 [= <- _]. reflexivity.
  - intros [out s] h1 h2 r2 E2. destruct (_ =? _); inversion E2; subst; reflexivity.
Qed.

Lemma bftype_from_bitstream_grows fuel : ∀ F s proxy ctx h h' r,
  bftype_from_bitstream Γ fuel F s proxy ctx h = (h', r) → h `prefix_of` h'.
Proof.
  induction fuel as [|fuel IH]; intros F s proxy ctx h h' r E.
  - inversion E; subst. reflexivity.
  - rewrite bftype_from_bitstream_S in E. destruct F.
    + eapply bind_M_heap in E; [exact E|apply grows_trans|..].
      * intros h1 r1 E1. apply lift_heap in E1 as ->. reflexivity.
      * intros [a s1] h1 h2 r2 [= <- _]. reflexivity.
    + eapply bind_M_heap in E; [exact E|apply grows_trans|..].
      * intros h1 r1 E1.
        eapply (for_each_heap (λ h1 h2 : heap, h1 `prefix_of` h2)) in E1;
          [exact E1|apply grows_refl|apply grows_trans|].
        intros [acc s1] x h5 h6 r6 _ E6.
        eapply bind_M_heap in E6; [exact E6|apply grows_trans|..].
        -- intros h7 r7 E7. eapply IH. exact E7.
        -- intros [a' s'] h7 h8 r8 [= <- _]. reflexivity.
      * intros [a s1] h1 h2 r2 [= <- _]. reflexivity.
    + eapply bind_M_heap in E; [exact E|apply grows_trans|..].
      * intros h1 r1 E1. eapply IH. exact E1.
      * intros [a s1] h1 h2 r2 E2.
        eapply bind_M_heap in E2; [exact E2|apply grows_trans|..].
        -- intros h3 r3 E3. apply lift_heap in E3 as ->. reflexivity.
        -- intros out h3 h4 r4 [= <- _]. reflexivity.
    + eapply bind_M_heap in E; [exact E|apply grows_trans|..].
      * intros h1 r1 E1. apply lift_heap in E1 as ->. reflexivity.
      * intros d h3 h4 r4 E4.
        eapply bind_M_heap in E4; [exact E4|apply grows_trans|..].
        -- intros h5 r5 E5. apply lift_heap in E5 as ->. reflexivity.
        -- intros f h5 h6 r6 E6. eapply IH. exact E6.
    + eapply bind_M_heap in E; [exact E|apply grows_trans|..].
      * intros h1 r1 E1. apply lift_heap in E1 as ->. reflexivity.
      * intros d h3 h4 r4 E4.
        eapply bind_M_heap in E4; [exact E4|apply grows_trans|..].
        -- intros h5 r5 E5. apply lift_heap in E5 as ->. reflexivity.
        -- intros f h5 h6 r6 E6. eapply IH. exact E6.
    + eapply bind_M_heap in E; [exact E|apply grows_trans|..].
      * intros h1 r1 E1. eapply IH. exact E1.
      * intros [a s1] h1 h2 r2 E2.
        eapply bind_M_heap in E2; [exact E2|apply grows_trans|..].
        -- intros h3 r3 E3. apply (py_ne_heap Γ) in E3 as ->. reflexivity.
        -- intros b h3 h4 r4 E4. destruct b; inversion E4; subst; reflexivity.
    + inversion E; subst. reflexivity.
    + eapply bind_M_heap in E; [exact E|apply grows_trans|..].
      * intros h1 r1 E1. apply lift_heap in E1 as ->. reflexivity.
      * intros [a s1] h1 h2 r2 E2.
        eapply bind_M_heap in E2; [exact E2|apply grows_trans|..].
        -- intros h3 r3 E3. eapply from_bits_with_grows in E3; [exact E3|].
           intros F0 s0 p0 h0 h0' r0. apply IH.
        -- intros out h3 h4 r4 [= <- _]. reflexivity.
Qed.

(** X3: decoding never touches an instance that exists: whatever
    [cls.from_bits(bits)] and [cls.from_bytes(data)] return or raise, the
    store afterwards is the store before followed by the instances the
    decoding allocated. *)
Theorem from_bits_only_allocates fuel cls ctx h :
  (∀ bits h' r, from_bits Γ fuel cls bits ctx h = (h', r) →
     ∃ new, h' = h ++ new) ∧
  (∀ data h' r, from_bytes Γ fuel cls data ctx h = (h', r) →
     ∃ new, h' = h ++ new).
Proof.
  assert (∀ bits h' r, from_bits Γ fuel cls bits ctx h = (h', r) →
            ∃ new, h' = h ++ new) as H.
  { intros bits h' r E. eapply from_bits_with_grows in E; [exact E|].
    intros F s proxy h0 h0' r0. apply bftype_from_bitstream_grows. }
  split; [exact H|]. intros data h' r. apply H.
Qed.

End Grows.

(** ** Encoding allocates nothing and sets contexts only *)

(** X4: encoding leaves the store as it was but for contexts: whatever
    [x.to_bits(c)] and [x.to_bytes(c)] return or raise, no instance is
    allocated and every instance keeps its class and every attribute other
    than [bitfield_context]. *)
Theorem to_bits_frame Γ fuel x c h :
  let unchanged (h' : heap) :=
    length h' = length h ∧
    ∀ l o, h !! l = Some o →
      ∃ o', h' !! l = Some o' ∧ obj_class o' = obj_class o ∧
            ∀ name, name ≠ "bitfield_context" →
              dict_get name (obj_dict o') = dict_get name (obj_dict o) in
  unchanged (to_bits Γ fuel x c h).1 ∧ unchanged (to_bytes Γ fuel x c h).1.
Proof.
  intros unchanged.
  assert (∀ h', marks c h h' → unchanged h') as Hm.
  { intros h' [Hlen Hm]. split; [exact Hlen|]. intros l o Hl.
    destruct (Hm l o Hl) as [H|H]; [exists o; auto|].
    exists (mark c o). split; [exact H|]. split; [reflexivity|].
    intros name Hn. apply mark_lookup_other. exact Hn. }
  assert (marks c h (to_bits Γ fuel x c h).1) as Hb.
  { destruct (to_bits Γ fuel x c h) as [h' r] eqn:E.
    eapply to_bits_with_marks in E; [apply E|]. apply bftype_to_bits_marks. }
  split; apply Hm; [exact Hb|].
  unfold to_bytes. rewrite bind_M.
  destruct (to_bits Γ fuel x c h) as [h' [bits|e|w]]; exact Hb.
Qed.

(** ** What the constructor stores and when it fails *)

Lemma init_dict_other kwargs k fields : ∀ d attrs,
  init_dict kwargs fields d = Some attrs →
  k ∉ fields.*1 → dict_get k attrs = dict_get k d.
Proof.
  induction fields as [|[name field] fields IH]; intros d attrs E Hk; simpl in E.
  - injection E as <-. reflexivity.
  - destruct (arg_or_default kwargs name field) as [v|]; [|discriminate].
    rewrite fmap_cons in Hk. apply not_elem_of_cons in Hk as [Hne Hk].
    rewrite (IH _ _ E Hk). apply dict_get_set_ne. simpl in Hne. congruence.
Qed.

Lemma init_dict_field kwargs fields : ∀ d attrs name field,
  init_dict kwargs fields d = Some attrs →
  NoDup fields.*1 → (name, field) ∈ fields →
  dict_get name attrs = arg_or_default kwargs name field.
Proof.
  induction fields as [|[n f] fields IH]; intros d attrs name field E Hnd Hin;
    simpl in E; [inversion Hin|].
  destruct (arg_or_default kwargs n f) as [v|] eqn:Hv; [|discriminate].
  rewrite fmap_cons in Hnd. apply list.NoDup_cons in Hnd as [Hn Hnd].
  simpl in Hn. apply elem_of_cons in Hin as [[= -> ->]|Hin].
  - rewrite (init_dict_other _ _ _ _ _ E Hn), dict_get_set_eq. congruence.
  - eapply IH; eauto.
Qed.

Lemma first_missing_None kwargs fields : ∀ d,
  first_missing kwargs fields = None →
  ∃ attrs, init_dict kwargs fields d = Some attrs.
Proof.
  induction fields as [|[n f] fields IH]; intros d H; simpl in *; [eauto|].
  destruct (arg_or_default kwargs n f); [|discriminate]. apply IH. exact H.
Qed.

Lemma init_loop_missing kwargs h cls fields name : ∀ d,
  first_missing kwargs fields = Some name →
  ∃ d',
    for_each (λ (_ : unit) '(name, field),
      value ← match dict_get name kwargs with
              | Some v => mret v
              | None =>
                  match bftype_default field with
                  | Some d => mret d
                  | None => raise ValueError (MsgMissingValue name)
                  end
              end;
      setattr (length h) name value) () fields (h ++ [Obj cls d])
    = (h ++ [Obj cls d'], Raise (Exn ValueError (MsgMissingValue name))).
Proof.
  induction fields as [|[n f] fields IH]; intros d H; simpl in H; [discriminate|].
  cbn [for_each]. rewrite bind_M. unfold arg_or_default in H.
  destruct (dict_get n kwargs) as [v|] eqn:Hk.
  - cbn. rewrite setattr_last. apply IH. exact H.
  - destruct (bftype_default f) as [v|].
    + cbn. rewrite setattr_last. apply IH. exact H.
    + injection H as <-. exists d. reflexivity.
Qed.

(** X5: [Bitfield.__init__] stores, for every declared field, the keyword
    argument of its name or else the default of its descriptor, and nothing
    else: keyword arguments that name no field are dropped.  It fails only
    when a field has neither, with the missing-value error of the first
    such field in declaration order. *)
Theorem Bitfield_init_outcome Γ cls cd kwargs h :
  dict_get cls Γ = Some cd →
  match first_missing kwargs (cls_fields cd) with
  | Some name =>
      ∃ o, Bitfield_init Γ cls kwargs h
           = (h ++ [o], Raise (Exn ValueError (MsgMissingValue name)))
  | None =>
      ∃ attrs,
        Bitfield_init Γ cls kwargs h = (h ++ [Obj cls attrs], Ret (length h)) ∧
        (∀ k, k ∉ (cls_fields cd).*1 → dict_get k attrs = None) ∧
        (NoDup (cls_fields cd).*1 →
         ∀ name field, (name, field) ∈ cls_fields cd →
           dict_get name attrs = arg_or_default kwargs name field)
  end.
Proof.
  intros Hcd. destruct (first_missing kwargs (cls_fields cd)) as [name|] eqn:Hm.
  - destruct (init_loop_missing kwargs h cls _ _ [] Hm) as [d' E].
    exists (Obj cls d'). unfold Bitfield_init, get_class. rewrite Hcd.
    rewrite bind_mret. unfold alloc. rewrite bind_M. cbn beta iota.
    rewrite bind_M, E. reflexivity.
  - destruct (first_missing_None _ _ [] Hm) as [attrs E].
    exists attrs. split; [exact (Bitfield_init_spec _ _ _ _ _ _ Hcd E)|]. split.
    + intros k Hk. rewrite (init_dict_other _ _ _ _ _ E Hk). reflexivity.
    + intros Hnd name field Hin. eapply init_dict_field; eauto.
Qed.

Lemma Bitfield_init_outcome_witness :
  ∃ attrs,
    Bitfield_init classes "Tagged" [("payload", VInt 7); ("colour", VInt 1)] []
      = ([] ++ [Obj "Tagged" attrs], Ret 0) ∧
    (∀ k, k ∉ ["tag"; "payload"] → dict_get k attrs = None) ∧
    (NoDup ["tag"; "payload"] →
     ∀ name field, (name, field) ∈ cls_fields Tagged →
       dict_get name attrs
       = arg_or_default [("payload", VInt 7); ("colour", VInt 1)] name field).
Proof.
  exact (Bitfield_init_outcome classes "Tagged" Tagged
           [("payload", VInt 7); ("colour", VInt 1)] [] eq_refl).
Defined.

(** ** The scalar builders *)

Lemma bftype_from_bitstream_bf_int Γ k n d s proxy ctx h :
  bftype_from_bitstream Γ (S (S k)) (bf_int n d) s proxy ctx h =
    (h, (λ '(bits, s'), (VInt (Bits.to_int bits), s')) <$> BitStream.take n s).
Proof.
  unfold bf_int, bf_map, bf_bits.
  rewrite bftype_from_bitstream_S, bind_M, bftype_from_bitstream_S, bind_lift.
  destruct (BitStream.take n s) as [[bits s']| |]; reflexivity.
Qed.

Lemma to_int_app (a b : Bits.t) :
  Bits.to_int (a ++ b) = (Bits.to_int a * 2 ^ Z.of_nat (length b) + Bits.to_int b)%Z.
Proof.
  unfold Bits.to_int. rewrite foldl_app. generalize (foldl (λ acc x, (2 * acc + Z.b2z x)%Z) 0%Z a).
  induction b as [|x b IH]; intros z.
  - simpl. lia.
  - cbn [foldl length]. rewrite IH, (IH (2 * 0 + Z.b2z x)%Z).
    rewrite Nat2Z.inj_succ, Z.pow_succ_r by lia. lia.
Qed.

Lemma to_int_range (b : Bits.t) :
  (0 ≤ Bits.to_int b < 2 ^ Z.of_nat (length b))%Z.
Proof.
  induction b as [|x b IH] using rev_ind.
  - simpl. unfold Bits.to_int. simpl. lia.
  - rewrite to_int_app, length_app. simpl length.
    rewrite Nat2Z.inj_add, Z.pow_add_r by lia.
    change (Bits.to_int [x]) with (2 * 0 + Z.b2z x)%Z.
    destruct x; simpl Z.b2z; lia.
Qed.

Lemma to_int_in_range (b : Bits.t) :
  out_of_range (Bits.to_int b) (length b) = false.
Proof.
  pose proof (to_int_range b). unfold out_of_range.
  apply orb_false_iff. split; [apply Z.leb_gt|apply Z.ltb_ge]; lia.
Qed.

Lemma int_bits_to_int (b : Bits.t) : int_bits (Bits.to_int b) (length b) = b.
Proof.
  induction b as [|x b IH].
  - reflexivity.
  - cbn [length]. rewrite int_bits_S.
    rewrite (to_int_app [x] b : Bits.to_int (x :: b) = _).
    change (Bits.to_int [x]) with (2 * 0 + Z.b2z x)%Z.
    pose proof (to_int_range b) as Hr.
    f_equal.
    + apply Z.b2z_inj. rewrite Z.testbit_spec' by lia.
      rewrite Z.div_add_l by lia. rewrite Z.div_small by lia.
      destruct x; reflexivity.
    + etrans; [|exact IH]. unfold int_bits. apply list_fmap_ext.
      intros i j Hj. apply lookup_seq in Hj as [-> Hj]. simpl.
      set (t := Bits.to_int b) in *. set (c := (2 * 0 + Z.b2z x)%Z).
      replace (c * 2 ^ Z.of_nat (length b) + t)%Z
        with (t + c * 2 ^ Z.of_nat (length b))%Z by lia.
      rewrite <- (Z.mod_pow2_bits_low (t + _) (Z.of_nat (length b))) by lia.
      rewrite Z.mod_add by lia.
      apply Z.mod_pow2_bits_low. lia.
Qed.

(** X6: [bf_int(n)] carries exactly the integers [0 <= z < 2^n]: such an
    integer encodes to its [n] bits, most significant first, and decoding
    these bits, wherever they stand in a stream, returns it; conversely
    any [n] bits decode to an integer of that range which encodes back to
    the same bits. *)
Theorem bf_int_round_trip Γ fuel n d p proxy ctx h :
  (∀ z s k,
     out_of_range z n = false → stream_at s (int_bits z n) k →
     bftype_to_bits Γ (S (S fuel)) (bf_int n d) (VInt z) p ctx h
       = (h, Ret (int_bits z n)) ∧
     bftype_from_bitstream Γ (S (S fuel)) (bf_int n d) s proxy ctx h
       = (h, Ret (VInt z, BitStream.Make (BitStream.buffer s)
                            (BitStream.offset s + n)))) ∧
  (∀ bits s k,
     length bits = n → stream_at s bits k →
     ∃ z, bftype_from_bitstream Γ (S (S fuel)) (bf_int n d) s proxy ctx h
            = (h, Ret (VInt z, BitStream.Make (BitStream.buffer s)
                                 (BitStream.offset s + n))) ∧
          out_of_range z n = false ∧
          bftype_to_bits Γ (S (S fuel)) (bf_int n d) (VInt z) p ctx h
            = (h, Ret bits)).
Proof.
  split.
  - intros z s k Hr Hst.
    assert (length (int_bits z n) = n) as Hlen.
    { unfold int_bits. rewrite length_fmap, length_seq. reflexivity. }
    split.
    + rewrite bftype_to_bits_bf_int. simpl. rewrite from_int_spec, Hr. reflexivity.
    + rewrite bftype_from_bitstream_bf_int.
      pose proof (stream_at_take _ _ _ Hst) as Ht. rewrite Hlen in Ht.
      rewrite Ht. simpl. rewrite (to_int_from_int _ _ Hr). reflexivity.
  - intros bits s k Hlen Hst. exists (Bits.to_int bits). subst n.
    split; [|split].
    + rewrite bftype_from_bitstream_bf_int, (stream_at_take _ _ _ Hst). reflexivity.
    + apply to_int_in_range.
    + rewrite bftype_to_bits_bf_int. simpl.
      rewrite from_int_spec, to_int_in_range, int_bits_to_int. reflexivity.
Qed.

Lemma stream_at_take1 s (b : bool) k :
  stream_at s [b] k →
  BitStream.take 1 s
    = Ret ([b], BitStream.Make (BitStream.buffer s) (BitStream.offset s + 1)).
Proof. apply (stream_at_take s [b] k). Qed.

(** X7: [bf_bool()] accepts every value and keeps only its truth: any
    value encodes, without error, to the one bit of its truth value, and
    one bit decodes to the [bool] it stands for; so a field that holds a
    value other than a [bool] comes back from a round trip as
    [bool(value)]. *)
Theorem bf_bool_round_trip Γ fuel d p proxy ctx h :
  (∀ y, bftype_to_bits Γ (S (S (S fuel))) (bf_bool d) y p ctx h
        = (h, Ret [py_truthy y])) ∧
  (∀ b s k, stream_at s [b] k →
     bftype_from_bitstream Γ (S (S (S fuel))) (bf_bool d) s proxy ctx h
       = (h, Ret (VBool b, BitStream.Make (BitStream.buffer s)
                             (BitStream.offset s + 1)))).
Proof.
  split.
  - intros y. unfold bf_bool, bf_map.
    rewrite bftype_to_bits_S, bind_lift. cbn [back IntAsBool].
    rewrite bftype_to_bits_bf_int. cbn [py_int].
    destruct (py_truthy y); reflexivity.
  - intros b s k Hst. unfold bf_bool, bf_map.
    rewrite bftype_from_bitstream_S, bind_M, bftype_from_bitstream_bf_int.
    rewrite (stream_at_take1 _ _ _ Hst). destruct b; reflexivity.
Qed.

(** ** Byte strings *)

Lemma from_int_byte x : Bits.from_int (Z_of_byte x) 8 = Ret (Bits.bits_of_byte x).
Proof. destruct x; vm_compute; reflexivity. Qed.

Lemma to_int_byte x : Bits.to_int (Bits.bits_of_byte x) = Z_of_byte x.
Proof. destruct x; vm_compute; reflexivity. Qed.

Lemma py_bytes_item_byte x : py_bytes_item (VInt (Z_of_byte x)) = Ret x.
Proof. destruct x; vm_compute; reflexivity. Qed.

Lemma bits_of_byte_length x : length (Bits.bits_of_byte x) = 8.
Proof. destruct x; reflexivity. Qed.

Lemma from_bytes_cons x b :
  Bits.from_bytes (x :: b) = Bits.bits_of_byte x ++ Bits.from_bytes b.
Proof. reflexivity. Qed.

Lemma from_bytes_length b : length (Bits.from_bytes b) = 8 * length b.
Proof.
  induction b as [|x b IH]; [reflexivity|].
  rewrite from_bytes_cons, length_app, bits_of_byte_length, IH. simpl. lia.
Qed.

Lemma py_bytes_ints b :
  py_bytes (VList ((λ x, VInt (Z_of_byte x)) <$> b)) = Ret b.
Proof.
  simpl. induction b as [|x b IH]; [reflexivity|].
  rewrite fmap_cons. cbn [mapM]. rewrite py_bytes_item_byte. cbn.
  rewrite IH. reflexivity.
Qed.

Section Bytes.
Context (Γ : class_table).

Lemma encode_byte_items fuel p ctx h : ∀ b acc,
  for_each (λ acc item,
      bits ← bftype_to_bits Γ (S (S fuel)) (bf_int 8 None) item p ctx;
      mret (acc ++ bits)) acc ((λ x, VInt (Z_of_byte x)) <$> b) h
    = (h, Ret (acc ++ Bits.from_bytes b)).
Proof.
  induction b as [|x b IH]; intros acc.
  - simpl. rewrite app_nil_r. reflexivity.
  - rewrite fmap_cons. cbn [for_each].
    erewrite bind_M_ret; cycle 1.
    { erewrite bind_M_ret; [reflexivity|].
      rewrite bftype_to_bits_bf_int. cbn [py_int]. rewrite from_int_byte.
      reflexivity. }
    rewrite IH, from_bytes_cons, app_assoc. reflexivity.
Qed.

Lemma decode_byte_items fuel proxy ctx h : ∀ b (js : list nat) acc s k,
  length js = length b →
  stream_at s (Bits.from_bytes b) k →
  for_each (λ '(acc, stream) (_ : nat),
      '(item, stream) ←
        bftype_from_bitstream Γ (S (S fuel)) (bf_int 8 None) stream proxy ctx;
      mret (acc ++ [item], stream)) (acc, s) js h
    = (h, Ret (acc ++ ((λ x, VInt (Z_of_byte x)) <$> b),
               BitStream.Make (BitStream.buffer s)
                 (BitStream.offset s + 8 * length b))).
Proof.
  induction b as [|x b IH]; intros js acc s k Hjs Hst.
  - destruct js; [|discriminate]. simpl. rewrite app_nil_r, Nat.add_0_r.
    destruct s. reflexivity.
  - destruct js as [|j js]; [discriminate|]. simpl in Hjs.
    rewrite from_bytes_cons in Hst. apply stream_at_app in Hst as [Hst1 Hst2].
    pose proof (stream_at_take _ _ _ Hst1) as Ht.
    rewrite bits_of_byte_length in Ht.
    cbn [for_each]. erewrite bind_M_ret; cycle 1.
    { erewrite bind_M_ret; cycle 1.
      { rewrite bftype_from_bitstream_bf_int, Ht. simpl. rewrite to_int_byte.
        reflexivity. }
      reflexivity. }
    erewrite IH; [|lia|apply Hst2; rewrite bits_of_byte_length; split; reflexivity].
    rewrite fmap_cons, <- app_assoc.
    cbn [BitStream.buffer BitStream.offset length app].
    replace (BitStream.offset s + 8 + 8 * length b)
      with (BitStream.offset s + 8 * S (length b)) by lia.
    reflexivity.
Qed.

Lemma bf_bytes_inv n d F :
  bf_bytes n d = Ret F →
  F = BFMap (BFList (bf_int 8 None) n None) ListAsBytes d.
Proof.
  unfold bf_bytes. destruct (check_default_length n d) as [[]| |]; try discriminate.
  intros [= <-]. reflexivity.
Qed.

Lemma encode_bytes_field fuel n d b p ctx h :
  bftype_to_bits Γ (4 + fuel)
    (BFMap (BFList (bf_int 8 None) n None) ListAsBytes d) (VBytes b) p ctx h
    = (h, if length b =? n then Ret (Bits.from_bytes b)
          else Raise (Exn ValueError (MsgExpectedItems n (length b)))).
Proof.
  cbn [Nat.add]. rewrite bftype_to_bits_S, bind_lift.
  cbn [back ListAsBytes py_iter fmap outcome_fmap].
  rewrite bftype_to_bits_S, bind_lift. cbn [py_len]. rewrite length_fmap.
  destruct (length b =? n); [|reflexivity]. cbn [negb].
  rewrite bind_lift. apply (encode_byte_items fuel p ctx h b []).
Qed.

Lemma decode_bytes_field fuel d b proxy ctx h s k :
  stream_at s (Bits.from_bytes b) k →
  bftype_from_bitstream Γ (4 + fuel)
    (BFMap (BFList (bf_int 8 None) (length b) None) ListAsBytes d) s proxy ctx h
    = (h, Ret (VBytes b, BitStream.Make (BitStream.buffer s)
                           (BitStream.offset s + 8 * length b))).
Proof.
  intros Hst. cbn [Nat.add]. rewrite bftype_from_bitstream_S.
  erewrite bind_M_ret; cycle 1.
  { rewrite bftype_from_bitstream_S. erewrite bind_M_ret; cycle 1.
    { apply (decode_byte_items fuel proxy ctx h b (seq 0 (length b)) [] s k);
        [apply length_seq|exact Hst]. }
    reflexivity. }
  cbn beta iota. rewrite bind_lift. cbn [forward ListAsBytes app].
  rewrite py_bytes_ints. reflexivity.
Qed.

(** X8: [bf_bytes(n)] carries exactly the byte strings of [n] bytes: such
    a value encodes to its [8 * n] bits, each byte most significant bit
    first, and decoding these bits returns it; a byte string of another
    length is refused with the item-count error of the inner list. *)
Theorem bf_bytes_round_trip fuel n d F b p proxy ctx h :
  bf_bytes n d = Ret F →
  bftype_to_bits Γ (4 + fuel) F (VBytes b) p ctx h
    = (h, if length b =? n then Ret (Bits.from_bytes b)
          else Raise (Exn ValueError (MsgExpectedItems n (length b)))) ∧
  (length b = n →
   length (Bits.from_bytes b) = 8 * n ∧
   ∀ s k, stream_at s (Bits.from_bytes b) k →
     bftype_from_bitstream Γ (4 + fuel) F s proxy ctx h
       = (h, Ret (VBytes b, BitStream.Make (BitStream.buffer s)
                              (BitStream.offset s + 8 * n)))).
Proof.
  intros HF. apply bf_bytes_inv in HF as ->. split.
  - apply encode_bytes_field.
  - intros <-. split; [apply from_bytes_length|]. intros s k.
    apply decode_bytes_field.
Qed.

End Bytes.

Lemma bf_bytes_round_trip_witness :
  bftype_to_bits classes 4
    (BFMap (BFList (bf_int 8 None) 2 None) ListAsBytes None)
    (VBytes [x41; x42]) 0 VNone []
    = ([], if length [x41; x42] =? 2 then Ret (Bits.from_bytes [x41; x42])
           else Raise (Exn ValueError (MsgExpectedItems 2 (length [x41; x42])))) ∧
  (length [x41; x42] = 2 →
   length (Bits.from_bytes [x41; x42]) = 8 * 2 ∧
   ∀ s k, stream_at s (Bits.from_bytes [x41; x42]) k →
     bftype_from_bitstream classes 4
       (BFMap (BFList (bf_int 8 None) 2 None) ListAsBytes None) s [] VNone []
       = ([], Ret (VBytes [x41; x42],
                   BitStream.Make (BitStream.buffer s)
                     (BitStream.offset s + 8 * 2)))).
Proof.
  exact (bf_bytes_round_trip classes 0 2 None _ [x41; x42] 0 [] VNone [] eq_refl).
Defined.

(** ** Strings: the utf-8 codec *)

Lemma to_N_byte_of_N n : (n < 256)%N → Byte.to_N (byte_of_N n) = n.
Proof.
  intros H. unfold byte_of_N. destruct (Byte.of_N n) as [b|] eqn:E; simpl.
  - apply Byte.to_of_N. exact E.
  - apply Byte.of_N_None_iff in E. lia.
Qed.

Lemma utf8_decode_1 b0 r :
  (b0 < 0x80)%N → utf8_decode (b0 :: r) = cons b0 <$> utf8_decode r.
Proof.
  intros H. cbn [utf8_decode].
  destruct (N.ltb_spec b0 0x80); [reflexivity|lia].
Qed.

Lemma utf8_decode_2 b0 b1 r :
  (0xC2 ≤ b0 ≤ 0xDF)%N → (0x80 ≤ b1 ≤ 0xBF)%N →
  utf8_decode (b0 :: b1 :: r)
  = cons ((b0 - 0xC0) * 64 + (b1 - 0x80))%N <$> utf8_decode r.
Proof.
  intros H0 H1. cbn [utf8_decode].
  destruct (N.ltb_spec b0 0x80); [lia|].
  replace ((0xC2 <=? b0) && (b0 <=? 0xDF))%N with true
    by (symmetry; apply andb_true_iff; split; apply N.leb_le; lia).
  unfold utf8_cont.
  replace ((0x80 <=? b1) && (b1 <=? 0xBF))%N with true
    by (symmetry; apply andb_true_iff; split; apply N.leb_le; lia).
  reflexivity.
Qed.

Lemma utf8_decode_3 b0 b1 b2 r :
  (0xE0 ≤ b0 ≤ 0xEF)%N →
  ((if b0 =? 0xE0 then 0xA0 else 0x80) ≤ b1)%N →
  (b1 ≤ (if b0 =? 0xED then 0x9F else 0xBF))%N →
  (0x80 ≤ b2 ≤ 0xBF)%N →
  utf8_decode (b0 :: b1 :: b2 :: r)
  = cons ((b0 - 0xE0) * 4096 + (b1 - 0x80) * 64 + (b2 - 0x80))%N
      <$> utf8_decode r.
Proof.
  intros H0 Hlo Hhi H2. cbn [utf8_decode].
  destruct (N.ltb_spec b0 0x80); [lia|].
  replace ((0xC2 <=? b0) && (b0 <=? 0xDF))%N with false
    by (symmetry; apply andb_false_iff; right; apply N.leb_gt; lia).
  replace ((0xE0 <=? b0) && (b0 <=? 0xEF))%N with true
    by (symmetry; apply andb_true_iff; split; apply N.leb_le; lia).
  cbv zeta. unfold utf8_cont.
  apply N.leb_le in Hlo, Hhi. rewrite Hlo, Hhi.
  replace ((0x80 <=? b2) && (b2 <=? 0xBF))%N with true
    by (symmetry; apply andb_true_iff; split; apply N.leb_le; lia).
  reflexivity.
Qed.

Lemma utf8_decode_4 b0 b1 b2 b3 r :
  (0xF0 ≤ b0 ≤ 0xF4)%N →
  ((if b0 =? 0xF0 then 0x90 else 0x80) ≤ b1)%N →
  (b1 ≤ (if b0 =? 0xF4 then 0x8F else 0xBF))%N →
  (0x80 ≤ b2 ≤ 0xBF)%N → (0x80 ≤ b3 ≤ 0xBF)%N →
  utf8_decode (b0 :: b1 :: b2 :: b3 :: r)
  = cons ((b0 - 0xF0) * 262144 + (b1 - 0x80) * 4096
          + (b2 - 0x80) * 64 + (b3 - 0x80))%N <$> utf8_decode r.
Proof.
  intros H0 Hlo Hhi H2 H3. cbn [utf8_decode].
  destruct (N.ltb_spec b0 0x80); [lia|].
  replace ((0xC2 <=? b0) && (b0 <=? 0xDF))%N with false
    by (symmetry; apply andb_false_iff; right; apply N.leb_gt; lia).
  replace ((0xE0 <=? b0) && (b0 <=? 0xEF))%N with false
    by (symmetry; apply andb_false_iff; right; apply N.leb_gt; lia).
  replace ((0xF0 <=? b0) && (b0 <=? 0xF4))%N with true
    by (symmetry; apply andb_true_iff; split; apply N.leb_le; lia).
  cbv zeta. unfold utf8_cont.
  apply N.leb_le in Hlo, Hhi. rewrite Hlo, Hhi.
  replace ((0x80 <=? b2) && (b2 <=? 0xBF))%N with true
    by (symmetry; apply andb_true_iff; split; apply N.leb_le; lia).
  replace ((0x80 <=? b3) && (b3 <=? 0xBF))%N with true
    by (symmetry; apply andb_true_iff; split; apply N.leb_le; lia).
  reflexivity.
Qed.

Lemma utf8_decode_cp c bs r :
  utf8_encode_cp c = Some bs →
  utf8_decode ((Byte.to_N <$> bs) ++ r) = cons c <$> utf8_decode r.
Proof.
  unfold utf8_encode_cp.
  pose proof (N.div_mod' c 64) as D1. pose proof (N.mod_lt c 64 ltac:(lia)) as M1.
  pose proof (N.div_mod' (c / 64) 64) as D2.
  pose proof (N.mod_lt (c / 64) 64 ltac:(lia)) as M2.
  pose proof (N.div_mod' (c / 64 / 64) 64) as D3.
  pose proof (N.mod_lt (c / 64 / 64) 64 ltac:(lia)) as M3.
  replace (c / 4096)%N with (c / 64 / 64)%N by (rewrite N.Div0.div_div; reflexivity).
  replace (c / 262144)%N with (c / 64 / 64 / 64)%N
    by (rewrite !N.Div0.div_div; reflexivity).
  set (q1 := (c / 64)%N) in *. set (m1 := (c mod 64)%N) in *.
  set (q2 := (q1 / 64)%N) in *. set (m2 := (q1 mod 64)%N) in *.
  set (q3 := (q2 / 64)%N) in *. set (m3 := (q2 mod 64)%N) in *.
  destruct (N.ltb_spec c 0x80) as [C1|C1].
  { intros [= <-]. simpl fmap. simpl app.
    rewrite to_N_byte_of_N by lia. apply utf8_decode_1. exact C1. }
  destruct (N.ltb_spec c 0x800) as [C2|C2].
  { intros [= <-]. simpl fmap. simpl app.
    rewrite !to_N_byte_of_N by lia.
    rewrite utf8_decode_2 by lia. do 2 f_equal. lia. }
  destruct (N.ltb_spec c 0x10000) as [C3|C3].
  { destruct ((0xD800 <=? c) && (c <? 0xE000))%N eqn:Hs; [discriminate|].
    assert (c < 0xD800 ∨ 0xE000 ≤ c)%N as Hsur.
    { apply andb_false_iff in Hs as [Hs|Hs];
        [apply N.leb_gt in Hs|apply N.ltb_ge in Hs]; lia. }
    intros [= <-]. simpl fmap. simpl app.
    rewrite !to_N_byte_of_N by lia.
    rewrite utf8_decode_3; [do 2 f_equal; lia|lia| | |lia].
    - destruct (N.eqb_spec (0xE0 + q2) 0xE0); lia.
    - destruct (N.eqb_spec (0xE0 + q2) 0xED); lia. }
  destruct (N.ltb_spec c 0x110000) as [C4|C4]; [|discriminate].
  intros [= <-]. simpl fmap. simpl app.
  rewrite !to_N_byte_of_N by lia.
  rewrite utf8_decode_4; [do 2 f_equal; lia|lia| | |lia|lia].
  - destruct (N.eqb_spec (0xF0 + q3) 0xF0); lia.
  - destruct (N.eqb_spec (0xF0 + q3) 0xF4); lia.
Qed.

Lemma utf8_round_trip cps : ∀ enc,
  utf8_encode cps = Some enc → utf8_decode (Byte.to_N <$> enc) = Some cps.
Proof.
  induction cps as [|c cps IH]; intros enc E; simpl in E.
  - injection E as <-. reflexivity.
  - destruct (utf8_encode_cp c) as [b|] eqn:Hc; [|discriminate].
    destruct (utf8_encode cps) as [br|]; [|discriminate].
    injection E as <-. rewrite fmap_app, (utf8_decode_cp _ _ _ Hc).
    rewrite (IH br eq_refl). reflexivity.
Qed.

Lemma bf_str_inv n d F :
  bf_str n d = Ret F →
  F = BFMap (BFMap (BFList (bf_int 8 None) n None) ListAsBytes None)
        BytesAsStr d.
Proof.
  unfold bf_str. intros H.
  assert (∀ o : outcome unit,
    (o;; inner ← bf_bytes n None; Ret (bf_map inner BytesAsStr d)) = Ret F →
    F = BFMap (BFMap (BFList (bf_int 8 None) n None) ListAsBytes None)
          BytesAsStr d) as Hk.
  { intros [[]| |]; simpl; try discriminate.
    unfold bf_bytes, bf_list_field. simpl.
    intros [= <-]. reflexivity. }
  eapply Hk. exact H.
Qed.

Section Str.
Context (Γ : class_table).

(** X9: [bf_str(n)] carries exactly the strings whose utf-8 encoding has
    [n] bytes (the count is of bytes, not of characters): such a string
    encodes to the [8 * n] bits of its encoding and decoding these bits
    returns it; a string whose encoding has another length is refused with
    the item-count error of the inner list, and a string that utf-8 cannot
    encode with the codec error. *)
Theorem bf_str_round_trip fuel n d F cps p proxy ctx h :
  bf_str n d = Ret F →
  match utf8_encode cps with
  | Some enc =>
      bftype_to_bits Γ (5 + fuel) F (VStr cps) p ctx h
        = (h, if length enc =? n then Ret (Bits.from_bytes enc)
              else Raise (Exn ValueError (MsgExpectedItems n (length enc)))) ∧
      (length enc = n →
       ∀ s k, stream_at s (Bits.from_bytes enc) k →
         bftype_from_bitstream Γ (5 + fuel) F s proxy ctx h
           = (h, Ret (VStr cps, BitStream.Make (BitStream.buffer s)
                                  (BitStream.offset s + 8 * n))))
  | None =>
      bftype_to_bits Γ (5 + fuel) F (VStr cps) p ctx h
        = (h, Raise (Exn UnicodeError MsgCodec))
  end.
Proof.
  intros HF. apply bf_str_inv in HF as ->.
  destruct (utf8_encode cps) as [enc|] eqn:Henc.
  - split.
    + change (5 + fuel) with (S (4 + fuel)).
      rewrite bftype_to_bits_S, bind_lift.
      cbn [back BytesAsStr]. unfold str_encode. rewrite Henc.
      cbn [fmap outcome_fmap]. apply encode_bytes_field.
    + intros <- s k Hst. change (5 + fuel) with (S (4 + fuel)).
      rewrite bftype_from_bitstream_S.
      erewrite bind_M_ret; cycle 1.
      { apply (decode_bytes_field Γ fuel None enc proxy ctx h s k Hst). }
      cbn beta iota. rewrite bind_lift. cbn [forward BytesAsStr].
      unfold bytes_decode. rewrite (utf8_round_trip _ _ Henc). reflexivity.
  - change (5 + fuel) with (S (4 + fuel)).
    rewrite bftype_to_bits_S, bind_lift.
    cbn [back BytesAsStr]. unfold str_encode. rewrite Henc. reflexivity.
Qed.

(** X10: bytes that are not valid utf-8 make the decoding of a [bf_str(n)]
    field fail with the codec error, and the decoding of a record with such
    a field fail with a [TypeError]: the record decoder re-raises the error
    of a field as [type(e)(message)], which the codec error, built from five
    arguments, does not accept. *)
Theorem str_field_invalid_utf8 fuel n d F b name cls proxy ctx h s k :
  bf_str n d = Ret F →
  length b = n →
  utf8_decode (Byte.to_N <$> b) = None →
  stream_at s (Bits.from_bytes b) k →
  bftype_from_bitstream Γ (5 + fuel) F s proxy ctx h
    = (h, Raise (Exn UnicodeError MsgCodec)) ∧
  in_field name cls (bftype_from_bitstream Γ (5 + fuel) F s proxy ctx) h
    = (h, Raise (Exn TypeError MsgExceptionArgs)).
Proof.
  intros HF <- Hdec Hst. apply bf_str_inv in HF as ->.
  assert (bftype_from_bitstream Γ (5 + fuel)
            (BFMap (BFMap (BFList (bf_int 8 None) (length b) None) ListAsBytes None)
               BytesAsStr d) s proxy ctx h
          = (h, Raise (Exn UnicodeError MsgCodec))) as E.
  { change (5 + fuel) with (S (4 + fuel)).
    rewrite bftype_from_bitstream_S.
    erewrite bind_M_ret; cycle 1.
    { apply (decode_bytes_field Γ fuel None b proxy ctx h s k Hst). }
    cbn beta iota. rewrite bind_lift. cbn [forward BytesAsStr].
    unfold bytes_decode. rewrite Hdec. reflexivity. }
  split; [exact E|]. unfold in_field. rewrite E. reflexivity.
Qed.

End Str.

Lemma bf_str_round_trip_witness :
  bftype_to_bits classes 5
    (BFMap (BFMap (BFList (bf_int 8 None) 3 None) ListAsBytes None)
       BytesAsStr None) (VStr [0x48; 0xE9]%N) 0 VNone []
    = ([], Ret (Bits.from_bytes [x48; xc3; xa9])) ∧
  (3 = 3 →
   ∀ s k, stream_at s (Bits.from_bytes [x48; xc3; xa9]) k →
     bftype_from_bitstream classes 5
       (BFMap (BFMap (BFList (bf_int 8 None) 3 None) ListAsBytes None)
          BytesAsStr None) s [] VNone []
       = ([], Ret (VStr [0x48; 0xE9]%N,
                   BitStream.Make (BitStream.buffer s)
                     (BitStream.offset s + 8 * 3)))).
Proof.
  exact (bf_str_round_trip classes 0 3 None _ [0x48; 0xE9]%N 0 [] VNone []
           eq_refl).
Defined.

Lemma str_field_invalid_utf8_witness :
  bftype_from_bitstream classes 5
    (BFMap (BFMap (BFList (bf_int 8 None) 1 None) ListAsBytes None)
       BytesAsStr None)
    (BitStream.of_bits (Bits.from_bytes [xff])) [] VNone []
    = ([], Raise (Exn UnicodeError MsgCodec)) ∧
  in_field "name" "Greeting"
    (bftype_from_bitstream classes 5
       (BFMap (BFMap (BFList (bf_int 8 None) 1 None) ListAsBytes None)
          BytesAsStr None)
       (BitStream.of_bits (Bits.from_bytes [xff])) [] VNone) []
    = ([], Raise (Exn TypeError MsgExceptionArgs)).
Proof.
  apply (str_field_invalid_utf8 classes 0 1 None _ [xff] "name" "Greeting" []
           VNone [] (BitStream.of_bits (Bits.from_bytes [xff])) 0);
    [reflexivity|reflexivity|reflexivity|].
  split; reflexivity.
Defined.

(** ** The exceptions of a decoding and of an encoding *)

Lemma for_each_raise {A B} (f : B → A → M B) l : ∀ acc h h' e,
  for_each f acc l h = (h', Raise e) →
  ∃ x acc0 h0, x ∈ l ∧ f acc0 x h0 = (h', Raise e).
Proof.
  induction l as [|x l IH]; intros acc h h' e E; cbn [for_each] in E.
  - discriminate.
  - apply bind_M_cases in E as [(a & h1 & E1 & E2)|[(e' & E1 & [= <-])|(w & _ & [=])]].
    + destruct (IH _ _ _ _ E2) as (y & acc0 & h0 & Hin & Ey).
      exists y, acc0, h0. split; [right; exact Hin|exact Ey].
    + exists x, acc, h. split; [left|exact E1].
Qed.

Lemma for_each_raise_heap {A B} (J : heap → heap → Prop)
    (f : B → A → M B) l :
  (∀ h, J h h) →
  (∀ h1 h2 h3, J h1 h2 → J h2 h3 → J h1 h3) →
  (∀ acc x h h' r, x ∈ l → f acc x h = (h', r) → J h h') →
  ∀ acc h h' e, for_each f acc l h = (h', Raise e) →
  ∃ x acc0 h0, x ∈ l ∧ J h h0 ∧ f acc0 x h0 = (h', Raise e).
Proof.
  intros Hr Ht. induction l as [|x l IH]; intros Hf acc h h' e E;
    cbn [for_each] in E.
  - discriminate.
  - apply bind_M_cases in E as [(a & h1 & E1 & E2)|[(e' & E1 & [= <-])|(w & _ & [=])]].
    + destruct (IH (λ acc x' h h' r Hin, Hf acc x' h h' r (list_elem_of_further _ _ _ Hin))
                  _ _ _ _ E2) as (y & acc0 & h0 & Hin & HJ & Ey).
      exists y, acc0, h0. split; [right; exact Hin|]. split; [|exact Ey].
      eapply Ht; [|exact HJ]. eapply Hf; [left|exact E1].
    + exists x, acc, h. split; [left|]. split; [apply Hr|exact E1].
Qed.

Lemma wrap_exn_class name cls e : exn_class (wrap_exn name cls e) ≠ UnicodeError.
Proof. destruct e as [[] m]; discriminate. Qed.

Lemma in_field_raise {A} name cls (m : M A) h h' e :
  in_field name cls m h = (h', Raise e) → ∃ inner, e = wrap_exn name cls inner.
Proof.
  unfold in_field. destruct (m h) as [h1 [a|e1|w]]; intros [= <- <-]. eauto.
Qed.

Lemma Bitfield_init_total Γ cls cd kwargs h :
  dict_get cls Γ = Some cd →
  Forall (λ name, is_Some (dict_get name kwargs)) (cls_fields cd).*1 →
  ∃ attrs, Bitfield_init Γ cls kwargs h = (h ++ [Obj cls attrs], Ret (length h)).
Proof.
  intros Hcd Hall. destruct (init_dict_total kwargs (cls_fields cd) [] Hall) as [attrs E].
  exists attrs. exact (Bitfield_init_spec _ _ _ _ _ _ Hcd E).
Qed.

Section Errors.
Context (Γ : class_table).

Lemma decode_fields_keys fuel cls ctx : ∀ fields proxy s h h' proxy' s',
  for_each (λ '(proxy, stream) '(name, field),
      '(value, stream) ←
        in_field name cls (bftype_from_bitstream Γ fuel field stream proxy ctx);
      mret (dict_set name value proxy, stream)) (proxy, s) fields h
    = (h', Ret (proxy', s')) →
  (∀ k, is_Some (dict_get k proxy) → is_Some (dict_get k proxy')) ∧
  Forall (λ name, is_Some (dict_get name proxy')) fields.*1.
Proof.
  induction fields as [|[name field] fields IH];
    intros proxy s h h' proxy' s' E; cbn [for_each] in E.
  - inversion E; subst. split; [auto|constructor].
  - apply bind_M_inv in E as ([proxy1 s1] & h1 & E1 & E2).
    apply bind_M_inv in E1 as ([v s2] & h2 & E1 & E3). inversion E3; subst.
    destruct (IH _ _ _ _ _ _ E2) as [Hkeep Hall].
    assert (∀ k, is_Some (dict_get k proxy) →
                 is_Some (dict_get k (dict_set name v proxy))) as Hset.
    { intros k Hk. destruct (decide (name = k)) as [<-|Hne].
      - rewrite dict_get_set_eq. eauto.
      - rewrite dict_get_set_ne by exact Hne. exact Hk. }
    split; [auto|]. rewrite fmap_cons. constructor; [|exact Hall].
    apply Hkeep. simpl. rewrite dict_get_set_eq. eauto.
Qed.

(** X11: for a buffer of which the reorder of the class is a valid order
    (the domain of [reorder] in the specification), every exception of
    [cls.from_bits] is either the leftover-bits error or the error of a
    declared field, re-raised with the names of the field and of the
    class.  The constructor call that ends the decoding never fails, every
    field having been decoded, and no codec error of a string ever leaves
    [from_bits] as such. *)
Theorem from_bits_exceptions fuel cls cd bits ctx h h' e :
  dict_get cls Γ = Some cd →
  Bits.valid_order (cls_reorder cd) (length bits) →
  from_bits Γ fuel cls bits ctx h = (h', Raise e) →
  ((∃ n, n ≠ 0 ∧ e = Exn ValueError (MsgBitsLeftOver cls n)) ∨
   (∃ name field inner,
      (name, field) ∈ cls_fields cd ∧ e = wrap_exn name cls inner)) ∧
  exn_class e ≠ UnicodeError.
Proof.
  intros Hcd _ E.
  assert ((∃ n, n ≠ 0 ∧ e = Exn ValueError (MsgBitsLeftOver cls n)) ∨
          (∃ name field inner,
             (name, field) ∈ cls_fields cd ∧ e = wrap_exn name cls inner))
    as H.
  { unfold from_bits, from_bits_with in E.
    apply bind_M_cases in E as [([out s1] & h1 & E1 & E2)|[(e' & E1 & [= <-])|(w & _ & [=])]].
    - left. destruct (BitStream.remaining s1 =? 0) eqn:Hr; [discriminate|].
      inversion E2; subst. exists (BitStream.remaining s1).
      split; [apply Nat.eqb_neq; exact Hr|reflexivity].
    - right. unfold from_bitstream_with, get_class in E1.
      rewrite Hcd in E1.
      rewrite bind_mret in E1. cbv zeta in E1.
      apply bind_M_cases in E1 as [([proxy s1] & h1 & E1 & E2)|[(e' & E1 & [= <-])|(w & _ & [=])]].
      + exfalso. apply decode_fields_keys in E1 as [_ Hall].
        destruct (Bitfield_init_total Γ cls cd proxy h1 Hcd Hall) as [attrs Hi].
        rewrite bind_M, Hi in E2. discriminate.
      + apply for_each_raise in E1 as ([name field] & [p0 s0] & h0 & Hin & E1).
        apply bind_M_cases in E1 as [([v s2] & h2 & _ & [=])|[(e' & E1 & [= <-])|(w & _ & [=])]].
        apply in_field_raise in E1 as [inner ->].
        exists name, field, inner. auto. }
  split; [exact H|].
  destruct H as [(n & _ & ->)|(name & field & inner & _ & ->)];
    [discriminate|apply wrap_exn_class].
Qed.

Lemma class_attr_raise cls cd name e :
  dict_get cls Γ = Some cd → class_attr Γ cls name = Raise e →
  e = Exn AttributeError (MsgNoAttribute name) ∧
  dict_get name (cls_attrs cd ++ Bitfield_attrs) = None.
Proof.
  intros Hcd. unfold class_attr. rewrite Hcd.
  destruct (dict_get name (cls_attrs cd ++ Bitfield_attrs)) as [[]|];
    try discriminate.
  intros [= <-]. auto.
Qed.

(** X12: for an instance of a class whose reorder fits its encodings,
    every exception of [x.to_bits] is either the [AttributeError] of a
    declared field that neither the instance nor its class holds (a field
    declared by its annotation alone), raised as it is (the attribute is
    read outside the [try]), or the error of the encoding of a declared
    field, re-raised with the names of the field and of the class; no
    codec error of a string ever leaves [to_bits] as such. *)
Theorem to_bits_exceptions fuel x ctx h h' e o cd :
  h !! x = Some o → dict_get (obj_class o) Γ = Some cd → order_fits cd →
  to_bits Γ fuel x ctx h = (h', Raise e) →
  (∃ name field,
     (name, field) ∈ cls_fields cd ∧
     ((e = Exn AttributeError (MsgNoAttribute name) ∧
       dict_get name (obj_dict o) = None ∧
       dict_get name (cls_attrs cd ++ Bitfield_attrs) = None) ∨
      ∃ inner, e = wrap_exn name (obj_class o) inner)) ∧
  exn_class e ≠ UnicodeError.
Proof.
  intros Hx Hcd _ E.
  assert (∃ name field,
     (name, field) ∈ cls_fields cd ∧
     ((e = Exn AttributeError (MsgNoAttribute name) ∧
       dict_get name (obj_dict o) = None ∧
       dict_get name (cls_attrs cd ++ Bitfield_attrs) = None) ∨
      ∃ inner, e = wrap_exn name (obj_class o) inner)) as H.
  { unfold to_bits, to_bits_with in E.
    apply bind_M_cases in E as [(u & h1 & E1 & E2)|[(e' & E1 & _)|(w & _ & [=])]];
      unfold setattr in E1; rewrite Hx in E1; try discriminate.
    inversion E1; subst h1 u. clear E1.
    pose proof (marks_insert ctx h x o Hx) as Hm0.
    apply bind_M_cases in E2 as [(o1 & h1 & E1 & E2)|[(e' & E1 & _)|(w & _ & [=])]];
      unfold get_object in E1;
      rewrite list_lookup_insert_eq in E1 by (eapply lookup_lt_Some; eauto);
      [|discriminate].
    inversion E1; subst o1 h1. clear E1. cbn [obj_class] in E2.
    unfold get_class in E2. rewrite Hcd in E2.
    rewrite bind_mret in E2.
    apply bind_M_cases in E2 as [(acc & h1 & _ & [=])|[(e' & E1 & [= <-])|(w & _ & [=])]].
    apply (for_each_raise_heap (marks ctx)) in E1
      as ([name field] & acc0 & h0 & Hin & Hm & E1);
      [|apply marks_refl|apply marks_trans|].
    2:{ intros acc1 [name1 field1] h2 h3 r3 _ E3.
        eapply bind_M_heap in E3; [exact E3|apply marks_trans|..].
        - intros h4 r4 E4. apply getattr_heap in E4 as ->. apply marks_refl.
        - intros v h4 h5 r5 E5.
          eapply bind_M_heap in E5; [exact E5|apply marks_trans|..].
          + intros h6 r6 E6. eapply in_field_heap in E6; [exact E6|].
            intros h7 r7. apply bftype_to_bits_marks.
          + intros a h6 h7 r7 [= <- _]. apply marks_refl. }
    exists name, field. split; [exact Hin|].
    apply bind_M_cases in E1 as [(v & h2 & E1 & E2)|[(e' & E1 & [= <-])|(w & _ & [=])]].
    - right.
      apply bind_M_cases in E2 as [(b & h3 & _ & [=])|[(e' & E2 & [= <-])|(w & _ & [=])]].
      eapply in_field_raise. exact E2.
    - left.
      assert (h0 !! x = Some (mark ctx o)) as Hx0.
      { assert (<[x:=mark ctx o]> h !! x = Some (mark ctx o)) as Hl
          by (apply list_lookup_insert_eq; eapply lookup_lt_Some; eauto).
        destruct Hm as [_ Hm].
        destruct (Hm _ _ Hl) as [H|H]; rewrite ?mark_idemp in H; exact H. }
      unfold getattr, get_object in E1. rewrite bind_M, Hx0 in E1.
      destruct (dict_get name (obj_dict (mark ctx o))) as [v|] eqn:Hv;
        [discriminate|].
      cbn [obj_class mark] in E1. inversion E1 as [[Hh He]].
      destruct (class_attr_raise _ _ _ _ Hcd He) as [-> Hnone].
      split; [reflexivity|]. split; [|exact Hnone].
      destruct (decide (name = "bitfield_context")) as [->|Hne].
      + rewrite mark_lookup_context in Hv. discriminate.
      + rewrite mark_lookup_other in Hv by exact Hne. exact Hv. }
  split; [exact H|].
  destruct H as (name & field & _ & [(-> & _)|[inner ->]]);
    [discriminate|apply wrap_exn_class].
Qed.

End Errors.

Lemma from_bits_exceptions_witness :
  Bits.valid_order [] 1 ∧
  from_bits classes 3 "Packed" [true] VNone []
    = ([], Raise (Exn ShortBufferError
                    (MsgInField "a" "Packed" (MsgShortBuffer 3 1)))) ∧
  exn_class (Exn ShortBufferError (MsgInField "a" "Packed" (MsgShortBuffer 3 1)))
    ≠ UnicodeError.
Proof.
  assert (Bits.valid_order [] 1) as Hord by (split; [reflexivity|simpl; lia]).
  split; [exact Hord|]. split; [reflexivity|].
  exact (proj2 (from_bits_exceptions classes 3 "Packed" Packed [true] VNone
                  [] [] _ eq_refl Hord eq_refl)).
Defined.

Lemma to_bits_exceptions_witness :
  order_fits Packed ∧ order_fits Envelope ∧
  to_bits classes 3 0 VNone (packed_heap 8 0)
    = ([mark VNone (Obj "Packed" [("a", VInt 8); ("b", VInt 0)])],
       Raise (Exn ValueOutOfRangeError
                (MsgInField "a" "Packed" (MsgOutOfRange 8 3)))) ∧
  exn_class (Exn ValueOutOfRangeError
               (MsgInField "a" "Packed" (MsgOutOfRange 8 3))) ≠ UnicodeError ∧
  to_bits envelope_classes 3 0 VNone envelope_heap
    = ([mark VNone (Obj "Envelope" [])],
       Raise (Exn AttributeError (MsgNoAttribute "body"))) ∧
  exn_class (Exn AttributeError (MsgNoAttribute "body")) ≠ UnicodeError.
Proof.
  split; [left; reflexivity|]. split; [left; reflexivity|].
  split; [reflexivity|].
  split.
  - exact (proj2 (to_bits_exceptions classes 3 0 VNone (packed_heap 8 0) _ _
                    _ Packed eq_refl eq_refl (or_introl eq_refl) eq_refl)).
  - split; [reflexivity|].
    exact (proj2 (to_bits_exceptions envelope_classes 3 0 VNone envelope_heap
                    _ _ _ Envelope eq_refl eq_refl (or_introl eq_refl)
                    eq_refl)).
Defined.

(** ** Values that describe themselves *)

Lemma encode_str_field Γ fuel n d cps enc p ctx h :
  utf8_encode cps = Some enc →
  bftype_to_bits Γ (5 + fuel)
    (BFMap (BFMap (BFList (bf_int 8 None) n None) ListAsBytes None) BytesAsStr d)
    (VStr cps) p ctx h
    = (h, if length enc =? n then Ret (Bits.from_bytes enc)
          else Raise (Exn ValueError (MsgExpectedItems n (length enc)))).
Proof.
  intros Henc. change (5 + fuel) with (S (4 + fuel)).
  rewrite bftype_to_bits_S, bind_lift.
  cbn [back BytesAsStr]. unfold str_encode. rewrite Henc.
  cbn [fmap outcome_fmap]. apply encode_bytes_field.
Qed.

(** X13: a [bytes], [str] or [None] value held by a field whose
    discriminator takes the number of unread bits always encodes: the
    descriptor is made from the value itself, so its literal check and its
    length check cannot fail.  The result is the bits of the bytes, of the
    utf-8 encoding of the string, or no bit; only a string that utf-8
    cannot encode fails, with the codec error. *)
Theorem DynSelfN_self_describing Γ fuel fn d p ctx h :
  (∀ b, bftype_to_bits Γ (6 + fuel) (BFDynSelfN fn d) (VBytes b) p ctx h
        = (h, Ret (Bits.from_bytes b))) ∧
  (∀ cps, bftype_to_bits Γ (7 + fuel) (BFDynSelfN fn d) (VStr cps) p ctx h
          = (h, match utf8_encode cps with
                | Some enc => Ret (Bits.from_bytes enc)
                | None => Raise (Exn UnicodeError MsgCodec)
                end)) ∧
  bftype_to_bits Γ (2 + fuel) (BFDynSelfN fn d) VNone p ctx h = (h, Ret []).
Proof.
  split; [|split].
  - intros b. change (6 + fuel) with (S (S (4 + fuel))).
    rewrite bftype_to_bits_S, bind_mret, bind_lift.
    cbn [undisguise]. unfold bf_bytes, bf_list_field, bf_lit, bf_map. cbn [check_default_length mbind outcome_bind].
    rewrite bftype_to_bits_S, bind_M. unfold py_ne.
    change (4 + fuel) with (S (3 + fuel)) at 1. rewrite py_eq_S.
    rewrite bool_decide_eq_true_2 by reflexivity. cbn [fmap outcome_fmap negb].
    rewrite encode_bytes_field, Nat.eqb_refl. reflexivity.
  - intros cps. change (7 + fuel) with (S (S (5 + fuel))).
    rewrite bftype_to_bits_S, bind_mret, bind_lift.
    cbn [undisguise]. unfold str_encode.
    destruct (utf8_encode cps) as [enc|] eqn:Henc; [|reflexivity].
    cbn [mbind outcome_bind]. unfold bf_str, bf_bytes, bf_list_field, bf_lit, bf_map.
    cbn [check_default_length mbind outcome_bind].
    rewrite bftype_to_bits_S, bind_M. unfold py_ne.
    change (5 + fuel) with (S (4 + fuel)) at 1. rewrite py_eq_S.
    rewrite bool_decide_eq_true_2 by reflexivity. cbn [fmap outcome_fmap negb].
    rewrite (encode_str_field _ _ _ _ _ _ _ _ _ Henc), Nat.eqb_refl. reflexivity.
  - change (2 + fuel) with (S (S fuel)).
    rewrite bftype_to_bits_S, bind_mret, bind_lift. cbn [undisguise].
    unfold bf_none. rewrite bftype_to_bits_S. reflexivity.
Qed.

(** ** What finalization makes of the annotations *)

Lemma init_subclass_cons Γ cls name hint value rest fields :
  init_subclass Γ cls ((name, hint, value) :: rest) fields =
    if declares (name, hint, value)
    then bf_field ← wrap_outcome name cls (
           bf_field ← distill_field Γ hint value;
           if bftype_has_children_with_default bf_field
           then Raise (Exn ValueError MsgInnerDefaults)
           else Ret bf_field);
         init_subclass Γ cls rest (dict_set name bf_field fields)
    else init_subclass Γ cls rest fields.
Proof.
  destruct hint; simpl; try reflexivity;
    destruct (String.eqb name "bitfield_context"); reflexivity.
Qed.

Lemma dict_set_new {V} k (v : V) d : k ∉ d.*1 → dict_set k v d = d ++ [(k, v)].
Proof.
  induction d as [|[k' v'] d IH]; intros Hk; simpl; [reflexivity|].
  rewrite fmap_cons in Hk. apply not_elem_of_cons in Hk as [Hne Hk].
  simpl in Hne. rewrite (eqb_neq _ _ Hne), IH by exact Hk. reflexivity.
Qed.

Lemma init_subclass_spec Γ cls : ∀ hints fields fs,
  init_subclass Γ cls hints fields = Ret fs →
  NoDup (fields.*1 ++ (List.filter declares hints).*1.*1) →
  ∃ new,
    fs = fields ++ new ∧
    Forall2 (λ entry field,
        field.1 = entry.1.1 ∧
        distill_field Γ entry.1.2 entry.2 = Ret field.2 ∧
        bftype_has_children_with_default field.2 = false)
      (List.filter declares hints) new.
Proof.
  induction hints as [|[[name hint] value] hints IH]; intros fields fs E Hnd.
  - simpl in E. injection E as <-. exists []. rewrite app_nil_r. split; [reflexivity|constructor].
  - rewrite init_subclass_cons in E. cbn [List.filter] in *.
    destruct (declares (name, hint, value)) eqn:Hd; [|apply IH; assumption].
    destruct (distill_field Γ hint value) as [F| |] eqn:HF; simpl in E; try discriminate.
    destruct (bftype_has_children_with_default F) eqn:Hc; simpl in E; [discriminate|].
    rewrite !fmap_cons in Hnd. simpl in Hnd.
    assert (name ∉ fields.*1) as Hname.
    { apply list.NoDup_app in Hnd as (_ & Hdis & _). intros Hin.
      apply (Hdis _ Hin). left. }
    rewrite (dict_set_new _ _ _ Hname) in E.
    destruct (IH _ _ E) as (new & -> & Hnew).
    { rewrite fmap_app, <- app_assoc. exact Hnd. }
    exists ((name, F) :: new). split; [rewrite <- app_assoc; reflexivity|].
    constructor; [|exact Hnew]. auto.
Qed.

(** X14: when [__init_subclass__] accepts a class, its [_fields] are, in
    the order of the annotations, the annotations that are neither a
    [ClassVar] nor [bitfield_context], each with the descriptor that
    [distill_field] makes of it; and no descriptor of a finalized class has
    a default below its top level. *)
Theorem init_subclass_fields Γ cls hints fs :
  NoDup (List.filter declares hints).*1.*1 →
  init_subclass Γ cls hints [] = Ret fs →
  fs.*1 = (List.filter declares hints).*1.*1 ∧
  Forall2 (λ entry field,
      distill_field Γ entry.1.2 entry.2 = Ret field.2) 
    (List.filter declares hints) fs ∧
  Forall (λ field, bftype_has_children_with_default field.2 = false) fs.
Proof.
  intros Hnd E. destruct (init_subclass_spec Γ cls hints [] fs E Hnd) as (new & -> & H).
  simpl. clear E Hnd. induction H as [|e f es fs (Hn & Hd & Hc) _ (IH1 & IH2 & IH3)].
  - repeat split; constructor.
  - split; [|split].
    + rewrite !fmap_cons. congruence.
    + constructor; assumption.
    + constructor; assumption.
Qed.

Lemma init_subclass_fields_witness :
  let hints :=
    [("_fields", HintClassVar, None);
     ("bitfield_context", HintOther, None);
     ("tag", HintOther, Some (DField (bf_lit_int 4 (VInt 10))));
     ("inner", HintClass "Packed", None);
     ("flag", HintBool, None)] in
  let fs :=
    [("tag", bf_lit_int 4 (VInt 10));
     ("inner", BFBitfield "Packed" 8 None);
     ("flag", bf_bool None)] in
  fs.*1 = (List.filter declares hints).*1.*1 ∧
  Forall2 (λ entry field,
      distill_field classes entry.1.2 entry.2 = Ret field.2)
    (List.filter declares hints) fs ∧
  Forall (λ field, bftype_has_children_with_default field.2 = false) fs.
Proof.
  apply (init_subclass_fields classes "Frame").
  - refine (bool_decide_unpack _ _). vm_compute. exact I.
  - reflexivity.
Defined.

(** ** Whole bytes *)

Lemma bits_of_byte_of_bits (b : Bits.t) :
  length b = 8 → Bits.bits_of_byte (Bits.byte_of_bits b) = b.
Proof.
  intros H. do 9 (destruct b as [|? b]; try discriminate).
  unfold Bits.bits_of_byte, Bits.byte_of_bits.
  rewrite Byte.to_bits_of_bits. reflexivity.
Qed.

Lemma chunk_bytes_length k : ∀ b, length (Bits.chunk_bytes k b) = k.
Proof. induction k as [|k IH]; intros b; simpl; [reflexivity|]. rewrite IH. reflexivity. Qed.

Lemma from_bytes_chunk k : ∀ b : Bits.t,
  length b = 8 * k → Bits.from_bytes (Bits.chunk_bytes k b) = b.
Proof.
  induction k as [|k IH]; intros b Hb.
  - destruct b; [reflexivity|discriminate].
  - cbn [Bits.chunk_bytes]. rewrite from_bytes_cons.
    rewrite bits_of_byte_of_bits by (rewrite length_take; lia).
    rewrite IH by (rewrite length_drop; lia).
    apply take_drop.
Qed.

Lemma to_bytes_inv (b : Bits.t) data :
  Bits.to_bytes b = Ret data →
  length b = 8 * length data ∧ Bits.from_bytes data = b.
Proof.
  unfold Bits.to_bytes. destruct (length b mod 8 =? 0) eqn:Hm; [|discriminate].
  apply Nat.eqb_eq in Hm. intros [= <-]. rewrite chunk_bytes_length.
  assert (length b = 8 * (length b / 8)) as Hlen.
  { pose proof (Nat.div_mod_eq (length b) 8). lia. }
  split; [exact Hlen|]. apply from_bytes_chunk. exact Hlen.
Qed.

Section WholeBytes.
Context (Γ : class_table).

(** X15: the byte interface of a class with a static length of [L] bits:
    [x.to_bytes()] returns [L / 8] bytes and cannot succeed when [L] is not
    a multiple of 8, and [cls.from_bytes(data)] returns an instance only
    from [L / 8] bytes (the reorder sequence being no longer than the
    data). *)
Theorem bytes_interface_static_length fuel ctx h cd L :
  Bitfield_length (cls_fields cd) = Some L →
  (∀ x o h' data,
     h !! x = Some o → dict_get (obj_class o) Γ = Some cd →
     to_bytes Γ fuel x ctx h = (h', Ret data) →
     L = 8 * length data) ∧
  (∀ cls data h' v,
     dict_get cls Γ = Some cd →
     length (cls_reorder cd) ≤ 8 * length data →
     from_bytes Γ fuel cls data ctx h = (h', Ret v) →
     L = 8 * length data).
Proof.
  intros HL. split.
  - intros x o h' data Hx Hcd E. unfold to_bytes in E.
    apply bind_M_inv in E as (bits & h1 & E1 & E2).
    apply lift_inv in E2 as [_ E2]. symmetry in E2.
    apply to_bytes_inv in E2 as [Hlen _].
    rewrite <- Hlen. symmetry. eapply to_bits_length; eauto.
  - intros cls data h' v Hcd HP E. unfold from_bytes in E.
    pose proof (from_bits_length Γ fuel cls cd _ ctx h h' v L Hcd HL E) as [_ H].
    rewrite from_bytes_length in H. symmetry. apply H. exact HP.
Qed.

End WholeBytes.

Lemma bytes_interface_static_length_witness :
  (∀ x o h' data,
     packed_heap 5 9 !! x = Some o → dict_get (obj_class o) classes = Some Packed →
     to_bytes classes 3 x VNone (packed_heap 5 9) = (h', Ret data) →
     8 = 8 * length data) ∧
  (∀ cls data h' v,
     dict_get cls classes = Some Packed →
     length (cls_reorder Packed) ≤ 8 * length data →
     from_bytes classes 3 cls data VNone (packed_heap 5 9) = (h', Ret v) →
     8 = 8 * length data).
Proof.
  exact (bytes_interface_static_length classes 3 VNone (packed_heap 5 9) Packed 8
           eq_refl).
Defined.

(** X16: the round trip through bytes: a legal instance whose encoding is
    a whole number of bytes is returned by [x.to_bytes()] as these bytes,
    and [cls.from_bytes] of them returns an instance that [==] finds equal
    to [x]. *)
Theorem bytes_round_trip Γ ctx h0 n x cls bits :
  obj_class <$> h0 !! x = Some cls →
  legal_instance Γ ctx h0 n x bits →
  length bits mod 8 = 0 →
  ∃ h1 data,
    to_bytes Γ n x ctx h0 = (h1, Ret data) ∧
    Bits.from_bytes data = bits ∧
    ∃ h2 y m,
      from_bytes Γ n cls data ctx h1 = (h2, Ret (VRef y)) ∧
      py_eq m Γ h2 (VRef y) (VRef x) = Ret true.
Proof.
  intros Hcls (o & cd & acc & Hl & Hcd & Hnc & Hf & Hord & ->) Hal.
  rewrite Hl in Hcls. injection Hcls as <-.
  destruct (to_bits_legal Γ ctx h0 n x o cd acc (legal_encodes Γ ctx h0 n)
              Hl Hcd Hf h0 (marks_refl _ _)) as (h1 & E1 & Hm).
  destruct (Bits.to_bytes (Bits.unreorder (cls_reorder cd) acc)) as [data| |] eqn:Hb.
  2,3: unfold Bits.to_bytes in Hb; rewrite Hal in Hb; discriminate.
  pose proof (to_bytes_inv _ _ Hb) as [_ Hinv].
  exists h1, data. split; [|split; [exact Hinv|]].
  { unfold to_bytes. erewrite bind_M_ret; [|exact E1]. unfold lift. rewrite Hb. reflexivity. }
  destruct (decode_record Γ ctx h0 n (obj_class o) cd x o acc
              (legal_decodes Γ ctx h0 n) Hl eq_refl Hcd Hnc Hf Hord h1)
    as (h2 & y & E2 & _ & m & Hc).
  { exists h1, []. rewrite app_nil_r. auto. }
  exists h2, y, m. split.
  - unfold from_bytes. rewrite Hinv. exact E2.
  - apply copy_of_py_eq. exact Hc.
Qed.

Lemma bytes_round_trip_witness :
  ∃ h1 data,
    to_bytes classes 3 0 VNone (packed_heap 5 9) = (h1, Ret data) ∧
    Bits.from_bytes data = [true; false; true; false; true; false; false; true] ∧
    ∃ h2 y m,
      from_bytes classes 3 "Packed" data VNone h1 = (h2, Ret (VRef y)) ∧
      py_eq m classes h2 (VRef y) (VRef 0) = Ret true.
Proof.
  apply (bytes_round_trip classes VNone (packed_heap 5 9) 3 0 "Packed");
    [reflexivity| |reflexivity].
  exists (Obj "Packed" [("a", VInt 5); ("b", VInt 9)]), Packed,
    [true; false; true; false; true; false; false; true].
  split; [reflexivity|]. split; [reflexivity|]. split; [reflexivity|].
  split; [|split; [split; [constructor|simpl; lia]|reflexivity]].
  apply (legal_fields_cons _ _ _ _ _ _ "a" (bf_int 3 None) _ (VInt 5)
           [true; false; true] [false; true; false; false; true]);
    [reflexivity|exact (legal_bf_int _ _ _ 1 _ _ _ 3 None 5 eq_refl)|].
  apply (legal_fields_cons _ _ _ _ _ _ "b" (bf_int 5 None) _ (VInt 9)
           [false; true; false; false; true] []);
    [reflexivity|exact (legal_bf_int _ _ _ 1 _ _ _ 5 None 9 eq_refl)|].
  apply legal_fields_nil.
Defined.

(** ** Plain records round-trip *)

Lemma int_bits_length z w : length (int_bits z w) = w.
Proof. unfold int_bits. rewrite length_fmap, length_seq. reflexivity. Qed.

Section Plain.
Context (Γ : class_table) (ctx : value) (h0 : heap).

Lemma legal_bf_bool n penc porig k d b :
  legal Γ ctx h0 (S (S (S n))) penc porig k (bf_bool d) (VBool b) [b].
Proof.
  unfold bf_bool, bf_map.
  apply legal_map with (u := VInt (if b then 1 else 0)%Z).
  - destruct b; reflexivity.
  - replace [b] with (int_bits (if b then 1 else 0)%Z 1) by (destruct b; reflexivity).
    apply legal_bf_int. destruct b; reflexivity.
  - intros h u' [m Hc]. apply copy_of_prim in Hc as ->; [|reflexivity].
    exists (VBool b). split; [destruct b; reflexivity|]. exists 1. reflexivity.
Qed.

Lemma legal_byte_items n penc porig : ∀ b k,
  legal_items Γ ctx h0 (S (S n)) penc porig k (bf_int 8 None)
    ((λ x, VInt (Z_of_byte x)) <$> b) (Bits.from_bytes b).
Proof.
  induction b as [|x b IH]; intros k; [constructor|].
  rewrite fmap_cons, from_bytes_cons. constructor; [|apply IH].
  replace (Bits.bits_of_byte x) with (int_bits (Z_of_byte x) 8)
    by (destruct x; reflexivity).
  apply legal_bf_int. destruct x; reflexivity.
Qed.

Lemma legal_bytes_field n penc porig k d b :
  legal Γ ctx h0 (S (S (S (S n)))) penc porig k
    (BFMap (BFList (bf_int 8 None) (length b) None) ListAsBytes d)
    (VBytes b) (Bits.from_bytes b).
Proof.
  apply legal_map with (u := VList ((λ x, VInt (Z_of_byte x)) <$> b)).
  - reflexivity.
  - apply legal_list; [apply length_fmap|apply legal_byte_items].
  - intros h u' [m Hc]. apply copy_of_prim in Hc as ->.
    + exists (VBytes b). split; [|exists 1; reflexivity].
      cbn [forward ListAsBytes]. rewrite py_bytes_ints. reflexivity.
    + simpl. apply forallb_forall. intros v Hv.
      apply in_map_iff in Hv as (x & <- & _). reflexivity.
Qed.

Lemma legal_str_field n penc porig k d cps enc :
  utf8_encode cps = Some enc →
  legal Γ ctx h0 (S (S (S (S (S n))))) penc porig k
    (BFMap (BFMap (BFList (bf_int 8 None) (length enc) None) ListAsBytes None)
       BytesAsStr d)
    (VStr cps) (Bits.from_bytes enc).
Proof.
  intros Henc. apply legal_map with (u := VBytes enc).
  - cbn [back BytesAsStr]. unfold str_encode. rewrite Henc. reflexivity.
  - apply legal_bytes_field.
  - intros h u' [m Hc]. apply copy_of_prim in Hc as ->; [|reflexivity].
    exists (VStr cps). split; [|exists 1; reflexivity].
    cbn [forward BytesAsStr]. unfold bytes_decode.
    rewrite (utf8_round_trip _ _ Henc). reflexivity.
Qed.

Lemma legal_lit_int n penc porig k w z :
  out_of_range z w = false →
  legal Γ ctx h0 (S (S (S n))) penc porig k (bf_lit_int w (VInt z)) (VInt z)
    (int_bits z w).
Proof.
  intros Hr. unfold bf_lit_int, bf_lit. apply legal_lit.
  - reflexivity.
  - intros h. rewrite py_eq_S. simpl. rewrite Z.eqb_refl. reflexivity.
  - apply legal_bf_int. exact Hr.
Qed.

Lemma plain_legal n penc porig k field v bits :
  plain field v bits →
  legal Γ ctx h0 (5 + n) penc porig k field v bits.
Proof.
  intros [w d z Hr|d b|m d F b HF <-|m d F cps enc HF Henc <-|w z Hr].
  - apply legal_bf_int. exact Hr.
  - apply legal_bf_bool.
  - apply bf_bytes_inv in HF as ->. apply legal_bytes_field.
  - apply bf_str_inv in HF as ->. apply legal_str_field. exact Henc.
  - apply legal_lit_int. exact Hr.
Qed.

Lemma plain_fields_legal n attrs : ∀ fields bits porig,
  plain_fields attrs fields bits →
  dict_get "bitfield_context" fields = None →
  legal_fields Γ ctx h0 (5 + n) (dict_set "bitfield_context" ctx attrs)
    porig fields bits.
Proof.
  intros fields bits porig H. revert porig.
  induction H as [|name field rest v b bs Hv Hp Hrest IH]; intros porig Hnc.
  - constructor.
  - cbn [dict_get] in Hnc.
    destruct (String.eqb_spec "bitfield_context" name) as [<-|Hne]; [discriminate|].
    apply legal_fields_cons with (v := v).
    + rewrite dict_get_set_ne by exact Hne. exact Hv.
    + apply plain_legal. exact Hp.
    + apply IH. exact Hnc.
Qed.

(** X17: records of scalar fields round-trip: when every field of the
    class of [x] is made by [bf_int], [bf_bool], [bf_bytes], [bf_str] or
    [bf_lit_int] and holds a value of the kind it carries, no field is
    named [bitfield_context], and the reorder of the class is a valid
    order for the bits of the fields (a permutation of [0..len(P)-1], no
    longer than the bits, as the specification requires of a reorder),
    [x.to_bits()] returns the bits of the fields in the order of the
    declaration, moved by [unreorder], and [cls.from_bits] of them returns
    an instance that [==] finds equal to [x]. *)
Theorem plain_round_trip n x o cd bits :
  h0 !! x = Some o →
  dict_get (obj_class o) Γ = Some cd →
  dict_get "bitfield_context" (cls_fields cd) = None →
  plain_fields (obj_dict o) (cls_fields cd) bits →
  Bits.valid_order (cls_reorder cd) (length bits) →
  ∃ h1,
    to_bits Γ (5 + n) x ctx h0
      = (h1, Ret (Bits.unreorder (cls_reorder cd) bits)) ∧
    ∃ h2 y m,
      from_bits Γ (5 + n) (obj_class o)
        (Bits.unreorder (cls_reorder cd) bits) ctx h1 = (h2, Ret (VRef y)) ∧
      py_eq m Γ h2 (VRef y) (VRef x) = Ret true.
Proof.
  intros Hl Hcd Hnc Hp Hord.
  pose proof (plain_fields_legal n _ _ _ [("bitfield_context", ctx)] Hp Hnc) as Hf.
  destruct (to_bits_legal Γ ctx h0 (5 + n) x o cd bits (legal_encodes Γ ctx h0 (5 + n))
              Hl Hcd Hf h0 (marks_refl _ _)) as (h1 & E1 & Hm).
  exists h1. split; [exact E1|].
  destruct (decode_record Γ ctx h0 (5 + n) (obj_class o) cd x o bits
              (legal_decodes Γ ctx h0 (5 + n)) Hl eq_refl Hcd Hnc Hf Hord h1)
    as (h2 & y & E2 & _ & m & Hc).
  { exists h1, []. rewrite app_nil_r. auto. }
  exists h2, y, m. split; [exact E2|].
  apply copy_of_py_eq. exact Hc.
Qed.

End Plain.

Lemma aprs_plain_fields :
  plain_fields (obj_dict (Obj "Aprs"
     [("allow_position_check", VBool true); ("_pad", VInt 0);
      ("aprs_ssid", VInt 9); ("_pad2", VInt 0);
      ("aprs_symbol", VStr [0x2F; 0x3E]%N)])) (cls_fields Aprs)
    ([true] ++ int_bits 0 1 ++ int_bits 9 4 ++ int_bits 0 4
       ++ Bits.from_bytes [x2f; x3e] ++ []).
Proof.
  apply (plain_fields_cons _ _ _ _ (VBool true) [true]);
    [reflexivity|apply plain_bool|].
  apply (plain_fields_cons _ _ _ _ (VInt 0) (int_bits 0 1));
    [reflexivity|apply plain_lit_int; reflexivity|].
  apply (plain_fields_cons _ _ _ _ (VInt 9) (int_bits 9 4));
    [reflexivity|apply plain_int; reflexivity|].
  apply (plain_fields_cons _ _ _ _ (VInt 0) (int_bits 0 4));
    [reflexivity|apply plain_lit_int; reflexivity|].
  apply (plain_fields_cons _ _ _ _ (VStr [0x2F; 0x3E]%N)
           (Bits.from_bytes [x2f; x3e]));
    [reflexivity
    |apply (plain_str 2 None _ [0x2F; 0x3E]%N [x2f; x3e]); reflexivity|].
  apply plain_fields_nil.
Qed.

Lemma nibbles_plain_fields :
  plain_fields (obj_dict (Obj "Nibbles" [("hi", VInt 10); ("lo", VInt 11)]))
    (cls_fields Nibbles) (int_bits 10 4 ++ int_bits 11 4 ++ []).
Proof.
  apply (plain_fields_cons _ _ _ _ (VInt 10) (int_bits 10 4));
    [reflexivity|apply plain_int; reflexivity|].
  apply (plain_fields_cons _ _ _ _ (VInt 11) (int_bits 11 4));
    [reflexivity|apply plain_int; reflexivity|].
  apply plain_fields_nil.
Qed.

Lemma nibbles_valid_order : Bits.valid_order [4; 5; 6; 7; 0; 1; 2; 3] 8.
Proof.
  split; [|simpl; lia]. simpl.
  change [4; 5; 6; 7; 0; 1; 2; 3] with ([4; 5; 6; 7] ++ [0; 1; 2; 3]).
  rewrite Permutation_app_comm. reflexivity.
Qed.

Lemma plain_round_trip_witness :
  (∃ h1,
     to_bits [("Aprs", Aprs)] 5 0 VNone aprs_heap
       = (h1, Ret [true; false; true; false; false; true; false; false; false; false;
          false; false; true; false; true; true; true; true;
          false; false; true; true; true; true; true; false]) ∧
     ∃ h2 y m,
       from_bits [("Aprs", Aprs)] 5 "Aprs"
         [true; false; true; false; false; true; false; false; false; false;
          false; false; true; false; true; true; true; true;
          false; false; true; true; true; true; true; false] VNone h1
         = (h2, Ret (VRef y)) ∧
       py_eq m [("Aprs", Aprs)] h2 (VRef y) (VRef 0) = Ret true) ∧
  Bits.valid_order (cls_reorder Nibbles) 8 ∧
  (∃ h1,
     to_bits [("Nibbles", Nibbles)] 5 0 VNone nibbles_heap
       = (h1, Ret [true; false; true; true; true; false; true; false]) ∧
     ∃ h2 y m,
       from_bits [("Nibbles", Nibbles)] 5 "Nibbles"
         [true; false; true; true; true; false; true; false] VNone h1
         = (h2, Ret (VRef y)) ∧
       py_eq m [("Nibbles", Nibbles)] h2 (VRef y) (VRef 0) = Ret true).
Proof.
  split; [|split; [exact nibbles_valid_order|]].
  - apply (plain_round_trip [("Aprs", Aprs)] VNone aprs_heap 0 0 _ Aprs _
             eq_refl eq_refl eq_refl aprs_plain_fields).
    split; [constructor|simpl; lia].
  - exact (plain_round_trip [("Nibbles", Nibbles)] VNone nibbles_heap 0 0 _
             Nibbles _ eq_refl eq_refl eq_refl nibbles_plain_fields
             nibbles_valid_order).
Defined.

(** ** Equality is symmetric *)

Lemma all_fields_ext (t1 t2 : string → outcome bool) names b :
  (∀ name r, t1 name = Ret r → t2 name = Ret r) →
  all_fields t1 names = Ret b → all_fields t2 names = Ret b.
Proof.
  intros Ht. induction names as [|name names IH]; simpl; [auto|].
  destruct (t1 name) as [r| |] eqn:E; simpl; try discriminate.
  rewrite (Ht _ _ E). simpl. destruct r; auto.
Qed.

Lemma py_list_eq_sym (eq : value → value → outcome bool) :
  (∀ v w r, eq v w = Ret r → eq w v = Ret r) →
  ∀ vs ws b, py_list_eq eq vs ws = Ret b → py_list_eq eq ws vs = Ret b.
Proof.
  intros Heq. induction vs as [|v vs IH]; intros [|w ws] b E; simpl in *; auto.
  assert (∀ r, match v, w with
               | VRef lv, VRef lw => if lv =? lw then Ret true else eq v w
               | _, _ => eq v w
               end = Ret r →
               match w, v with
               | VRef lv, VRef lw => if lv =? lw then Ret true else eq w v
               | _, _ => eq w v
               end = Ret r) as Hhead.
  { intros r. destruct v, w; auto.
    rewrite (Nat.eqb_sym l0 l). destruct (l =? l0); auto. }
  destruct (match v, w with
            | VRef lv, VRef lw => if lv =? lw then Ret true else eq v w
            | _, _ => eq v w
            end) as [r| |] eqn:E1; simpl in E; try discriminate.
  rewrite (Hhead _ eq_refl). simpl. destruct r; auto.
Qed.

Section Symmetry.
Context (Γ : class_table) (h : heap).

Lemma Bitfield_eq_swap (eq : value → value → outcome bool) x y ox oy b :
  (∀ v w r, eq v w = Ret r → eq w v = Ret r) →
  h !! x = Some ox → h !! y = Some oy → obj_class ox = obj_class oy →
  Bitfield_eq eq Γ h x (VRef y) = Ret b →
  Bitfield_eq eq Γ h y (VRef x) = Ret b.
Proof.
  intros Heq Hx Hy Hc. unfold Bitfield_eq, read_object. rewrite Hx, Hy. simpl.
  rewrite <- Hc, issubclass_refl. simpl.
  destruct (dict_get (obj_class ox) Γ) as [cd|]; [|discriminate].
  apply all_fields_ext. intros name r.
  destruct (read_attr (class_attr Γ) h x name) as [a| |]; simpl;
    try discriminate.
  destruct (read_attr (class_attr Γ) h y name) as [c| |]; simpl;
    try discriminate.
  apply Heq.
Qed.

Lemma py_eq_sym fuel :
  proper_hierarchy Γ →
  ∀ v w b, py_eq fuel Γ h v w = Ret b → py_eq fuel Γ h w v = Ret b.
Proof.
  intros Hwf. induction fuel as [|fuel IH]; intros v w b E; [discriminate|].
  rewrite py_eq_S in *.
  destruct v, w; try exact E;
    try (simpl in *; rewrite Z.eqb_sym; exact E);
    try (rewrite (bool_decide_ext _ _ (symmetry_iff eq _ _)); exact E).
  - (* two lists *)
    rewrite (Nat.eqb_sym (length vs0) (length vs)).
    destruct (negb (length vs =? length vs0)); [exact E|].
    apply py_list_eq_sym; [exact IH|exact E].
  - (* two instances *)
    unfold read_object in *.
    destruct (h !! l) as [ov|] eqn:Hv; [|discriminate].
    destruct (h !! l0) as [ow|] eqn:Hw; [|discriminate].
    simpl in *.
    destruct (String.eqb_spec (obj_class ow) (obj_class ov)) as [Hc|Hc].
    + rewrite (proj2 (String.eqb_eq _ _) (eq_sym Hc)). simpl in *.
      eapply Bitfield_eq_swap; eauto.
    + rewrite (eqb_neq _ _ (not_eq_sym Hc)). simpl in *.
      destruct (issubclass Γ (obj_class ow) (obj_class ov)) eqn:Hs.
      * rewrite (Hwf _ _ Hc Hs). exact E.
      * destruct (issubclass Γ (obj_class ov) (obj_class ow)) eqn:Hs'; [exact E|].
        unfold Bitfield_eq, read_object in *. rewrite Hv, Hw in *. simpl in *.
        rewrite Hs in E. rewrite Hs'. exact E.
Qed.

(** X18: [==] on the values of fields is symmetric: whenever [v == w]
    returns a truth value, [w == v] returns the same one; between records
    also when one class derives from the other, where the [__eq__] of the
    derived class answers for both orders. *)
Theorem py_eq_symmetric fuel v w b :
  proper_hierarchy Γ →
  py_eq fuel Γ h v w = Ret b ↔ py_eq fuel Γ h w v = Ret b.
Proof. intros Hwf. split; apply py_eq_sym; exact Hwf. Qed.

End Symmetry.

Lemma py_eq_symmetric_witness :
  py_eq 2 classes settings_heap (VRef 0) (VRef 1) = Ret false ↔
  py_eq 2 classes settings_heap (VRef 1) (VRef 0) = Ret false.
Proof.
  exact (py_eq_symmetric classes settings_heap 2 (VRef 0) (VRef 1) false
           classes_proper_hierarchy).
Defined.

(** ** Fields declared by a class annotation *)

Section Annotation.
Context (Γ : class_table).

(** X19: a field declared by the annotation of a record class alone gets
    the width [cls.length()], and a class whose length is dynamic cannot
    be declared this way (a [TypeError]); encoding an instance of that very
    class through such a field is the [to_bits] of the instance: the width
    check of the nested record never fails on it. *)
Theorem class_annotation_field c cd :
  dict_get c Γ = Some cd →
  match Bitfield_length (cls_fields cd) with
  | None =>
      distill_field Γ (HintClass c) None
        = Raise (Exn TypeError MsgCannotInferLength)
  | Some L =>
      distill_field Γ (HintClass c) None = Ret (BFBitfield c L None) ∧
      ∀ fuel l o p ctx h,
        h !! l = Some o → obj_class o = c →
        bftype_to_bits Γ (S fuel) (BFBitfield c L None) (VRef l) p ctx h
          = to_bits Γ fuel l ctx h
  end.
Proof.
  intros Hcd. destruct (Bitfield_length (cls_fields cd)) as [L|] eqn:HL.
  - split.
    + simpl. rewrite Hcd, HL. reflexivity.
    + intros fuel l o p ctx h Hl Hc. rewrite bftype_to_bits_S, bind_M.
      fold (to_bits Γ fuel l ctx h).
      destruct (to_bits Γ fuel l ctx h) as [h' [bits|e|w]] eqn:E; try reflexivity.
      subst c.
      rewrite (to_bits_length Γ fuel l ctx h h' bits o cd L Hl Hcd HL E).
      rewrite Nat.eqb_refl. reflexivity.
  - simpl. rewrite Hcd, HL. reflexivity.
Qed.

End Annotation.

Lemma class_annotation_field_witness :
  distill_field classes (HintClass "Packed") None
    = Ret (BFBitfield "Packed" 8 None) ∧
  ∀ fuel l o p ctx h,
    h !! l = Some o → obj_class o = "Packed" →
    bftype_to_bits classes (S fuel) (BFBitfield "Packed" 8 None) (VRef l) p ctx h
      = to_bits classes fuel l ctx h.
Proof. exact (class_annotation_field classes "Packed" Packed eq_refl). Defined.

(** ** Defaults of the sized builders *)

Section Defaults.
Context (Γ : class_table).

(** X20: [bf_bytes(n, default=b)] and [bf_str(n, default=s)] accept a
    default exactly when it has [n] bytes, for a string the bytes of its
    utf-8 encoding, and refuse any other with the default-length error; an
    accepted default is a value that the field encodes. *)
Theorem sized_defaults_encode fuel n p ctx h :
  (∀ b,
     if length b =? n
     then ∃ F, bf_bytes n (Some (VBytes b)) = Ret F ∧
               bftype_to_bits Γ (4 + fuel) F (VBytes b) p ctx h
                 = (h, Ret (Bits.from_bytes b))
     else bf_bytes n (Some (VBytes b))
          = Raise (Exn ValueError (MsgDefaultLength n (length b)))) ∧
  (∀ cps enc,
     utf8_encode cps = Some enc →
     if length enc =? n
     then ∃ F, bf_str n (Some (VStr cps)) = Ret F ∧
               bftype_to_bits Γ (5 + fuel) F (VStr cps) p ctx h
                 = (h, Ret (Bits.from_bytes enc))
     else bf_str n (Some (VStr cps))
          = Raise (Exn ValueError (MsgDefaultLength n (length enc)))).
Proof.
  split.
  - intros b.
    assert (bf_bytes n (Some (VBytes b))
            = if length b =? n
              then Ret (BFMap (BFList (bf_int 8 None) n None) ListAsBytes
                          (Some (VBytes b)))
              else Raise (Exn ValueError (MsgDefaultLength n (length b)))) as E.
    { unfold bf_bytes. simpl. destruct (length b =? n); reflexivity. }
    rewrite E. destruct (length b =? n) eqn:Hn; [|reflexivity].
    eexists. split; [reflexivity|].
    rewrite encode_bytes_field, Hn. reflexivity.
  - intros cps enc Henc.
    assert (bf_str n (Some (VStr cps))
            = if length enc =? n
              then Ret (BFMap (BFMap (BFList (bf_int 8 None) n None)
                                 ListAsBytes None) BytesAsStr (Some (VStr cps)))
              else Raise (Exn ValueError (MsgDefaultLength n (length enc)))) as E.
    { unfold bf_str, str_encode. rewrite Henc. simpl.
      destruct (length enc =? n); reflexivity. }
    rewrite E. destruct (length enc =? n) eqn:Hn; [|reflexivity].
    eexists. split; [reflexivity|].
    rewrite (encode_str_field _ _ _ _ _ _ _ _ _ Henc), Hn. reflexivity.
Qed.

(** X21: the descriptors of the scalar builders have a static length:
    [bf_int(n)] and [bf_lit_int(n)] are [n] bits wide, [bf_bool()] one bit,
    [bf_bytes(n)] and [bf_str(n)] [8 * n] bits; and they keep their default
    at the top level, so that finalization accepts every one of them. *)
Theorem builders_static_length n d v :
  (bftype_length (bf_int n d) = Some n ∧
   bftype_has_children_with_default (bf_int n d) = false) ∧
  (bftype_length (bf_bool d) = Some 1 ∧
   bftype_has_children_with_default (bf_bool d) = false) ∧
  (bftype_length (bf_lit_int n v) = Some n ∧
   bftype_has_children_with_default (bf_lit_int n v) = false) ∧
  (∀ F, bf_bytes n d = Ret F →
     bftype_length F = Some (8 * n) ∧
     bftype_has_children_with_default F = false) ∧
  (∀ F, bf_str n d = Ret F →
     bftype_length F = Some (8 * n) ∧
     bftype_has_children_with_default F = false).
Proof.
  repeat split; try reflexivity.
  - apply bf_bytes_inv in H as ->. simpl. f_equal. lia.
  - apply bf_bytes_inv in H as ->. reflexivity.
  - apply bf_str_inv in H as ->. simpl. f_equal. lia.
  - apply bf_str_inv in H as ->. reflexivity.
Qed.

End Defaults.

(** * The first engine, [packedbits.py] *)

(** ** Encoding reads only *)

Lemma pb_encode_field_heap rec fuel Δ self attrs bitstring field :
  (∀ l h h' r, rec l h = (h', r) → h' = h) →
  ∀ h h' r,
    PackedBits.encode_field rec fuel Δ self attrs bitstring field h = (h', r) →
    h' = h.
Proof.
  intros Hrec h h' r E. unfold PackedBits.encode_field in E.
  eapply (bind_M_heap (λ h1 h2, h2 = h1)) in E; [exact E|congruence|..].
  - intros h7 r7 E7. apply (getattr_heap _ _ _ _ _ _ E7).
  - intros v h7 h8 r8 E8.
    eapply (bind_M_heap (λ h1 h2, h2 = h1)) in E8; [exact E8|congruence|..].
    + intros h9 r9 E9. apply lift_heap in E9. exact E9.
    + intros [ft n] h9 h10 r10 E10.
      eapply (bind_M_heap (λ h1 h2, h2 = h1)) in E10; [exact E10|congruence|..].
      * intros h11 r11 E11. destruct ft.
        -- eapply (bind_M_heap (λ h1 h2, h2 = h1)) in E11; [exact E11|congruence|..].
           ++ intros h12 r12 [= <- _]. reflexivity.
           ++ intros b h12 h13 r13 E13. destruct (negb b); inversion E13; reflexivity.
        -- eapply (bind_M_heap (λ h1 h2, h2 = h1)) in E11; [exact E11|congruence|..].
           ++ intros h12 r12 [= <- _]. reflexivity.
           ++ intros b h12 h13 r13 E13. destruct b; inversion E13; reflexivity.
      * intros [] h11 h12 r12 E12.
        destruct v; try (inversion E12; reflexivity);
          try (destruct (negb _); [inversion E12; reflexivity|];
               cbn [py_int] in E12;
               try (destruct (_ <=? _)%Z); inversion E12; reflexivity).
        eapply (bind_M_heap (λ h1 h2, h2 = h1)) in E12; [exact E12|congruence|..].
        -- intros h13 r13 E13. eapply Hrec. exact E13.
        -- intros bits h13 h14 r14 E14. destruct (negb _); inversion E14; reflexivity.
Qed.

Lemma pb_to_bitarray_heap fuel Δ : ∀ x h h' r,
  PackedBits.to_bitarray fuel Δ x h = (h', r) → h' = h.
Proof.
  induction fuel as [|fuel IH]; intros x h h' r E; [inversion E; reflexivity|].
  cbn [PackedBits.to_bitarray] in E.
  eapply (bind_M_heap (λ h1 h2, h2 = h1)) in E; [exact E|congruence|..].
  - intros h1 r1 E1. apply (get_object_heap _ _ _ _ E1).
  - intros o h1 h2 r2 E2.
    eapply (bind_M_heap (λ h1 h2, h2 = h1)) in E2; [exact E2|congruence|..].
    + intros h3 r3 E3. unfold PackedBits.get_pb_class in E3.
      destruct (dict_get _ Δ); inversion E3; reflexivity.
    + intros c h3 h4 r4 E4.
      eapply (for_each_heap (λ h1 h2, h2 = h1)) in E4; [exact E4|auto|congruence|].
      intros acc f h5 h6 r6 _ E6.
      eapply pb_encode_field_heap; [|exact E6]. apply IH.
Qed.

(** X22: [PackedBits.to_bitarray] and [to_bytes] only read: whatever they
    return or raise, the store is as it was (unlike [Bitfield.to_bits], the
    encoder of the first engine sets no attribute). *)
Theorem pb_encoding_reads_only fuel Δ x h :
  (PackedBits.to_bitarray fuel Δ x h).1 = h ∧
  (PackedBits.to_bytes fuel Δ x h).1 = h.
Proof.
  assert ((PackedBits.to_bitarray fuel Δ x h).1 = h) as H.
  { destruct (PackedBits.to_bitarray fuel Δ x h) as [h' r] eqn:E.
    apply pb_to_bitarray_heap in E. exact E. }
  split; [exact H|]. unfold PackedBits.to_bytes. rewrite bind_M.
  destruct (PackedBits.to_bitarray fuel Δ x h) as [h' [bits|e|w]]; simpl in *;
    try exact H.
  destruct (negb _); exact H.
Qed.

(** ** The constructor *)

Lemma pb_init_loop_ok kwargs h cls : ∀ fields d attrs,
  PackedBits.init_attrs kwargs fields d = Some attrs →
  for_each (λ (_ : unit) field,
    match PackedBits.default (PackedBits.bitfield_of field) with
    | None =>
        match dict_get (PackedBits.name field) kwargs with
        | None => raise TypeError
                    (MsgUser ("Missing required field " +:+ PackedBits.name field))
        | Some v => setattr (length h) (PackedBits.name field) v
        end
    | Some d => setattr (length h) (PackedBits.name field) d
    end) () fields (h ++ [Obj cls d])
  = (h ++ [Obj cls attrs], Ret ()).
Proof.
  induction fields as [|f fields IH]; intros d attrs E; simpl in E.
  - injection E as <-. reflexivity.
  - cbn [for_each]. unfold PackedBits.stored in E.
    destruct (PackedBits.default (PackedBits.bitfield_of f)) as [v|].
    + erewrite bind_M_ret; [|apply setattr_last]. apply IH. exact E.
    + destruct (dict_get (PackedBits.name f) kwargs) as [v|]; [|discriminate].
      erewrite bind_M_ret; [|apply setattr_last]. apply IH. exact E.
Qed.

Lemma pb_init_loop_missing kwargs h cls nm : ∀ fields d,
  PackedBits.first_unset kwargs fields = Some nm →
  ∃ d',
    for_each (λ (_ : unit) field,
      match PackedBits.default (PackedBits.bitfield_of field) with
      | None =>
          match dict_get (PackedBits.name field) kwargs with
          | None => raise TypeError
                      (MsgUser ("Missing required field " +:+ PackedBits.name field))
          | Some v => setattr (length h) (PackedBits.name field) v
          end
      | Some d => setattr (length h) (PackedBits.name field) d
      end) () fields (h ++ [Obj cls d])
    = (h ++ [Obj cls d'],
       Raise (Exn TypeError (MsgUser ("Missing required field " +:+ nm)))).
Proof.
  induction fields as [|f fields IH]; intros d H; simpl in H; [discriminate|].
  cbn [for_each]. unfold PackedBits.stored in H.
  destruct (PackedBits.default (PackedBits.bitfield_of f)) as [v|].
  - erewrite bind_M_ret; [|apply setattr_last]. apply IH. exact H.
  - destruct (dict_get (PackedBits.name f) kwargs) as [v|].
    + erewrite bind_M_ret; [|apply setattr_last]. apply IH. exact H.
    + injection H as <-. exists d. reflexivity.
Qed.

Lemma pb_first_unset_None kwargs fields : ∀ d,
  PackedBits.first_unset kwargs fields = None →
  ∃ attrs, PackedBits.init_attrs kwargs fields d = Some attrs.
Proof.
  induction fields as [|f fields IH]; intros d H; simpl in *; [eauto|].
  destruct (PackedBits.stored kwargs f); [|discriminate]. apply IH. exact H.
Qed.

Lemma pb_init_attrs_other kwargs k fields : ∀ d attrs,
  PackedBits.init_attrs kwargs fields d = Some attrs →
  k ∉ PackedBits.name <$> fields → dict_get k attrs = dict_get k d.
Proof.
  induction fields as [|f fields IH]; intros d attrs E Hk; simpl in E.
  - injection E as <-. reflexivity.
  - destruct (PackedBits.stored kwargs f) as [v|]; [|discriminate].
    rewrite fmap_cons in Hk. apply not_elem_of_cons in Hk as [Hne Hk].
    rewrite (IH _ _ E Hk). apply dict_get_set_ne. congruence.
Qed.

Lemma pb_init_attrs_field kwargs fields : ∀ d attrs f,
  PackedBits.init_attrs kwargs fields d = Some attrs →
  NoDup (PackedBits.name <$> fields) → f ∈ fields →
  dict_get (PackedBits.name f) attrs = PackedBits.stored kwargs f.
Proof.
  induction fields as [|f0 fields IH]; intros d attrs f E Hnd Hin;
    simpl in E; [inversion Hin|].
  destruct (PackedBits.stored kwargs f0) as [v|] eqn:Hv; [|discriminate].
  rewrite fmap_cons in Hnd. apply list.NoDup_cons in Hnd as [Hn Hnd].
  apply elem_of_cons in Hin as [->|Hin].
  - rewrite (pb_init_attrs_other _ _ _ _ _ E Hn), dict_get_set_eq. congruence.
  - eapply IH; eauto.
Qed.

Lemma pb_init_spec Δ cls c kwargs h attrs :
  dict_get cls Δ = Some c →
  PackedBits.init_attrs kwargs (PackedBits.pb_fields c) [] = Some attrs →
  PackedBits.init Δ cls kwargs h = (h ++ [Obj cls attrs], Ret (length h)).
Proof.
  intros Hc E. unfold PackedBits.init, PackedBits.get_pb_class. rewrite Hc.
  rewrite bind_mret. unfold alloc. rewrite bind_M. cbn beta iota.
  rewrite bind_M, (pb_init_loop_ok _ _ _ _ _ _ E). reflexivity.
Qed.

(** X23: [PackedBits.__init__] gives a field that has a default its
    default, whatever keyword argument is passed for it, and every other
    field its keyword argument; keyword arguments that name no field are
    dropped.  It fails only when a field without a default has no
    argument, with the [TypeError] of the first such field. *)
Theorem pb_init_outcome Δ cls c kwargs h :
  dict_get cls Δ = Some c →
  match PackedBits.first_unset kwargs (PackedBits.pb_fields c) with
  | Some nm =>
      ∃ o, PackedBits.init Δ cls kwargs h
           = (h ++ [o],
              Raise (Exn TypeError (MsgUser ("Missing required field " +:+ nm))))
  | None =>
      ∃ attrs,
        PackedBits.init Δ cls kwargs h = (h ++ [Obj cls attrs], Ret (length h)) ∧
        (∀ k, k ∉ PackedBits.name <$> PackedBits.pb_fields c →
              dict_get k attrs = None) ∧
        (NoDup (PackedBits.name <$> PackedBits.pb_fields c) →
         ∀ f, f ∈ PackedBits.pb_fields c →
           dict_get (PackedBits.name f) attrs
           = match PackedBits.default (PackedBits.bitfield_of f) with
             | Some d => Some d
             | None => dict_get (PackedBits.name f) kwargs
             end)
  end.
Proof.
  intros Hc.
  destruct (PackedBits.first_unset kwargs (PackedBits.pb_fields c)) as [nm|] eqn:Hm.
  - destruct (pb_init_loop_missing kwargs h cls _ _ [] Hm) as [d' E].
    exists (Obj cls d'). unfold PackedBits.init, PackedBits.get_pb_class. rewrite Hc.
    rewrite bind_mret. unfold alloc. rewrite bind_M. cbn beta iota.
    rewrite bind_M, E. reflexivity.
  - destruct (pb_first_unset_None _ _ [] Hm) as [attrs E].
    exists attrs. split; [exact (pb_init_spec _ _ _ _ _ _ Hc E)|]. split.
    + intros k Hk. rewrite (pb_init_attrs_other _ _ _ _ _ E Hk). reflexivity.
    + intros Hnd f Hin. apply (pb_init_attrs_field _ _ _ _ _ E Hnd Hin).
Qed.

Lemma pb_init_outcome_witness :
  ∃ attrs,
    PackedBits.init [("Header", PackedBits.Header)] "Header"
      [("kind", VInt 7); ("version", VInt 2); ("spare", VInt 0)] []
      = ([] ++ [Obj "Header" attrs], Ret 0) ∧
    (∀ k, k ∉ ["kind"; "version"] → dict_get k attrs = None) ∧
    (NoDup ["kind"; "version"] →
     ∀ f, f ∈ PackedBits.pb_fields PackedBits.Header →
       dict_get (PackedBits.name f) attrs
       = match PackedBits.default (PackedBits.bitfield_of f) with
         | Some d => Some d
         | None => dict_get (PackedBits.name f)
                     [("kind", VInt 7); ("version", VInt 2); ("spare", VInt 0)]
         end).
Proof.
  exact (pb_init_outcome [("Header", PackedBits.Header)] "Header" PackedBits.Header
           [("kind", VInt 7); ("version", VInt 2); ("spare", VInt 0)] [] eq_refl).
Defined.

(** ** Integers, bit by bit *)

Lemma land_bit v k :
  (0 ≤ k)%Z → negb (Z.land v (Z.shiftl 1 k) =? 0)%Z = Z.testbit v k.
Proof.
  intros Hk. rewrite Z.shiftl_1_l.
  destruct (Z.testbit v k) eqn:Hb.
  - apply negb_true_iff, Z.eqb_neq. intros H0.
    apply (f_equal (λ z, Z.testbit z k)) in H0.
    rewrite Z.land_spec, Hb, Z.pow2_bits_true, Z.bits_0 in H0 by lia. discriminate.
  - apply negb_false_iff, Z.eqb_eq, Z.bits_inj'. intros j Hj.
    rewrite Z.land_spec, Z.bits_0, Z.pow2_bits_eqb by lia.
    destruct (Z.eqb_spec k j) as [<-|]; [rewrite Hb|]; apply andb_false_r || reflexivity.
Qed.

Lemma int_to_bits_int_bits v n :
  PackedBits.int_to_bits v (Z.of_nat n) = int_bits v n.
Proof.
  unfold PackedBits.int_to_bits, int_bits. rewrite Nat2Z.id.
  apply list_fmap_ext. intros i j Hj. apply lookup_seq in Hj as [-> Hj]. simpl.
  rewrite land_bit by lia. f_equal. lia.
Qed.

Lemma int_bits_mod v n : int_bits v n = int_bits (v mod 2 ^ Z.of_nat n) n.
Proof.
  unfold int_bits. apply list_fmap_ext. intros i j Hj.
  apply lookup_seq in Hj as [-> Hj]. simpl.
  rewrite Z.mod_pow2_bits_low by lia. reflexivity.
Qed.

Lemma to_int_int_to_bits v n :
  Bits.to_int (PackedBits.int_to_bits v (Z.of_nat n)) = (v mod 2 ^ Z.of_nat n)%Z.
Proof.
  rewrite int_to_bits_int_bits, int_bits_mod. apply to_int_from_int.
  pose proof (Z.mod_pos_bound v (2 ^ Z.of_nat n) ltac:(lia)).
  unfold out_of_range. apply orb_false_iff.
  split; [apply Z.leb_gt|apply Z.ltb_ge]; lia.
Qed.

Lemma b2z_bit_pos b k : (0 < k)%Z → Z.testbit (Z.b2z b) k = false.
Proof.
  intros Hk. destruct b; simpl; [|apply Z.bits_0].
  apply Z.bits_above_log2; simpl; lia.
Qed.

Lemma lor_disjoint a b r :
  (0 < r)%Z →
  Z.lor (a * 2 ^ r) (Z.shiftl (Z.b2z b) (r - 1))
  = ((2 * a + Z.b2z b) * 2 ^ (r - 1))%Z.
Proof.
  intros Hr. rewrite Z.shiftl_mul_pow2 by lia.
  replace (a * 2 ^ r)%Z with (2 * a * 2 ^ (r - 1))%Z
    by (replace r with (r - 1 + 1)%Z at 2 by lia;
        rewrite Z.pow_add_r, Z.pow_1_r by lia; lia).
  assert (Z.land (2 * a * 2 ^ (r - 1)) (Z.b2z b * 2 ^ (r - 1)) = 0)%Z as Hland.
  { apply Z.bits_inj'. intros j Hj.
    rewrite Z.land_spec, Z.bits_0, !Z.mul_pow2_bits by lia.
    destruct (Z.compare_spec (j - (r - 1)) 0) as [H|H|H].
    - rewrite H, Z.testbit_even_0. reflexivity.
    - rewrite (Z.testbit_neg_r (2 * a)) by lia. reflexivity.
    - rewrite b2z_bit_pos by lia. apply andb_false_r. }
  rewrite <- Z.lxor_lor, <- Z.add_nocarry_lxor by exact Hland. lia.
Qed.

Lemma read_int_spec bitarray : ∀ (bits : list bool) a i0 cursor,
  take (length bits) (drop cursor bitarray) = bits →
  length bits ≤ length bitarray - cursor →
  PackedBits.read_int bitarray (Z.of_nat (i0 + length bits))
    (seq i0 (length bits)) (a * 2 ^ Z.of_nat (length bits)) cursor
  = Ret (foldl (λ acc x, (2 * acc + Z.b2z x)%Z) a bits, cursor + length bits).
Proof.
  induction bits as [|b bits IH]; intros a i0 cursor Hb Hlen.
  - simpl. rewrite Z.mul_1_r, Nat.add_0_r. reflexivity.
  - cbn [length seq PackedBits.read_int].
    assert (bitarray !! cursor = Some b) as Hc.
    { apply (f_equal (λ l, l !! 0)) in Hb. simpl in Hb.
      rewrite lookup_take_lt, lookup_drop, Nat.add_0_r in Hb by (simpl; lia).
      exact Hb. }
    rewrite Hc.
    replace (Z.of_nat (i0 + S (length bits)) - Z.of_nat i0 - 1)%Z
      with (Z.of_nat (S (length bits)) - 1)%Z by lia.
    rewrite lor_disjoint by lia.
    replace (Z.of_nat (S (length bits)) - 1)%Z with (Z.of_nat (length bits)) by lia.
    replace (i0 + S (length bits)) with (S i0 + length bits) by lia.
    rewrite IH.
    + cbn [foldl]. replace (S cursor + length bits) with (cursor + S (length bits)) by lia.
      reflexivity.
    + rewrite (drop_S _ _ _ Hc) in Hb. cbn [length take] in Hb.
      injection Hb as Hb. exact Hb.
    + simpl in Hlen. lia.
Qed.

Lemma read_int_to_int bitarray n cursor :
  cursor + n ≤ length bitarray →
  PackedBits.read_int bitarray (Z.of_nat n) (seq 0 n) 0 cursor
  = Ret (Bits.to_int (take n (drop cursor bitarray)), cursor + n).
Proof.
  intros Hlen.
  pose proof (read_int_spec bitarray (take n (drop cursor bitarray)) 0 0 cursor) as H.
  rewrite length_take, length_drop, Nat.min_l in H by lia.
  simpl in H. apply H; [reflexivity|lia].
Qed.

Lemma read_int_short bitarray n : ∀ steps a cursor,
  cursor ≤ length bitarray →
  length bitarray < cursor + length steps →
  PackedBits.read_int bitarray n steps a cursor
  = Raise (Exn (UserError "IndexError") (MsgUser "list index out of range")).
Proof.
  induction steps as [|i steps IH]; intros a cursor Hc Hlen; cbn [length] in Hlen;
    [lia|].
  cbn [PackedBits.read_int].
  destruct (bitarray !! cursor) as [b|] eqn:Hb; [|reflexivity].
  apply lookup_lt_Some in Hb. apply IH; lia.
Qed.

(** ** Classes of integer fields *)

Lemma dict_set_foldl_new (vals : dict value) : ∀ acc,
  NoDup (acc.*1 ++ vals.*1) →
  foldl (λ d '(nm, v), dict_set nm v d) acc vals = acc ++ vals.
Proof.
  induction vals as [|[nm v] vals IH]; intros acc Hnd; simpl.
  - rewrite app_nil_r. reflexivity.
  - assert (nm ∉ acc.*1) as Hnm.
    { apply list.NoDup_app in Hnd as (_ & Hdis & _). intros Hin.
      apply (Hdis _ Hin). rewrite fmap_cons. left. }
    rewrite (dict_set_new _ _ _ Hnm), IH.
    + rewrite <- app_assoc. reflexivity.
    + rewrite fmap_app, <- app_assoc. exact Hnd.
Qed.

Lemma int_values_names widths : ∀ bits,
  (PackedBits.int_values widths bits).*1 = widths.*1.
Proof.
  induction widths as [|[nm n] widths IH]; intros bits; simpl; [reflexivity|].
  rewrite IH. reflexivity.
Qed.

Lemma dict_get_NoDup {V} (d : dict V) k v :
  NoDup d.*1 → (k, v) ∈ d → dict_get k d = Some v.
Proof.
  induction d as [|[k' v'] d IH]; intros Hnd Hin; [inversion Hin|].
  rewrite fmap_cons in Hnd. apply list.NoDup_cons in Hnd as [Hk Hnd]. simpl in *.
  apply elem_of_cons in Hin as [[= -> ->]|Hin].
  - rewrite String.eqb_refl. reflexivity.
  - destruct (String.eqb_spec k k') as [->|Hne]; [|auto].
    exfalso. apply Hk. apply (list_elem_of_fmap_2 fst _ _ Hin).
Qed.

Lemma pb_init_attrs_ints kwargs : ∀ widths (vals acc : dict value),
  vals.*1 = widths.*1 →
  (∀ nm v, (nm, v) ∈ vals → dict_get nm kwargs = Some v) →
  NoDup (acc.*1 ++ vals.*1) →
  PackedBits.init_attrs kwargs
    ((λ '(nm, n), PackedBits.int_field nm n) <$> widths) acc
  = Some (acc ++ vals).
Proof.
  induction widths as [|[nm n] widths IH]; intros vals acc Hn Hk Hnd.
  - destruct vals; [|discriminate]. simpl. rewrite app_nil_r. reflexivity.
  - destruct vals as [|[nm' v] vals]; [discriminate|]. injection Hn as -> Hn.
    rewrite fmap_cons. cbn [PackedBits.init_attrs].
    unfold PackedBits.stored. cbn [PackedBits.int_field PackedBits.fixed_field
      PackedBits.bitfield_of PackedBits.default PackedBits.name].
    rewrite (Hk nm v) by left.
    assert (nm ∉ acc.*1) as Hnm.
    { apply list.NoDup_app in Hnd as (_ & Hdis & _). intros Hin.
      apply (Hdis _ Hin). rewrite fmap_cons. left. }
    rewrite (dict_set_new _ _ _ Hnm), (IH vals).
    + rewrite <- app_assoc. reflexivity.
    + exact Hn.
    + intros nm0 v0 Hin. apply Hk. right. exact Hin.
    + rewrite fmap_app, <- app_assoc. exact Hnd.
Qed.

Lemma total_width_cons nm n widths :
  PackedBits.total_width ((nm, n) :: widths) = n + PackedBits.total_width widths.
Proof. reflexivity. Qed.

Section IntClass.
Context (Δ : PackedBits.pb_table) (fuel : nat).

Lemma decode_int_field rec bitarray value_map cursor nm n h :
  0 < n →
  PackedBits.decode_field rec fuel Δ bitarray (value_map, cursor)
    (PackedBits.int_field nm n) h
  = match PackedBits.read_int bitarray (Z.of_nat n) (seq 0 n) 0 cursor with
    | Ret (z, cursor') => (h, Ret (dict_set nm (VInt z) value_map, cursor'))
    | Raise e => (h, Raise e)
    | Stuck w => (h, Stuck w)
    end.
Proof.
  intros Hn. unfold PackedBits.decode_field.
  cbn [PackedBits.int_field PackedBits.fixed_field PackedBits.type_len_fn
       PackedBits.build_type_len_fn PackedBits.name].
  rewrite bind_lift. cbn beta iota.
  replace (0 <? Z.of_nat n)%Z with true by (symmetry; apply Z.ltb_lt; lia).
  cbn [negb]. cbv zeta. rewrite Nat2Z.id, bind_M, bind_lift.
  destruct (PackedBits.read_int bitarray (Z.of_nat n) (seq 0 n) 0 cursor)
    as [[z c']| |]; reflexivity.
Qed.

Lemma decode_ints_ok rec bitarray h : ∀ widths value_map cursor,
  Forall (λ w, 0 < w.2) widths →
  cursor + PackedBits.total_width widths ≤ length bitarray →
  for_each (PackedBits.decode_field rec fuel Δ bitarray) (value_map, cursor)
    ((λ '(nm, n), PackedBits.int_field nm n) <$> widths) h
  = (h, Ret (foldl (λ d '(nm, v), dict_set nm v d) value_map
               (PackedBits.int_values widths (drop cursor bitarray)),
             cursor + PackedBits.total_width widths)).
Proof.
  induction widths as [|[nm n] widths IH]; intros value_map cursor Hpos Hlen.
  - simpl. unfold PackedBits.total_width. simpl. rewrite Nat.add_0_r. reflexivity.
  - inversion Hpos as [|? ? Hn Hrest]; subst. simpl in Hn.
    rewrite total_width_cons in *.
    rewrite fmap_cons. cbn [for_each].
    rewrite bind_M, decode_int_field by exact Hn.
    rewrite read_int_to_int by lia. cbn beta iota.
    rewrite IH by (assumption || lia).
    cbn [PackedBits.int_values foldl]. rewrite drop_drop, Nat.add_assoc.
    reflexivity.
Qed.

Lemma decode_ints_short rec bitarray h : ∀ widths value_map cursor,
  Forall (λ w, 0 < w.2) widths →
  cursor ≤ length bitarray →
  length bitarray < cursor + PackedBits.total_width widths →
  for_each (PackedBits.decode_field rec fuel Δ bitarray) (value_map, cursor)
    ((λ '(nm, n), PackedBits.int_field nm n) <$> widths) h
  = (h, Raise (Exn (UserError "IndexError") (MsgUser "list index out of range"))).
Proof.
  induction widths as [|[nm n] widths IH]; intros value_map cursor Hpos Hc Hlen.
  - unfold PackedBits.total_width in Hlen. simpl in Hlen. lia.
  - inversion Hpos as [|? ? Hn Hrest]; subst. simpl in Hn.
    rewrite total_width_cons in *.
    rewrite fmap_cons. cbn [for_each].
    rewrite bind_M, decode_int_field by exact Hn.
    destruct (decide (cursor + n ≤ length bitarray)) as [Hfit|Hshort].
    + rewrite read_int_to_int by lia. cbn beta iota.
      apply IH; [assumption|lia|lia].
    + rewrite read_int_short; [reflexivity|lia|rewrite length_seq; lia].
Qed.

Lemma pb_from_bitarray_ints cls widths bits h :
  dict_get cls Δ = Some (PackedBits.int_class widths) →
  NoDup widths.*1 →
  Forall (λ w, 0 < w.2) widths →
  PackedBits.from_bitarray (S fuel) Δ cls bits h =
    if length bits <? PackedBits.total_width widths
    then (h, Raise (Exn (UserError "IndexError")
                      (MsgUser "list index out of range")))
    else if PackedBits.total_width widths <? length bits
    then (h, Raise (Exn ValueError (MsgUser "Bits left over after parsing")))
    else (h ++ [Obj cls (PackedBits.int_values widths bits)], Ret (length h)).
Proof.
  intros Hcls Hnd Hpos. cbn [PackedBits.from_bitarray].
  unfold PackedBits.get_pb_class. rewrite Hcls, bind_mret.
  cbn [PackedBits.int_class PackedBits.pb_fields]. rewrite bind_M.
  destruct (Nat.ltb_spec (length bits) (PackedBits.total_width widths)) as [Hs|Hge].
  - rewrite decode_ints_short; [reflexivity|assumption|lia|simpl; lia].
  - rewrite decode_ints_ok by (assumption || simpl; lia). cbn beta iota.
    rewrite drop_0. simpl.
    destruct (Nat.ltb_spec (PackedBits.total_width widths) (length bits)) as [Hl|Hle].
    + replace (PackedBits.total_width widths =? length bits) with false
        by (symmetry; apply Nat.eqb_neq; lia). reflexivity.
    + replace (PackedBits.total_width widths =? length bits) with true
        by (symmetry; apply Nat.eqb_eq; lia). cbn [negb].
      rewrite (dict_set_foldl_new _ []) by (simpl; rewrite int_values_names; exact Hnd).
      simpl. apply (pb_init_spec Δ cls _ _ h _ Hcls).
      apply (pb_init_attrs_ints _ widths _ []).
      * apply int_values_names.
      * intros nm v Hin. apply dict_get_NoDup; [|exact Hin].
        rewrite int_values_names. exact Hnd.
      * simpl. rewrite int_values_names. exact Hnd.
Qed.

(** X24: decoding with a class of integer fields: [cls.from_bitarray(bits)]
    raises an [IndexError] when [bits] is shorter than the widths of the
    fields together, a [ValueError] for bits left over when it is longer,
    and otherwise returns a new instance whose fields hold the integers
    read from their bits, first bit most significant. *)
Theorem pb_int_decode cls widths bits h :
  dict_get cls Δ = Some (PackedBits.int_class widths) →
  NoDup widths.*1 →
  Forall (λ w, 0 < w.2) widths →
  PackedBits.from_bitarray (S fuel) Δ cls bits h =
    if length bits <? PackedBits.total_width widths
    then (h, Raise (Exn (UserError "IndexError")
                      (MsgUser "list index out of range")))
    else if PackedBits.total_width widths <? length bits
    then (h, Raise (Exn ValueError (MsgUser "Bits left over after parsing")))
    else (h ++ [Obj cls (PackedBits.int_values widths bits)], Ret (length h)).
Proof. apply pb_from_bitarray_ints. Qed.

End IntClass.

Lemma pb_int_decode_witness :
  PackedBits.from_bitarray 1 [("Triple", PackedBits.Triple)] "Triple"
    [true; false; true; false; true; false; false; true;
     false; false; false; false; false; false; true; true] []
  = ([Obj "Triple" [("a", VInt 5); ("b", VInt 9); ("c", VInt 3)]], Ret 0).
Proof.
  rewrite (pb_int_decode [("Triple", PackedBits.Triple)] 0 "Triple"
             [("a", 3); ("b", 5); ("c", 8)]);
    [reflexivity|reflexivity|refine (bool_decide_unpack _ _); vm_compute; exact I|].
  repeat constructor.
Defined.

Lemma int_to_bits_length v n : length (PackedBits.int_to_bits v (Z.of_nat n)) = n.
Proof. rewrite int_to_bits_int_bits. apply int_bits_length. Qed.

Lemma int_record_bits_cons nm n widths v vs :
  PackedBits.int_record_bits ((nm, n) :: widths) (v :: vs)
  = PackedBits.int_to_bits v (Z.of_nat n) ++ PackedBits.int_record_bits widths vs.
Proof. reflexivity. Qed.

Lemma int_record_bits_length widths : ∀ vs,
  length vs = length widths →
  length (PackedBits.int_record_bits widths vs) = PackedBits.total_width widths.
Proof.
  induction widths as [|[nm n] widths IH]; intros [|v vs] H; try discriminate;
    [reflexivity|].
  rewrite int_record_bits_cons, length_app, int_to_bits_length, total_width_cons.
  rewrite IH by (simpl in H; lia). reflexivity.
Qed.

Lemma int_values_record widths : ∀ vs,
  length vs = length widths →
  PackedBits.int_values widths (PackedBits.int_record_bits widths vs)
  = PackedBits.int_record_wrapped widths vs.
Proof.
  induction widths as [|[nm n] widths IH]; intros [|v vs] H; try discriminate;
    [reflexivity|].
  rewrite int_record_bits_cons. cbn [PackedBits.int_values].
  rewrite take_app_length' by (symmetry; apply int_to_bits_length).
  rewrite drop_app_length' by (symmetry; apply int_to_bits_length).
  rewrite to_int_int_to_bits, IH by (simpl in H; lia). reflexivity.
Qed.

Section IntRecord.
Context (Δ : PackedBits.pb_table) (fuel : nat).

Lemma encode_int_field rec self attrs bitstring nm n v h o :
  h !! self = Some o →
  dict_get nm (obj_dict o) = Some (VInt v) →
  0 < n →
  PackedBits.encode_field rec fuel Δ self attrs bitstring
    (PackedBits.int_field nm n) h
  = (h, if (2 ^ Z.of_nat n <=? v)%Z
        then Raise (Exn ValueError (MsgUser (nm +:+ " is too large")))
        else Ret (bitstring ++ PackedBits.int_to_bits v (Z.of_nat n))).
Proof.
  intros Hs Hv Hn. unfold PackedBits.encode_field.
  cbn [PackedBits.int_field PackedBits.fixed_field PackedBits.type_len_fn
       PackedBits.build_type_len_fn PackedBits.name].
  erewrite bind_M_ret; [|apply (getattr_ret _ _ _ _ _ _ Hs Hv)].
  rewrite bind_lift. cbn beta iota.
  rewrite bind_M. cbn [PackedBits.isinstance]. rewrite bind_M. cbn beta iota.
  cbn [negb].
  replace (0 <? Z.of_nat n)%Z with true by (symmetry; apply Z.ltb_lt; lia).
  cbn [negb py_int]. rewrite Z.shiftl_1_l.
  destruct (2 ^ Z.of_nat n <=? v)%Z; reflexivity.
Qed.

Lemma encode_ints rec self attrs h o : ∀ widths vs bitstring,
  h !! self = Some o →
  Forall (λ w, 0 < w.2) widths →
  Forall2 (λ w v, dict_get w.1 (obj_dict o) = Some (VInt v) ∧
                  (v < 2 ^ Z.of_nat w.2)%Z) widths vs →
  for_each (PackedBits.encode_field rec fuel Δ self attrs) bitstring
    ((λ '(nm, n), PackedBits.int_field nm n) <$> widths) h
  = (h, Ret (bitstring ++ PackedBits.int_record_bits widths vs)).
Proof.
  intros widths vs bitstring Hs Hpos H. revert bitstring.
  induction H as [|[nm n] v widths vs [Hv Hr] _ IH]; intros bitstring.
  - simpl. unfold PackedBits.int_record_bits. simpl. rewrite app_nil_r. reflexivity.
  - inversion Hpos as [|? ? Hn Hrest]; subst. simpl in Hn, Hv, Hr.
    rewrite fmap_cons. cbn [for_each].
    rewrite bind_M, (encode_int_field _ _ _ _ _ _ _ _ _ Hs Hv Hn).
    replace (2 ^ Z.of_nat n <=? v)%Z with false by (symmetry; apply Z.leb_gt; lia).
    rewrite (IH Hrest), int_record_bits_cons, app_assoc. reflexivity.
Qed.

(** X25: the round trip of a record of integer fields: when every field
    holds an integer below [2^n] for its width [n], [x.to_bitarray()]
    returns the bits of the integers, each in its width and most
    significant bit first, and [cls.from_bitarray] of them returns a new
    instance whose fields hold the integers modulo [2^n]: the integers
    themselves when none is negative, a negative one not being refused but
    wrapped. *)
Theorem pb_int_round_trip cls widths vs x o h :
  dict_get cls Δ = Some (PackedBits.int_class widths) →
  NoDup widths.*1 →
  Forall (λ w, 0 < w.2) widths →
  h !! x = Some o → obj_class o = cls →
  Forall2 (λ w v, dict_get w.1 (obj_dict o) = Some (VInt v) ∧
                  (v < 2 ^ Z.of_nat w.2)%Z) widths vs →
  PackedBits.to_bitarray (S fuel) Δ x h
    = (h, Ret (PackedBits.int_record_bits widths vs)) ∧
  PackedBits.from_bitarray (S fuel) Δ cls (PackedBits.int_record_bits widths vs) h
    = (h ++ [Obj cls (PackedBits.int_record_wrapped widths vs)], Ret (length h)) ∧
  (Forall (λ v, 0 ≤ v)%Z vs →
   PackedBits.int_record_wrapped widths vs
   = zip_with (λ w v, (w.1, VInt v)) widths vs).
Proof.
  intros Hcls Hnd Hpos Hx Hc Hvs.
  pose proof (Forall2_length Hvs) as Hlen.
  split; [|split].
  - cbn [PackedBits.to_bitarray].
    erewrite bind_M_ret; [|unfold get_object; rewrite Hx; reflexivity].
    unfold PackedBits.get_pb_class. rewrite Hc, Hcls, bind_mret.
    cbn [PackedBits.int_class PackedBits.pb_fields].
    apply (encode_ints _ _ _ _ _ _ _ [] Hx Hpos Hvs).
  - rewrite (pb_from_bitarray_ints Δ fuel cls widths _ h Hcls Hnd Hpos).
    rewrite int_record_bits_length by lia. rewrite Nat.ltb_irrefl.
    rewrite int_values_record by lia. reflexivity.
  - intros Hnn. unfold PackedBits.int_record_wrapped.
    clear -Hvs Hnn. induction Hvs as [|[nm n] v widths vs [_ Hr] _ IH]; [reflexivity|].
    inversion Hnn; subst. simpl in *. rewrite Z.mod_small by lia.
    rewrite IH by assumption. reflexivity.
Qed.

End IntRecord.

Lemma pb_int_round_trip_witness :
  let Δ := [("Triple", PackedBits.Triple)] in
  let h := [Obj "Triple" [("a", VInt 5); ("b", VInt (-1)); ("c", VInt 3)]] in
  let widths := [("a", 3); ("b", 5); ("c", 8)] in
  let vs := [5; -1; 3]%Z in
  PackedBits.to_bitarray 1 Δ 0 h
    = (h, Ret (PackedBits.int_record_bits widths vs)) ∧
  PackedBits.from_bitarray 1 Δ "Triple" (PackedBits.int_record_bits widths vs) h
    = (h ++ [Obj "Triple" [("a", VInt 5); ("b", VInt 31); ("c", VInt 3)]],
       Ret (length h)) ∧
  (Forall (λ v, 0 ≤ v)%Z vs →
   PackedBits.int_record_wrapped widths vs
   = zip_with (λ w v, (w.1, VInt v)) widths vs).
Proof.
  apply (pb_int_round_trip [("Triple", PackedBits.Triple)] 0 "Triple"
           [("a", 3); ("b", 5); ("c", 8)] [5; -1; 3]%Z 0
           (Obj "Triple" [("a", VInt 5); ("b", VInt (-1)); ("c", VInt 3)]));
    try reflexivity.
  - refine (bool_decide_unpack _ _). vm_compute. exact I.
  - repeat constructor.
  - repeat constructor.
Defined.

(** ** Whole bytes *)

Lemma pack_unpack_byte x : PackedBits.pack_byte (PackedBits.unpack_byte x) = x.
Proof. destruct x; vm_compute; reflexivity. Qed.

Lemma unpack_byte_length x : length (PackedBits.unpack_byte x) = 8.
Proof. reflexivity. Qed.

Lemma unpack_pack_byte (bits : list bool) :
  length bits = 8 → PackedBits.unpack_byte (PackedBits.pack_byte bits) = bits.
Proof.
  intros H. do 9 (destruct bits as [|? bits]; try discriminate).
  repeat match goal with b : bool |- _ => destruct b end; vm_compute; reflexivity.
Qed.

Lemma unpack_cons x data :
  PackedBits.unpack (x :: data) = PackedBits.unpack_byte x ++ PackedBits.unpack data.
Proof. reflexivity. Qed.

Lemma unpack_length data : length (PackedBits.unpack data) = 8 * length data.
Proof.
  induction data as [|x data IH]; [reflexivity|].
  rewrite unpack_cons, length_app, unpack_byte_length, IH. simpl. lia.
Qed.

Lemma pack_unpack data :
  PackedBits.pack (length data) (PackedBits.unpack data) = data.
Proof.
  induction data as [|x data IH]; [reflexivity|].
  cbn [length PackedBits.pack]. rewrite unpack_cons.
  rewrite take_app_length' by reflexivity.
  rewrite drop_app_length' by reflexivity.
  rewrite pack_unpack_byte, IH. reflexivity.
Qed.

Lemma unpack_pack k : ∀ bits : list bool,
  length bits = 8 * k → PackedBits.unpack (PackedBits.pack k bits) = bits.
Proof.
  induction k as [|k IH]; intros bits Hb.
  - destruct bits; [reflexivity|discriminate].
  - cbn [PackedBits.pack]. rewrite unpack_cons.
    rewrite unpack_pack_byte by (rewrite length_take; lia).
    rewrite IH by (rewrite length_drop; lia).
    apply take_drop.
Qed.

(** X26: the byte interface of the first engine: [x.to_bytes()] packs the
    bits of [x.to_bitarray()] eight to a byte, first bit most significant,
    and fails with a [ValueError] when their number is not a multiple of
    8; [cls.from_bytes(data)] is [cls.from_bitarray] of the bits of the
    bytes.  Packing and unpacking are inverse, so [from_bytes] of the bytes
    of [x] is [from_bitarray] of the bits of [x]. *)
Theorem pb_bytes_interface fuel Δ x cls h :
  (∀ data, PackedBits.pack (length data) (PackedBits.unpack data) = data) ∧
  (∀ h' bits,
     PackedBits.to_bitarray fuel Δ x h = (h', Ret bits) →
     PackedBits.to_bytes fuel Δ x h
     = (h', if length bits mod 8 =? 0
            then Ret (PackedBits.pack (length bits / 8) bits)
            else Raise (Exn ValueError
                   (MsgUser "Result is not byte aligned (multiple of 8 bits)")))) ∧
  (∀ h' data,
     PackedBits.to_bytes fuel Δ x h = (h', Ret data) →
     ∃ bits,
       PackedBits.to_bitarray fuel Δ x h = (h', Ret bits) ∧
       PackedBits.unpack data = bits ∧
       PackedBits.from_bytes fuel Δ cls data
       = PackedBits.from_bitarray fuel Δ cls bits).
Proof.
  split; [apply pack_unpack|]. split.
  - intros h' bits E. unfold PackedBits.to_bytes. rewrite bind_M, E.
    destruct (length bits mod 8 =? 0); reflexivity.
  - intros h' data E. unfold PackedBits.to_bytes in E.
    apply bind_M_inv in E as (bits & h1 & E1 & E2).
    destruct (length bits mod 8 =? 0) eqn:Hm; [|discriminate].
    cbn [negb] in E2. injection E2 as <- <-.
    apply Nat.eqb_eq in Hm.
    assert (PackedBits.unpack (PackedBits.pack (length bits / 8) bits) = bits) as Hu.
    { apply unpack_pack. pose proof (Nat.div_mod_eq (length bits) 8). lia. }
    exists bits. split; [exact E1|]. split; [exact Hu|].
    unfold PackedBits.from_bytes.
    exact (f_equal (PackedBits.from_bitarray fuel Δ cls) Hu).
Qed.

(** ** Defaults and decoding *)

Lemma pb_init_ret Δ cls c kwargs h h' l :
  dict_get cls Δ = Some c →
  PackedBits.init Δ cls kwargs h = (h', Ret l) →
  ∃ attrs,
    PackedBits.init_attrs kwargs (PackedBits.pb_fields c) [] = Some attrs ∧
    h' = h ++ [Obj cls attrs] ∧ l = length h.
Proof.
  intros Hc E.
  destruct (PackedBits.first_unset kwargs (PackedBits.pb_fields c)) as [nm|] eqn:Hm.
  - destruct (pb_init_loop_missing kwargs h cls _ _ [] Hm) as [d' E'].
    unfold PackedBits.init, PackedBits.get_pb_class in E. rewrite Hc in E.
    rewrite bind_mret in E. unfold alloc in E. rewrite bind_M in E.
    cbn beta iota in E. rewrite bind_M, E' in E. discriminate.
  - destruct (pb_first_unset_None _ _ [] Hm) as [attrs Ea].
    rewrite (pb_init_spec _ _ _ _ h _ Hc Ea) in E. injection E as <- <-.
    exists attrs. auto.
Qed.

(** X27: a field that has a default never takes a decoded value: the
    instance that [cls.from_bitarray] returns holds the default in it,
    whatever bits were read for the field, because the decoder ends with
    the constructor, which gives such a field its default.  So the value
    of a field with a default does not survive a round trip unless it is
    the default. *)
Theorem pb_default_overrides_decoded fuel Δ cls c f d bits h h' l :
  dict_get cls Δ = Some c →
  NoDup (PackedBits.name <$> PackedBits.pb_fields c) →
  f ∈ PackedBits.pb_fields c →
  PackedBits.default (PackedBits.bitfield_of f) = Some d →
  PackedBits.from_bitarray fuel Δ cls bits h = (h', Ret l) →
  ∃ o, h' !! l = Some o ∧ dict_get (PackedBits.name f) (obj_dict o) = Some d.
Proof.
  intros Hc Hnd Hf Hd E. destruct fuel as [|fuel]; [discriminate|].
  cbn [PackedBits.from_bitarray] in E.
  unfold PackedBits.get_pb_class in E. rewrite Hc, bind_mret in E.
  apply bind_M_inv in E as ([value_map cursor] & h1 & _ & E).
  destruct (negb (cursor =? length bits)); [discriminate|].
  apply (pb_init_ret _ _ _ _ _ _ _ Hc) in E as (attrs & Ea & -> & ->).
  exists (Obj cls attrs). split; [apply list_lookup_middle; reflexivity|].
  simpl. rewrite (pb_init_attrs_field _ _ _ _ _ Ea Hnd Hf).
  unfold PackedBits.stored. rewrite Hd. reflexivity.
Qed.

Lemma pb_default_overrides_decoded_witness :
  PackedBits.from_bitarray 1 [("Header", PackedBits.Header)] "Header"
    [false; true; true; true; false; false; true; false] []
  = ([Obj "Header" [("kind", VInt 7); ("version", VInt 1)]], Ret 0) ∧
  ∃ o, [Obj "Header" [("kind", VInt 7); ("version", VInt 1)]] !! 0 = Some o ∧
       dict_get "version" (obj_dict o) = Some (VInt 1).
Proof.
  split; [reflexivity|].
  apply (pb_default_overrides_decoded 1 [("Header", PackedBits.Header)] "Header"
           PackedBits.Header
           (PackedBits.fixed_field "version" PackedBits.TInt 4 (Some (VInt 1)))
           (VInt 1) [false; true; true; true; false; false; true; false] []).
  - reflexivity.
  - refine (bool_decide_unpack _ _). vm_compute. exact I.
  - right. left.
  - reflexivity.
  - reflexivity.
Defined.
